(** * The markdown-to-slide compiler of ppt-generator.js

    A shallow embedding of the parsing layer ([parseMarkdown],
    [parseBullets], [parseCodeBlocks], [parseTables],
    [parseContentElements]), of the layout flow of [addContentSlide], of
    [generatePresentation] and of the archive post-processor
    [fixForGoogleSlides], followed by the properties the specification
    states about them.

    Conventions.
    - A JavaScript string is a list of UTF-16 code units, each an [N].
    - A JavaScript Number is an IEEE 754 binary64 value, a [float]: the
      sums, products and comparisons of the layout are those the code
      computes, rounding included.
    - A loop whose index advances by a data-dependent amount is written
      with a fuel argument, which its caller sets to a bound on the number
      of iterations; the result is shown not to depend on the fuel from
      that bound on. *)

From Stdlib Require Import Ascii String DecimalString DecimalNat.
From Stdlib Require Import List Bool Arith NArith ZArith Lia PrimFloat.
Import ListNotations.

Set Warnings "-inexact-float".

Set Implicit Arguments.

(** ** JavaScript strings *)

Module Js.

Definition char := N.
Definition str := list char.

(** The code units of an ASCII literal. *)
Definition lit (s : string) : str :=
  List.map N_of_ascii (list_ascii_of_string s).

Definition str_eqb (a b : str) : bool :=
  if list_eq_dec N.eq_dec a b then true else false.

(** Character classes of ECMAScript regular expressions. *)

(** LineTerminator: LF, CR, LS, PS. *)
Definition isLineTerminator (c : char) : bool :=
  ((c =? 10) || (c =? 13) || (c =? 8232) || (c =? 8233))%N.

(** [\s], which is also what [trim] strips: WhiteSpace and LineTerminator. *)
Definition isSpace (c : char) : bool :=
  (((9 <=? c) && (c <=? 13)) || (c =? 32) || (c =? 160) || (c =? 5760)
   || ((8192 <=? c) && (c <=? 8202)) || (c =? 8232) || (c =? 8233)
   || (c =? 8239) || (c =? 8287) || (c =? 12288) || (c =? 65279))%N.

(** [\d] *)
Definition isDigit (c : char) : bool := ((48 <=? c) && (c <=? 57))%N.

(** [\w] *)
Definition isWord (c : char) : bool :=
  (((65 <=? c) && (c <=? 90)) || ((97 <=? c) && (c <=? 122))
   || isDigit c || (c =? 95))%N.

(** [.] without the [s] flag *)
Definition isDot (c : char) : bool := negb (isLineTerminator c).

(** The longest prefix whose members satisfy [p], and what follows it. *)
Fixpoint takeWhile (A : Type) (p : A -> bool) (s : list A) : list A :=
  match s with
  | c :: s' => if p c then c :: takeWhile p s' else []
  | [] => []
  end.

Fixpoint dropWhile (A : Type) (p : A -> bool) (s : list A) : list A :=
  match s with
  | c :: s' => if p c then dropWhile p s' else s
  | [] => []
  end.

(** [String.prototype.trim] *)
Definition trimStart (s : str) : str := dropWhile isSpace s.
Definition trimEnd (s : str) : str := rev (dropWhile isSpace (rev s)).
Definition trim (s : str) : str := trimEnd (trimStart s).

(** The truthiness of a string: non-empty. *)
Definition truthy (s : str) : bool :=
  match s with [] => false | _ => true end.

(** [s.startsWith(p)] *)
Fixpoint startsWith (p s : str) : bool :=
  match p, s with
  | [], _ => true
  | a :: p', b :: s' => (a =? b)%N && startsWith p' s'
  | _ :: _, [] => false
  end.

(** [s.endsWith(p)] *)
Definition endsWith (p s : str) : bool := startsWith (rev p) (rev s).

(** [s.includes(p)] *)
Fixpoint includes (p s : str) : bool :=
  startsWith p s ||
  match s with
  | [] => false
  | _ :: s' => includes p s'
  end.

(** [s.split(c)] for a one-character separator: a string with [n]
    separators has [n + 1] pieces. *)
Fixpoint splitOn (sep : char) (s : str) : list str :=
  match s with
  | [] => [[]]
  | c :: s' =>
      if (c =? sep)%N then [] :: splitOn sep s'
      else match splitOn sep s' with
           | piece :: more => (c :: piece) :: more
           | [] => [[c]]
           end
  end.

(** [pieces.join(sep)] *)
Fixpoint join (sep : str) (pieces : list str) : str :=
  match pieces with
  | [] => []
  | [p] => p
  | p :: more => p ++ sep ++ join sep more
  end.

Definition NL : char := 10%N.
Definition lines (s : str) : list str := splitOn NL s.
Definition unlines (l : list str) : str := join [NL] l.

(** [String(n)] for a non-negative integer. *)
Definition ofNat (n : nat) : str :=
  lit (NilEmpty.string_of_uint (Nat.to_uint n)).

(** [s.toLowerCase()] on the characters [\w] can capture: A-Z are the only
    ones that change. *)
Definition toLowerCase (s : str) : str :=
  List.map (fun c => if ((65 <=? c) && (c <=? 90))%N then (c + 32)%N else c) s.

(** [arr.slice(1, -1)] *)
Definition slice1m1 (A : Type) (l : list A) : list A :=
  removelast (tl l).

End Js.

Import Js.

(** ** SlideSplitter: [parseMarkdown] *)

Record Slide := mkSlide {
  type : str;
  title : str;
  content : str
}.

(** [body.split(/^## /m)].  The scan keeps [bol], whether the position is
    the start of the input or follows a LineTerminator, and [cur], the text
    (reversed) since the last separator.  The three characters of a
    separator are skipped together, so that separators never overlap. *)
Fixpoint splitSections (bol : bool) (cur : str) (s : str) : list str :=
  match s with
  | [] => [rev cur]
  | c :: s1 =>
      match s1 with
      | c2 :: c3 :: rest =>
          if bol && (c =? 35)%N && (c2 =? 35)%N && (c3 =? 32)%N
          then rev cur :: splitSections false [] rest
          else splitSections (isLineTerminator c) (c :: cur) s1
      | _ => splitSections (isLineTerminator c) (c :: cur) s1
      end
  end.

(** The match of the header line against the pattern: an opening bracket
    at the start, one or more [\w] captured as the type, a closing
    bracket, any white space, then the rest of the line captured as the
    title.  The greedy [\w+] must stop at the closing bracket, and the
    title runs to the end of the string, so it must hold no
    LineTerminator; giving white space back cannot help there. *)
Definition typeMatch (headerLine : str) : option (str * str) :=
  match headerLine with
  | c :: r =>
      if (c =? 91)%N then
        let w := takeWhile isWord r in
        match w, dropWhile isWord r with
        | _ :: _, c' :: r' =>
            if (c' =? 93)%N then
              let t := dropWhile isSpace r' in
              if forallb isDot t then Some (w, t) else None
            else None
        | _, _ => None
        end
      else None
  | [] => None
  end.

Definition headerLineOf (section : str) : str :=
  hd [] (lines (trim section)).

Definition slideContentOf (section : str) : str :=
  trim (unlines (tl (lines (trim section)))).

(** The body of the loop over the sections. *)
Definition parseSection (section : str) : Slide :=
  let headerLine := headerLineOf section in
  let slideContent := slideContentOf section in
  match typeMatch headerLine with
  | Some (t, ttl) => mkSlide (toLowerCase t) ttl slideContent
  | None => mkSlide (lit "content") headerLine slideContent
  end.

(** [s => s.trim()] as a filter: the chunks that are not blank. *)
Definition nonBlank (s : str) : bool := truthy (trim s).

Definition sections (body : str) : list str :=
  filter nonBlank (splitSections true [] body).

(** The slides of a body, the frontmatter already removed. *)
Definition slidesOf (body : str) : list Slide :=
  List.map parseSection (sections body).

(** The frontmatter keys the title slide reads; an absent or empty value
    is [None]. *)
Record Frontmatter := mkFrontmatter {
  fmType : option str;
  discipline : option str;
  module : option str;
  lesson : option str
}.

(** [parseMarkdown], over the frontmatter parser [matter] of the gray-matter
    package, which returns the frontmatter data and the body. *)
Definition parseMarkdown (matter : str -> Frontmatter * str) (content : str)
  : Frontmatter * list Slide :=
  let '(frontmatter, body) := matter content in
  (frontmatter, slidesOf body).

(** ** BulletParser: [parseBullets] *)

Record Bullet := mkBullet {
  text : str;
  level : nat
}.

Definition isBulletMark (c : char) : bool :=
  ((c =? 45) || (c =? 42) || (c =? 8226))%N.

(** The bullet text, [.+] up to the end of the string, after the greedy
    [\s+] of a bullet line: white space is given back one character at a
    time, from [k] characters taken down to one, until the rest is
    non-empty and free of LineTerminators. *)
Fixpoint bulletText (k : nat) (ws rest : str) : option str :=
  match k with
  | O => None
  | S k' =>
      let cand := skipn k ws ++ rest in
      if truthy cand && forallb isDot cand then Some cand
      else bulletText k' ws rest
  end.

(** The match of a line against the bullet pattern: leading white space
    (captured), one of the marks hyphen, asterisk or U+2022, one or more
    white space, then the text (captured) up to the end of the string. *)
Definition bulletMatch (line : str) : option (str * str) :=
  let indent := takeWhile isSpace line in
  match dropWhile isSpace line with
  | c :: r =>
      if isBulletMark c then
        let ws := takeWhile isSpace r in
        match bulletText (length ws) ws (dropWhile isSpace r) with
        | Some t => Some (indent, t)
        | None => None
        end
      else None
  | [] => None
  end.

Definition parseBullets (content : str) : list Bullet :=
  flat_map
    (fun line =>
       match bulletMatch line with
       | Some (indent, t) => [mkBullet t (length indent / 2)]
       | None => []
       end)
    (lines content).

(** The bullet-line test of [parseContentElements]: leading white space,
    a mark, and at least one white space after it. *)
Definition isBulletLine (line : str) : bool :=
  match dropWhile isSpace line with
  | c :: r => isBulletMark c && match r with c' :: _ => isSpace c' | [] => false end
  | [] => false
  end.

(** ** CodeBlockExtractor *)

Record CodeBlock := mkCodeBlock {
  placeholder : str;
  language : str;
  code : str
}.

Definition fence : str := [96; 96; 96]%N.

(** The lazy body of a fenced block: the text up to the first closing
    fence, and the text after that fence. *)
Fixpoint breakAtFence (s : str) : option (str * str) :=
  match s with
  | [] => None
  | c :: s' =>
      if startsWith fence s then Some ([], skipn 3 s)
      else match breakAtFence s' with
           | Some (b, a) => Some (c :: b, a)
           | None => None
           end
  end.

(** One match of the fence pattern: opening fence, [\w*] (the language),
    an optional CR, LF, the lazy body, closing fence. *)
Record FenceMatch := mkFenceMatch {
  whole : str;     (* match[0] *)
  lang : str;      (* match[1] *)
  inner : str;     (* match[2] *)
  after : str      (* the input from lastIndex on *)
}.

Definition fenceHere (s : str) : option FenceMatch :=
  if startsWith fence s then
    let r := skipn 3 s in
    let l := takeWhile isWord r in
    let r1 := dropWhile isWord r in
    let '(eol, r2) :=
      match r1 with
      | c :: r' => if (c =? 13)%N then ([c], r') else ([], r1)
      | [] => ([], r1)
      end in
    match r2 with
    | c :: r3 =>
        if (c =? 10)%N then
          match breakAtFence r3 with
          | Some (b, a) =>
              Some (mkFenceMatch (fence ++ l ++ eol ++ [c] ++ b ++ fence) l b a)
          | None => None
          end
        else None
    | [] => None
    end
  else None.

(** [codeRegex.exec]: the leftmost position at which the pattern matches. *)
Fixpoint execFence (s : str) : option FenceMatch :=
  match fenceHere s with
  | Some m => Some m
  | None =>
      match s with
      | [] => None
      | _ :: s' => execFence s'
      end
  end.

(** The successive matches of the global pattern: each search resumes
    where the previous match ended. *)
Fixpoint fenceMatches (fuel : nat) (s : str) : list FenceMatch :=
  match fuel with
  | O => []
  | S f =>
      match execFence s with
      | Some m => m :: fenceMatches f (after m)
      | None => []
      end
  end.

Definition orText (l : str) : str :=
  match l with [] => lit "text" | _ => l end.

(** [parseCodeBlocks] keeps language and code only; the placeholder field
    is left empty. *)
Definition parseCodeBlocks (content : str) : list CodeBlock :=
  List.map (fun m => mkCodeBlock [] (orText (lang m)) (trim (inner m)))
           (fenceMatches (S (length content)) content).

(** ** TableExtractor *)

Record TableRow := mkTableRow {
  cells : list str;
  isHeader : bool
}.

Record TableBlock := mkTableBlock {
  tplaceholder : str;
  rows : list TableRow
}.

Definition PIPE : char := 124%N.

(** [line.trim().startsWith('|')] *)
Definition startsPipe (line : str) : bool := startsWith [PIPE] (trim line).

(** [line.trim().startsWith('|') && line.trim().endsWith('|')] *)
Definition isPipeLine (line : str) : bool :=
  startsWith [PIPE] (trim line) && endsWith [PIPE] (trim line).

Definition isSepChar (c : char) : bool :=
  isSpace c || (c =? 58)%N || (c =? 45)%N.

(** The separator test of a table line: a pipe at the start, one or more
    of white space, colon and hyphen, a pipe; and three hyphens in a row
    somewhere in the line. *)
Definition isSeparator (tableLine : str) : bool :=
  match tableLine with
  | c :: r =>
      (c =? PIPE)%N && truthy (takeWhile isSepChar r)
      && match dropWhile isSepChar r with
         | c' :: _ => (c' =? PIPE)%N
         | [] => false
         end
      && includes (lit "---") tableLine
  | [] => false
  end.

Definition cellsOf (tableLine : str) : list str :=
  List.map trim (slice1m1 (splitOn PIPE tableLine)).

(** The loop over the lines of one table block; [hdr] is the variable
    [isHeader] of the source. *)
Fixpoint tableRows (hdr : bool) (tableLines : list str) : list TableRow :=
  match tableLines with
  | [] => []
  | tableLine :: more =>
      if isSeparator tableLine then tableRows false more
      else
        match cellsOf tableLine with
        | [] => tableRows hdr more
        | cs => mkTableRow cs hdr :: tableRows false more
        end
  end.

(** [parseTables]: the row lists of the blocks of two or more lines that
    yield at least one row, each with the index of its first line. *)
Fixpoint parseTablesFrom (fuel i : nat) (ls : list str)
  : list (list TableRow * nat) :=
  match fuel with
  | O => []
  | S f =>
      match ls with
      | [] => []
      | line :: rest =>
          if isPipeLine line then
            let tableLines := takeWhile startsPipe ls in
            let ls' := dropWhile startsPipe ls in
            let i' := i + length tableLines in
            if 2 <=? length tableLines then
              match tableRows true tableLines with
              | [] => parseTablesFrom f i' ls'
              | rs => (rs, i) :: parseTablesFrom f i' ls'
              end
            else parseTablesFrom f i' ls'
          else parseTablesFrom f (S i) rest
      end
  end.

Definition parseTables (content : str) : list (list TableRow * nat) :=
  let ls := lines content in parseTablesFrom (length ls) 0 ls.

(** ** ContentElementParser: [parseContentElements] *)

Inductive Element :=
| TextEl (content : str)
| BulletsEl (content : str)
| CodeEl (language code : str)
| TableEl (rows : list TableRow).

(** [s.replace(pat, rep)] for a string pattern and a replacement without
    dollar patterns: the first occurrence only. *)
Fixpoint replaceFirst (pat rep s : str) : str :=
  if startsWith pat s then rep ++ skipn (length pat) s
  else match s with
       | [] => []
       | c :: s' => c :: replaceFirst pat rep s'
       end.

Definition codePlaceholder (n : nat) : str :=
  lit "__CODE_BLOCK_" ++ ofNat n ++ lit "__".

Definition tablePlaceholder (n : nat) : str :=
  lit "__TABLE_" ++ ofNat n ++ lit "__".

(** Step 1: every match of the fence pattern in [content] becomes a code
    block, and its text is replaced in the working copy. *)
Fixpoint extractCode (ms : list FenceMatch) (placeholderIndex : nat)
         (workingContent : str) : list CodeBlock * str :=
  match ms with
  | [] => ([], workingContent)
  | m :: ms' =>
      let ph := codePlaceholder placeholderIndex in
      let cb := mkCodeBlock ph (orText (lang m)) (trim (inner m)) in
      let '(cbs, w) :=
        extractCode ms' (S placeholderIndex)
                    (replaceFirst (whole m) ph workingContent) in
      (cb :: cbs, w)
  end.

(** Step 2: the table loop.  [tables] and [newLines] are the arrays of the
    source, grown at the end. *)
Fixpoint extractTables (fuel : nat) (ls : list str)
         (tables : list TableBlock) (newLines : list str)
  : list TableBlock * list str :=
  match fuel with
  | O => (tables, newLines)
  | S f =>
      match ls with
      | [] => (tables, newLines)
      | line :: rest =>
          if isPipeLine line then
            let tableLines := takeWhile startsPipe ls in
            let ls' := dropWhile startsPipe ls in
            if 2 <=? length tableLines then
              let ph := tablePlaceholder (length tables) in
              match tableRows true tableLines with
              | [] => extractTables f ls' tables newLines
              | rs =>
                  extractTables f ls' (tables ++ [mkTableBlock ph rs])
                                (newLines ++ [ph])
              end
            else extractTables f ls' tables newLines
          else extractTables f rest tables (newLines ++ [line])
      end
  end.

(** An unanchored search for [prefix], one or more digits, and two
    underscores. *)
Definition tokenHere (prefix s : str) : bool :=
  startsWith prefix s &&
  let r := skipn (length prefix) s in
  truthy (takeWhile isDigit r) && startsWith (lit "__") (dropWhile isDigit r).

Fixpoint hasToken (prefix s : str) : bool :=
  tokenHere prefix s ||
  match s with
  | [] => false
  | _ :: s' => hasToken prefix s'
  end.

Definition codeMatch (line : str) : bool := hasToken (lit "__CODE_BLOCK_") line.
Definition tableMatch (line : str) : bool := hasToken (lit "__TABLE_") line.

(** Step 3: the walk over the remaining lines. *)
Record Walk := mkWalk {
  elements : list Element;
  currentBulletBlock : list str;
  currentTextBlock : list str
}.

Definition flushText (w : Walk) : Walk :=
  match currentTextBlock w with
  | [] => w
  | tb => mkWalk (elements w ++ [TextEl (trim (unlines tb))])
                 (currentBulletBlock w) []
  end.

Definition flushBullets (w : Walk) : Walk :=
  match currentBulletBlock w with
  | [] => w
  | bb => mkWalk (elements w ++ [BulletsEl (unlines bb)]) [] (currentTextBlock w)
  end.

Definition push (e : option Element) (w : Walk) : Walk :=
  match e with
  | Some x => mkWalk (elements w ++ [x]) (currentBulletBlock w) (currentTextBlock w)
  | None => w
  end.

Definition walkLine (codeBlocks : list CodeBlock) (tables : list TableBlock)
           (w : Walk) (line : str) : Walk :=
  if codeMatch line then
    let w := flushBullets (flushText w) in
    push (option_map (fun cb => CodeEl (language cb) (code cb))
            (find (fun cb => str_eqb (placeholder cb) (trim line)) codeBlocks))
         w
  else if tableMatch line then
    let w := flushBullets (flushText w) in
    push (option_map (fun t => TableEl (rows t))
            (find (fun t => str_eqb (tplaceholder t) (trim line)) tables))
         w
  else if isBulletLine line then
    let w := flushText w in
    mkWalk (elements w) (currentBulletBlock w ++ [line]) (currentTextBlock w)
  else if truthy (trim line) then
    let w := flushBullets w in
    mkWalk (elements w) (currentBulletBlock w) (currentTextBlock w ++ [line])
  else flushBullets (flushText w).

Definition walkLines (codeBlocks : list CodeBlock) (tables : list TableBlock)
           (finalLines : list str) : list Element :=
  elements
    (flushBullets
       (flushText
          (fold_left (walkLine codeBlocks tables) finalLines (mkWalk [] [] [])))).

(** The three arrays the walk is run on. *)
Definition codeBlocksOf (content : str) : list CodeBlock * str :=
  extractCode (fenceMatches (S (length content)) content) 0 content.

Definition tablesOf (workingContent : str) : list TableBlock * list str :=
  let ls := lines workingContent in extractTables (length ls) ls [] [].

Definition finalLinesOf (content : str) : list str :=
  lines (unlines (snd (tablesOf (snd (codeBlocksOf content))))).

Definition parseContentElements (content : str) : list Element :=
  let '(codeBlocks, workingContent) := codeBlocksOf content in
  let '(tables, newLines) := tablesOf workingContent in
  walkLines codeBlocks tables (lines (unlines newLines)).

(** ** LayoutFlowEngine: the element loop of [addContentSlide] *)

(** *** Numbers

    A JavaScript Number is an IEEE 754 binary64 value, and so is a
    [float] of the kernel: a decimal literal denotes the nearest binary64
    value, and [+], [-], [*] and [/] round to nearest, ties to even, in
    both. *)

Local Open Scope float_scope.

(** An integer as a Number; exact below 2^53. *)
Fixpoint ofPos (p : positive) : float :=
  match p with
  | xH => 1
  | xO q => 2 * ofPos q
  | xI q => 2 * ofPos q + 1
  end.

Definition ofZ (z : Z) : float :=
  match z with
  | Z0 => 0
  | Zpos p => ofPos p
  | Zneg p => - ofPos p
  end.

(** [arr.length] as a Number. *)
Definition ofLength (A : Type) (l : list A) : float := ofZ (Z.of_nat (length l)).

(** The Number a decimal literal with two digits after the point denotes:
    the quotient is rounded once, to the binary64 value nearest to the
    decimal. *)
Definition ofHundredths (h : Z) : float := ofZ h / 100.

(** [Math.min(a, b)] and [Math.max(a, b)]: NaN when an argument is NaN,
    and the negative zero is below the positive one. *)
Definition Math_min (a b : float) : float :=
  if is_nan a || is_nan b then nan
  else if a <? b then a
  else if b <? a then b
  else if get_sign a then a else b.

Definition Math_max (a b : float) : float :=
  if is_nan a || is_nan b then nan
  else if a <? b then b
  else if b <? a then a
  else if get_sign a then b else a.

(** *** Slides *)

(** A length handed to the renderer: a Number of inches, or a percentage
    of the slide. *)
Inductive Len := Inches (v : float) | Pct (percent : Z).

(** A length written in the source as a decimal literal, given by its
    hundredths: [Inch 90] is the literal [0.9]. *)
Definition Inch (hundredths : Z) : Len := Inches (ofHundredths hundredths).

(** What a slide receives.  The styling options (fonts, colours, inline
    bold and code runs) do not take part in the flow and are left out; the
    payload is kept as the parser produced it. *)
Inductive SlideObject :=
| Shape (y h : Len)
| TextBox (y h : Len) (body : str)
| BulletBox (y h : Len) (bullets : list Bullet)
| TableBox (y : Len) (rowH : list Len) (tableRowsOf : list TableRow)
| Image.

Inductive Master := TITLE_SLIDE | CONTENT_SLIDE | DIVIDER_SLIDE.

Record PptSlide := mkPptSlide {
  masterName : Master;
  objects : list SlideObject
}.

(** One element placed by the loop: where, and the height the loop
    computes for it ([estimatedHeight], [textHeight], [codeHeight],
    [tableHeight]).  The height of a table only moves [yPos]; it is not
    handed to the renderer, see [draw]. *)
Record Placement := mkPlacement {
  element : Element;
  y : float;
  height : float
}.

Definition TOP : float := 0.9.    (* let yPos = 0.9 *)
Definition maxY : float := 5.0.   (* const maxY = 5.0 *)

(** [element.code.split('\n').length] *)
Definition lineCount (s : str) : float := ofLength (lines s).

(** The height the loop computes for an element reached at [yPos]. *)
Definition heightAt (yPos : float) (e : Element) : float :=
  match e with
  | BulletsEl c => Math_min (ofLength (parseBullets c) * 0.4) (maxY - yPos)
  | TextEl _ => Math_min 1.2 (maxY - yPos)
  | CodeEl _ c => Math_min (Math_max (lineCount c * 0.28) 1.2) (maxY - yPos - 0.3)
  | TableEl rs => Math_min (ofLength rs * 0.4) (maxY - yPos - 0.1)
  end.

(** The gap added below an element. *)
Definition gapOf (e : Element) : float :=
  match e with
  | BulletsEl _ => 0.15
  | TextEl _ => 0.1
  | CodeEl _ _ => 0.25
  | TableEl _ => 0.2
  end.

(** A bullets element whose lines yield no bullet draws nothing and leaves
    [yPos] where it is. *)
Definition drawn (e : Element) : bool :=
  match e with
  | BulletsEl c => match parseBullets c with [] => false | _ => true end
  | _ => true
  end.

(** [yPos] after the switch statement has handled [e]:
    [yPos += height + gap] adds the sum of height and gap to [yPos]. *)
Definition advance (yPos : float) (e : Element) : float :=
  if drawn e then yPos + (heightAt yPos e + gapOf e) else yPos.

(** The loop: it stops at the first element reached with
    [yPos >= maxY]. *)
Fixpoint flow (yPos : float) (els : list Element) : list Placement :=
  match els with
  | [] => []
  | e :: more =>
      if maxY <=? yPos then []
      else if drawn e
           then mkPlacement e yPos (heightAt yPos e) :: flow (advance yPos e) more
           else flow (advance yPos e) more
  end.

(** [yPos] when the loop is left. *)
Fixpoint cursor (yPos : float) (els : list Element) : float :=
  match els with
  | [] => yPos
  | e :: more => if maxY <=? yPos then yPos else cursor (advance yPos e) more
  end.

(** The calls a placed element makes on the slide.  A code block is a
    rectangle and a text box; a table is given the row height 0.4 for each
    of its rows and no height of its own. *)
Definition draw (p : Placement) : list SlideObject :=
  match element p with
  | BulletsEl c => [BulletBox (Inches (y p)) (Inches (height p)) (parseBullets c)]
  | TextEl c => [TextBox (Inches (y p)) (Inches (height p)) c]
  | CodeEl _ c =>
      [Shape (Inches (y p - 0.05)) (Inches (height p + 0.1));
       TextBox (Inches (y p)) (Inches (height p)) c]
  | TableEl rs =>
      [TableBox (Inches (y p)) (List.map (fun _ => Inches 0.4) rs) rs]
  end.

Local Close Scope float_scope.
Local Open Scope Z_scope.

(** The two header bars and the title, then the elements. *)
Definition addContentSlide (ttl content : str) : PptSlide :=
  mkPptSlide CONTENT_SLIDE
    ([Shape (Inch 0) (Inch 85); Shape (Inch 0) (Inch 85);
      TextBox (Inch 15) (Inch 70) ttl]
     ++ flat_map draw (flow TOP (parseContentElements content))).

(** ** [generatePresentation] *)

(** What the slide builders read from [config.json], and whether the logo
    file exists under the base directory. *)
Record Config := mkConfig {
  institutionName : list str;
  lessonTypes : str -> option str;
  lectureType : str;
  instructorText : str;
  logoExists : bool
}.

Definition orElse (o : option str) (d : str) : str :=
  match o with Some s => s | None => d end.

Definition addTitleSlide (config : Config) (frontmatter : Frontmatter) : PptSlide :=
  let lessonType :=
    orElse (match fmType frontmatter with
            | Some t => lessonTypes config t
            | None => None
            end) (lectureType config) in
  let infoText :=
    lit "Discipline: " ++ orElse (discipline frontmatter) (lit "Course Name")
    ++ [NL; NL] ++ lessonType ++ [NL; NL]
    ++ match module frontmatter with
       | Some m => lit "Module " ++ m ++ [NL]
       | None => []
       end
    ++ lit "Lesson " ++ orElse (lesson frontmatter) (lit "1.1: Lesson Title") in
  mkPptSlide TITLE_SLIDE
    ([TextBox (Inch 67) (Inch 120) (unlines (institutionName config));
      TextBox (Inch 185) (Inch 220) infoText;
      TextBox (Inch 420) (Inch 80) (instructorText config)]
     ++ if logoExists config then [Image] else []).

(** The title a plan slide takes when its own is empty. *)
Definition planTitle : str :=
  [1055; 1083; 1072; 1085; 32; 1079; 1072; 1085; 1103; 1090; 1090; 1103]%N.

Definition addPlanSlide (ttl content : str) : PptSlide :=
  mkPptSlide CONTENT_SLIDE
    [TextBox (Inch 20) (Inch 60) (if truthy ttl then ttl else planTitle);
     BulletBox (Inch 90) (Inch 400) (parseBullets content)].

Definition addDividerSlide (ttl : str) : PptSlide :=
  mkPptSlide DIVIDER_SLIDE
    [Shape (Inch 0) (Pct 100); TextBox (Inch 200) (Inch 100) ttl].

Definition addClosingSlide (config : Config) : PptSlide :=
  mkPptSlide TITLE_SLIDE
    ([TextBox (Inch 220) (Inch 60) (lit "Thank you for your attention");
      TextBox (Inch 435) (Inch 80)
        (hd [] (institutionName config) ++ [NL]
         ++ join (lit " ") (tl (institutionName config)))]
     ++ if logoExists config then [Image; Image] else []).

(** The switch on [slide.type]: plan and divider have builders of their
    own, every other type is a content slide. *)
Definition addSlideFor (slide : Slide) : PptSlide :=
  if str_eqb (type slide) (lit "plan") then addPlanSlide (title slide) (content slide)
  else if str_eqb (type slide) (lit "divider") then addDividerSlide (title slide)
  else addContentSlide (title slide) (content slide).

(** The slides of the presentation that is written out, in the order of
    the [addSlide] calls.  Writing the package and post-processing it are
    the next two steps; see [fixForGoogleSlides]. *)
Definition generatePresentation (matter : str -> Frontmatter * str)
           (config : Config) (markdown : str) : list PptSlide :=
  let '(frontmatter, slides) := parseMarkdown matter markdown in
  addTitleSlide config frontmatter
  :: List.map addSlideFor slides
  ++ [addClosingSlide config].

(** ** ArchivePostProcessor: [fixForGoogleSlides] *)

Definition bytes := list N.

Record Entry := mkEntry {
  entryName : str;
  isDirectory : bool;
  getData : bytes
}.

Definition SLASH : char := 47%N.
Definition DOT : char := 46%N.

(** [path.basename]: trailing slashes dropped, then the last segment. *)
Definition basename (p : str) : str :=
  last (splitOn SLASH (rev (dropWhile (N.eqb SLASH) (rev p)))) [].

(** [path.extname] of a name without slashes: from the last dot on, unless
    there is no dot, the only dot leads the name, or the name is two
    dots. *)
Definition extname (name : str) : str :=
  match rev (splitOn DOT name) with
  | ext :: (_ :: _) as before =>
      let stem := join [DOT] (rev before) in
      match stem, ext with
      | [], _ => []
      | [c], [] => if (c =? DOT)%N then [] else [DOT]
      | _, _ => DOT :: ext
      end
  | _ => []
  end.

(** A [Map] from strings to strings, in insertion order. *)
Definition RenameMap := list (str * str).

Fixpoint mapSet (k v : str) (m : RenameMap) : RenameMap :=
  match m with
  | [] => [(k, v)]
  | (k', v') :: m' =>
      if str_eqb k' k then (k', v) :: m' else (k', v') :: mapSet k v m'
  end.

Fixpoint mapGet (k : str) (m : RenameMap) : option str :=
  match m with
  | [] => None
  | (k', v') :: m' => if str_eqb k' k then Some v' else mapGet k m'
  end.

Definition mediaDir : str := lit "ppt/media/".

Definition isMedia (e : Entry) : bool :=
  startsWith mediaDir (entryName e) && negb (isDirectory e).

Definition assignedName (imageCounter : nat) (oldName : str) : str :=
  lit "image" ++ ofNat imageCounter ++ extname oldName.

(** The first loop over the entries: the renames and the counter. *)
Fixpoint collectRenames (entries : list Entry) (imageCounter : nat)
         (imageRenames : RenameMap) : RenameMap :=
  match entries with
  | [] => imageRenames
  | entry :: more =>
      if isMedia entry then
        let oldName := basename (entryName entry) in
        let newName := assignedName imageCounter oldName in
        collectRenames more (S imageCounter)
          (if str_eqb oldName newName then imageRenames
           else mapSet oldName newName imageRenames)
      else collectRenames more imageCounter imageRenames
  end.

(** [text.split(sep)] for a string separator; [skip] counts the
    characters of a separator still to pass over. *)
Fixpoint splitStrGo (sep : str) (skip : nat) (cur s : str) : list str :=
  match s with
  | [] => [rev cur]
  | c :: s' =>
      match skip with
      | S k => splitStrGo sep k cur s'
      | O =>
          if startsWith sep s
          then rev cur :: splitStrGo sep (length sep - 1) [] s'
          else splitStrGo sep 0 (c :: cur) s'
      end
  end.

Definition splitStr (sep s : str) : list str :=
  match sep with
  | [] => List.map (fun c => [c]) s
  | _ => splitStrGo sep 0 [] s
  end.

(** [text.split(oldName).join(newName)] *)
Definition replaceAll (oldName newName text : str) : str :=
  join newName (splitStr oldName text).

Definition rewriteText (imageRenames : RenameMap) (text : str) : str :=
  fold_left (fun t kv => replaceAll (fst kv) (snd kv) t) imageRenames text.

Section Archive.

(** The UTF-8 codec of [Buffer]: [content.toString('utf8')] and
    [Buffer.from(text, 'utf8')]. *)
Variable decode : bytes -> str.
Variable encode : str -> bytes.

(** The second loop: one [addFile] call per entry. *)
Definition rebuildEntry (imageRenames : RenameMap) (entry : Entry)
  : str * bytes :=
  let entryName0 := entryName entry in
  let entryName1 :=
    if startsWith mediaDir entryName0 then
      match mapGet (basename entryName0) imageRenames with
      | Some newName => if truthy newName then mediaDir ++ newName else entryName0
      | None => entryName0
      end
    else entryName0 in
  let content :=
    if endsWith (lit ".xml") entryName1 || endsWith (lit ".rels") entryName1
    then encode (rewriteText imageRenames (decode (getData entry)))
    else getData entry in
  (entryName1, content).

(** What ends up at [outputPath]: a copy of the input file, or the archive
    built from the listed [addFile] calls. *)
Inductive Output :=
| Copied (file : bytes)
| Zipped (files : list (str * bytes)).

(** [file] is the content of [pptxPath] and [entries] what the archive
    library reads from it. *)
Definition fixForGoogleSlides (file : bytes) (entries : list Entry) : Output :=
  let imageRenames := collectRenames entries 1 [] in
  match imageRenames with
  | [] => Copied file
  | _ => Zipped (List.map (rebuildEntry imageRenames) entries)
  end.

End Archive.

(** ** The vocabulary of the properties *)

Local Close Scope Z_scope.

(** *** Slide headers *)

Definition marker : str := lit "## ".

(** The lines of a text, each with the LineTerminator that ends it; the
    last line is what follows the last terminator and may be empty. *)
Fixpoint linesT (s : str) : list str :=
  match s with
  | [] => [[]]
  | c :: s' =>
      if isLineTerminator c then [c] :: linesT s'
      else match linesT s' with
           | l :: more => (c :: l) :: more
           | [] => [[c]]
           end
  end.

(** A slide header: a line that begins with the marker. *)
Definition isHeaderLine (l : str) : bool := startsWith marker l.

Definition headerLines (body : str) : list str :=
  filter isHeaderLine (linesT body).

(** The chunks the headers delimit: the text before the first header,
    then, for each header, the text from just after its marker up to the
    next header. *)
Fixpoint chunksFrom (cur : str) (ls : list str) : list str :=
  match ls with
  | [] => [cur]
  | l :: more =>
      if isHeaderLine l then cur :: chunksFrom (skipn 3 l) more
      else chunksFrom (cur ++ l) more
  end.

Definition chunks (body : str) : list str := chunksFrom [] (linesT body).

Definition blank (s : str) : bool := negb (nonBlank s).

(** The slide types the input contract lists. *)
Definition knownTypes : list str :=
  List.map lit
    ["title"; "bullet"; "plan"; "divider"; "content"; "image"; "code";
     "quote"; "chart"]%string.

(** *** Tables *)

Definition hasCells (cs : list str) : bool :=
  match cs with [] => false | _ => true end.

(** A table line gives a row when it is no separator and has a cell. *)
Definition yieldsRow (l : str) : bool :=
  negb (isSeparator l) && hasCells (cellsOf l).

(** The lines of a block before its first row. *)
Definition beforeFirstRow (tableLines : list str) : list str :=
  takeWhile (fun l => negb (yieldsRow l)) tableLines.

(** A block of the table loop: two or more contiguous lines of [ls], each
    starting with a pipe once trimmed, the first also ending with one. *)
Definition isBlockOf (ls tableLines : list str) : Prop :=
  (exists a b, ls = a ++ tableLines ++ b)
  /\ 2 <= length tableLines
  /\ forallb startsPipe tableLines = true
  /\ (exists l more, tableLines = l :: more /\ isPipeLine l = true).

(** *** Elements of a parse *)

(** Where the code and table elements of a result come from: the two
    arrays of the parse. *)
Definition fromArrays (cbs : list CodeBlock) (tbls : list TableBlock)
           (e : Element) : Prop :=
  match e with
  | TextEl _ | BulletsEl _ => True
  | CodeEl l c => exists cb, In cb cbs /\ language cb = l /\ code cb = c
  | TableEl rs => exists t, In t tbls /\ rows t = rs
  end.

Definition isCodeEl (e : Element) : bool :=
  match e with CodeEl _ _ => true | _ => false end.

Definition codeElements (els : list Element) : list Element :=
  filter isCodeEl els.

(** The code element the walk emits for one line, if any. *)
Definition codeOf (cbs : list CodeBlock) (line : str) : list Element :=
  if codeMatch line then
    match find (fun cb => str_eqb (placeholder cb) (trim line)) cbs with
    | Some cb => [CodeEl (language cb) (code cb)]
    | None => []
    end
  else [].

(** The line [l] has been written out by the walk: a text element of the
    state holds its trimmed text.  [held] also accepts that the line
    waits in the open text block. *)
Definition emitted (l : str) (w : Walk) : Prop :=
  exists c, In (TextEl c) (elements w) /\ includes (trim l) c = true.

Definition held (l : str) (w : Walk) : Prop :=
  In l (currentTextBlock w) \/ emitted l w.

(** *** Fenced blocks *)

Definition BACKTICK : char := 96%N.

(** A fenced block as it is written: the opening fence, the language tag,
    a line feed, the text inside, the closing fence. *)
Definition fenced (l inner : str) : str :=
  fence ++ l ++ [NL] ++ inner ++ fence.

(** The text inside a block runs up to the closing fence: no three
    backticks in a row begin inside it, the backticks of the closing
    fence counted in. *)
Definition closesAtEnd (inner : str) : bool :=
  negb (includes fence (inner ++ [BACKTICK; BACKTICK])).

Definition noNL (l : str) : bool := negb (existsb (N.eqb NL) l).

(** A line of the text around the blocks: free of fences, of code
    tokens and of line feeds. *)
Definition proseLine (l : str) : bool :=
  negb (includes fence l) && negb (codeMatch l) && noNL l.

(** Lines written one after the other, each closed by a line feed, or
    each opened by one. *)
Definition pfx (ls : list str) : str :=
  concat (List.map (fun l => l ++ [NL]) ls).

Definition sfx (ls : list str) : str :=
  concat (List.map (fun l => NL :: l) ls).

(** *** Media names *)

Definition mediaNames (entries : list Entry) : list str :=
  List.map (fun e => basename (entryName e)) (filter isMedia entries).

(** The media entries already carry their sequential names: the [i]-th
    media entry, counted from 1 in enumeration order, is named as
    [assignedName] names it. *)
Definition alreadyNamed (entries : list Entry) : Prop :=
  forall i name,
    nth_error (mediaNames entries) i = Some name ->
    name = assignedName (S i) name.

(** ** Sample inputs *)

(** A document without frontmatter: the frontmatter parser returns no data
    and the document as its body. *)
Definition noFrontmatter (s : str) : Frontmatter * str :=
  (mkFrontmatter None None None None, s).

Definition sampleConfig : Config :=
  mkConfig [lit "Institute"; lit "of"; lit "Examples"] (fun _ => None)
           (lit "Lecture") (lit "Lecturer") false.

(** One header after a line of text. *)
Definition preambleDoc : str :=
  lit "Intro text" ++ [NL] ++ lit "## First".

(** A header with a tag outside the known types. *)
Definition unknownTagDoc : str := lit "## [foo] X".

(** The two-slide document of the end-to-end property. *)
Definition factsBody : str := lit "- one" ++ [NL] ++ lit "- two".

Definition twoSlideDoc : str :=
  lit "## [divider] Intro" ++ [NL] ++ lit "## [content] Facts" ++ [NL]
  ++ factsBody.

(** A table block without a separator row. *)
Definition plainTable : str := lit "| a | b |" ++ [NL] ++ lit "| c | d |".



(** A pipe-delimited line between two lines of prose. *)
Definition lonePipeBody : str :=
  lit "before" ++ [NL] ++ lit "| a |" ++ [NL] ++ lit "after".

(** An archive whose media directory holds the same base name twice. *)
Definition duplicateArchive : list Entry :=
  [mkEntry (lit "ppt/media/a/photo.png") false [];
   mkEntry (lit "ppt/media/logo.png") false [];
   mkEntry (lit "ppt/media/b/photo.png") false [];
   mkEntry (lit "ppt/slides/slide1.xml") false (lit "photo.png logo.png")].

(** An archive whose media entries are named in sequence already. *)
Definition namedArchive : list Entry :=
  [mkEntry (lit "ppt/media/image1.png") false [];
   mkEntry (lit "ppt/slides/slide1.xml") false (lit "image1.png image2.jpeg");
   mkEntry (lit "ppt/media/image2.jpeg") false []].

(** Five paragraphs on one slide. *)
Definition fiveTexts : list Element :=
  [TextEl (lit "one"); TextEl (lit "two"); TextEl (lit "three");
   TextEl (lit "four"); TextEl (lit "five")].



(** Three code blocks on one slide, the first of fourteen lines. *)
Definition threeCodeBlocks : list Element :=
  [CodeEl (lit "js") (unlines (repeat (lit "x") 14));
   CodeEl (lit "js") (lit "y");
   CodeEl (lit "js") (lit "z")].

(** A block of three bullets, five blocks of one bullet, and a
    paragraph. *)
Definition bulletBlocksAndText : list Element :=
  [BulletsEl (unlines [lit "- a"; lit "- b"; lit "- c"]);
   BulletsEl (lit "- d"); BulletsEl (lit "- e"); BulletsEl (lit "- f");
   BulletsEl (lit "- g"); BulletsEl (lit "- h");
   TextEl (lit "last")].

(** Two fenced blocks, the first opened on a line of prose. *)
Definition inlineFenceBody : str :=
  lit "Run: ```" ++ [NL] ++ lit "ls" ++ [NL] ++ lit "```" ++ [NL]
  ++ lit "```js" ++ [NL] ++ lit "x" ++ [NL] ++ lit "```".

(** Two fenced blocks on lines of their own, with prose around them. *)
Definition twoFenceBody : str :=
  unlines [lit "Intro"; fenced [] (lit "  ls -l " ++ [NL]); lit "then";
           fenced (lit "js") (lit "let x = `a`;" ++ [NL]); lit "done"].

(** A fence that is never closed. *)
Definition openFenceBody : str :=
  lit "Intro" ++ [NL] ++ lit "```js" ++ [NL] ++ lit "let x = 1;".

(** * Further parts of the code *)

(** ** InlineFormatter: the bold and code spans of [addContentSlide] *)

Inductive Style := Plain | Bold | Mono.

(** One part of a line: [{ text, options }], the options being none, bold,
    or the code font. *)
Record Part := mkPart {
  ptext : str;
  pstyle : Style
}.

(** The lazy [.+?] before a closing delimiter: one character that is no
    LineTerminator, then as few more as it takes for [close] to follow.
    The result is the captured text and what follows the delimiter. *)
Fixpoint lazyUntil (close r : str) : option (str * str) :=
  match r with
  | [] => None
  | c :: r' =>
      if isDot c then
        if startsWith close r' then Some ([c], skipn (length close) r')
        else match lazyUntil close r' with
             | Some (b, a) => Some (c :: b, a)
             | None => None
             end
      else None
  end.

(** One match of the span pattern at the start of [s]: two asterisks, a
    lazy text, two asterisks; or else a backtick, a lazy text, a backtick.
    Table cells use the pattern without its first alternative. *)
Definition spanHere (withBold : bool) (s : str) : option (Style * str * str) :=
  if withBold && startsWith (lit "**") s then
    match lazyUntil (lit "**") (skipn 2 s) with
    | Some (b, a) => Some (Bold, b, a)
    | None => None
    end
  else if startsWith [BACKTICK] s then
    match lazyUntil [BACKTICK] (skipn 1 s) with
    | Some (b, a) => Some (Mono, b, a)
    | None => None
    end
  else None.

(** [text.substring(currentPos, match.index)], pushed when it is not
    empty; [acc] holds it reversed. *)
Definition plainPart (acc : str) : list Part :=
  match acc with
  | [] => []
  | _ => [mkPart (rev acc) Plain]
  end.

(** The loop over the matches of the global pattern, and the rest of the
    text after the last match. *)
Fixpoint inlineScan (fuel : nat) (withBold : bool) (acc s : str) : list Part :=
  match fuel with
  | O => plainPart (rev s ++ acc)
  | S f =>
      match spanHere withBold s with
      | Some (st, b, a) => plainPart acc ++ mkPart b st :: inlineScan f withBold [] a
      | None =>
          match s with
          | [] => plainPart acc
          | c :: s' => inlineScan f withBold (c :: acc) s'
          end
      end
  end.

Definition inlineParts (withBold : bool) (s : str) : list Part :=
  inlineScan (S (length s)) withBold [] s.

(** [text.includes('**') || text.includes('`')] *)
Definition hasInline (t : str) : bool :=
  includes (lit "**") t || includes [BACKTICK] t.

(** The text of a bullet row or of a table cell: a string, or an array of
    parts. *)
Inductive RowText :=
| Whole (t : str)
| Parts (ps : list Part).

Definition bulletRowOf (b : Bullet) : RowText :=
  if hasInline (text b) then Parts (inlineParts true (text b))
  else Whole (text b).

Definition cellTextOf (cell : str) : RowText :=
  if includes [BACKTICK] cell then Parts (inlineParts false cell)
  else Whole cell.

(** A run of [formattedBullets]: its text and style, and the indent level
    when it carries the bullet options. *)
Record Run := mkRun {
  rtext : str;
  rstyle : Style;
  bulletLevel : option nat
}.

(** The first part of a row takes the bullet options, the others do
    not. *)
Definition runsOfRow (row : RowText) (lvl : nat) : list Run :=
  match row with
  | Parts [] => []
  | Parts (p :: more) =>
      mkRun (ptext p) (pstyle p) (Some lvl)
      :: List.map (fun q => mkRun (ptext q) (pstyle q) None) more
  | Whole t => [mkRun t Plain (Some lvl)]
  end.

Definition formattedBullets (bullets : list Bullet) : list Run :=
  flat_map (fun b => runsOfRow (bulletRowOf b) (level b)) bullets.

(** [arr.indexOf(x)]: the first index, or -1. *)
Fixpoint indexOf (x : str) (l : list str) : Z :=
  match l with
  | [] => (-1)%Z
  | y :: more =>
      if str_eqb y x then 0%Z
      else let i := indexOf x more in
           if (i <? 0)%Z then (-1)%Z else (i + 1)%Z
  end.

(** The parts of one line of a text element: the line formatted, with a
    line feed when [indexOf] finds the line before the last position. *)
Definition textLineParts (textLines : list str) (line : str) : list Part :=
  let nl := (indexOf line textLines <? Z.of_nat (length textLines) - 1)%Z in
  if hasInline line
  then inlineParts true line ++ (if nl then [mkPart [NL] Plain] else [])
  else [mkPart (line ++ (if nl then [NL] else [])) Plain].

Definition textContentOf (content : str) : list Part :=
  let textLines := lines content in
  flat_map (textLineParts textLines) textLines.

(** ** The tool handler and the temporary file *)

(** A character of a case-insensitive pattern: the lower-case letter
    [l], or its capital. *)
Definition isCI (l c : char) : bool := ((c =? l) || (c =? l - 32))%N.

(** The pattern of the extension at the end of the file name, letters in
    either case. *)
Definition endsWithPptx (s : str) : bool :=
  match rev s with
  | x :: t :: p2 :: p1 :: d :: _ =>
      (d =? DOT)%N && isCI 112%N p1 && isCI 112%N p2 && isCI 116%N t && isCI 120%N x
  | _ => false
  end.

(** [args.filename.replace(pattern, '')] *)
Definition stripPptx (filename : str) : str :=
  if endsWithPptx filename then firstn (length filename - 5) filename
  else filename.

(** The file name the handler joins to the output directory. *)
Definition outputFileName (filename : str) : str :=
  stripPptx filename ++ lit ".pptx".

(** [outputPath.replace('.pptx', '-temp.pptx')] *)
Definition tempPathOf (outputPath : str) : str :=
  replaceFirst (lit ".pptx") (lit "-temp.pptx") outputPath.

(** ** [cleanPDFText] *)

(** [s.replace(pattern, rep)] for a global pattern that matches no empty
    text: [m] gives, for a match at the start of its argument, what
    follows the match. *)
Fixpoint gsub (fuel : nat) (m : str -> option str) (rep s : str) : str :=
  match fuel with
  | O => s
  | S f =>
      match m s with
      | Some rest => rep ++ gsub f m rep rest
      | None =>
          match s with
          | [] => []
          | c :: s' => c :: gsub f m rep s'
          end
      end
  end.

Definition replaceGlobal (m : str -> option str) (rep s : str) : str :=
  gsub (S (length s)) m rep s.

(** [\d+], then what follows. *)
Definition afterDigits (s : str) : option str :=
  if truthy (takeWhile isDigit s) then Some (dropWhile isDigit s) else None.

(** [\s+], then what follows. *)
Definition afterSpaces (s : str) : option str :=
  if truthy (takeWhile isSpace s) then Some (dropWhile isSpace s) else None.

(** The letters [of], in either case. *)
Definition afterOf (s : str) : option str :=
  match s with
  | o :: f :: r => if isCI 111%N o && isCI 102%N f then Some r else None
  | _ => None
  end.

Definition andThen (o : option str) (k : str -> option str) : option str :=
  match o with Some r => k r | None => None end.

(** Two hyphens, a number, [of], a number, two hyphens, with optional
    white space between them. *)
Definition pageDashes (s : str) : option str :=
  if startsWith (lit "--") s then
    andThen (afterDigits (dropWhile isSpace (skipn 2 s))) (fun r =>
    andThen (afterOf (dropWhile isSpace r)) (fun r =>
    andThen (afterDigits (dropWhile isSpace r)) (fun r =>
    let r := dropWhile isSpace r in
    if startsWith (lit "--") r then Some (skipn 2 r) else None)))
  else None.

(** The word [Page] in any case, a number, [of], a number, separated by
    white space. *)
Definition pageOf (s : str) : option str :=
  match s with
  | p :: a :: g :: e :: r =>
      if isCI 112%N p && isCI 97%N a && isCI 103%N g && isCI 101%N e then
        andThen (afterSpaces r) (fun r =>
        andThen (afterDigits r) (fun r =>
        andThen (afterSpaces r) (fun r =>
        andThen (afterOf r) (fun r =>
        andThen (afterSpaces r) afterDigits))))
      else None
  | _ => None
  end.

Definition isUpper (c : char) : bool := ((65 <=? c) && (c <=? 90))%N.

(** The test of a line for a capital at a word boundary, white space, and
    a capital; [prevWord] tells whether the character before is a word
    character. *)
Fixpoint spacedCaps (prevWord : bool) (s : str) : bool :=
  match s with
  | [] => false
  | c :: r =>
      (negb prevWord && isUpper c && truthy (takeWhile isSpace r)
       && match dropWhile isSpace r with
          | d :: _ => isUpper d
          | [] => false
          end)
      || spacedCaps (isWord c) r
  end.

(** A line feed, white space, and one or more line feeds: the white space
    is taken greedily and given back up to the last line feed of the
    run. *)
Definition blankRun (s : str) : option str :=
  match s with
  | c :: r =>
      if (c =? NL)%N then
        let w := takeWhile isSpace r in
        if existsb (N.eqb NL) w
        then Some (rev (takeWhile (fun x => negb (x =? NL)%N) (rev w))
                   ++ dropWhile isSpace r)
        else None
      else None
  | [] => None
  end.

Definition cleanPDFText (text : str) : str :=
  let t1 := replaceGlobal pageDashes [] text in
  let t2 := replaceGlobal pageOf [] t1 in
  let ls := filter nonBlank (lines t2) in
  let ls' :=
    List.map (fun line => if spacedCaps false line
                          then replaceGlobal afterSpaces [] line
                          else line) ls in
  let t3 := unlines ls' in
  let t4 := replaceGlobal afterSpaces (lit " ") t3 in
  let t5 := replaceGlobal blankRun [NL; NL] t4 in
  trim t5.

(** A text in which the only white space is the single space between two
    other characters. *)
Fixpoint singleSpaced (s : str) : bool :=
  match s with
  | [] => true
  | c :: r =>
      (if isSpace c
       then (c =? 32)%N && match r with d :: _ => negb (isSpace d) | [] => true end
       else true)
      && singleSpaced r
  end.

(** ** The vocabulary of the further properties *)

(** A part written back as markdown: its text between its markers. *)
Definition delimOf (st : Style) : str :=
  match st with
  | Plain => []
  | Bold => lit "**"
  | Mono => [BACKTICK]
  end.

Definition renderPart (p : Part) : str :=
  delimOf (pstyle p) ++ ptext p ++ delimOf (pstyle p).

Definition renderParts (ps : list Part) : str :=
  concat (List.map renderPart ps).

Definition renderRow (row : RowText) : str :=
  match row with
  | Whole t => t
  | Parts ps => renderParts ps
  end.

(** What a part may be: its text is not empty, a styled part holds no
    LineTerminator, and bold parts arise only from the pattern with its
    bold alternative. *)
Definition partOk (withBold : bool) (p : Part) : Prop :=
  ptext p <> []
  /\ (pstyle p <> Plain -> forallb isDot (ptext p) = true)
  /\ (pstyle p = Bold -> withBold = true).

Definition hasBullet (r : Run) : bool :=
  match bulletLevel r with Some _ => true | None => false end.

(** The last line of a text is also an earlier line of it. *)
Definition lastLineRepeats (content : str) : bool :=
  existsb (str_eqb (last (lines content) [])) (removelast (lines content)).

(** A bullet as [parseBullets] reads it off a line: the indent, a mark,
    white space, the text. *)
Definition bulletOf (line : str) (b : Bullet) : Prop :=
  exists indent mark sep,
    line = indent ++ mark :: sep ++ text b
    /\ forallb isSpace indent = true
    /\ isBulletMark mark = true
    /\ sep <> [] /\ forallb isSpace sep = true
    /\ text b <> [] /\ forallb isDot (text b) = true
    /\ level b = Nat.div (length indent) 2.

(** The shape of the text and bullets elements of a parse. *)
Definition proseShape (e : Element) : Prop :=
  match e with
  | TextEl c => c <> [] /\ trim c = c
  | BulletsEl c =>
      exists ls, ls <> [] /\ c = unlines ls /\ forallb isBulletLine ls = true
  | _ => True
  end.

(** The shape of a code block. *)
Definition codeShape (lang code : str) : Prop :=
  lang <> [] /\ forallb isWord lang = true
  /\ trim code = code /\ includes fence code = false.

(** The shape of the rows of a table. *)
Definition rowShape (r : TableRow) : Prop :=
  cells r <> []
  /\ Forall (fun c => trim c = c /\ existsb (N.eqb PIPE) c = false) (cells r).

(** What the walk keeps true of its state. *)
Definition walkOk (w : Walk) : Prop :=
  Forall proseShape (elements w)
  /\ forallb isBulletLine (currentBulletBlock w) = true
  /\ forallb nonBlank (currentTextBlock w) = true.

(** What step 2 keeps true of the tables found so far and of the lines
    written so far. *)
Definition tableOk (t : TableBlock) : Prop :=
  rows t <> [] /\ Forall rowShape (rows t).

Definition tablesOk (tables : list TableBlock) (newLines : list str) : Prop :=
  List.map tplaceholder tables
  = List.map tablePlaceholder (seq 0 (length tables))
  /\ Forall tableOk tables
  /\ (forall t, In t tables -> In (tplaceholder t) newLines).

(** An archive whose two media entries carry each other's sequential
    name, and a relationship part that refers to the first of them. *)
Definition swappedArchive : list Entry :=
  [mkEntry (lit "ppt/media/image2.png") false [2%N];
   mkEntry (lit "ppt/media/image1.png") false [1%N];
   mkEntry (lit "ppt/slides/_rels/slide1.xml.rels") false (lit "image2.png")].

(** An archive with media entries of distinct base names, one of them in a
    folder of its own. *)
Definition mixedArchive : list Entry :=
  [mkEntry (lit "ppt/media/a.png") false [];
   mkEntry (lit "ppt/media/sub/b.jpeg") false [];
   mkEntry (lit "ppt/slides/slide1.xml") false (lit "a.png")].

(** The shape of a slide of [parseMarkdown]. *)
Definition slideShape (s : Slide) : Prop :=
  type s <> []
  /\ forallb isWord (type s) = true
  /\ toLowerCase (type s) = type s
  /\ noNL (title s) = true
  /\ trimStart (title s) = title s
  /\ trim (content s) = content s.

(** A bullet written as a line: two spaces for each level, a hyphen, a
    space and the text. *)
Definition bulletLine (b : Bullet) : str :=
  repeat 32%N (2 * level b) ++ lit "- " ++ text b.

(** A bullet whose text is one line, not empty and without white space in
    front. *)
Definition plainBullet (b : Bullet) : Prop :=
  text b <> [] /\ forallb isDot (text b) = true /\ trimStart (text b) = text b.

(** The bullet line [l] has been written out by the walk, in a bullets
    element made of the lines [ls]; or it is still in the block of bullet
    lines being collected. *)
Definition emittedBullet (l : str) (w : Walk) : Prop :=
  exists ls, In (BulletsEl (unlines ls)) (elements w) /\ In l ls.

Definition heldBullet (l : str) (w : Walk) : Prop :=
  In l (currentBulletBlock w) \/ emittedBullet l w.




(** * Properties *)

Unset Implicit Arguments.
#[local] Arguments N.eqb : simpl never.
#[local] Arguments N.leb : simpl never.

(** ** Strings *)

Lemma str_eqb_eq a b : str_eqb a b = true <-> a = b.
Proof.
  unfold str_eqb. destruct (list_eq_dec N.eq_dec a b); split; congruence.
Qed.

Lemma str_eqb_refl a : str_eqb a a = true.
Proof. now apply str_eqb_eq. Qed.

Lemma str_eqb_neq a b : str_eqb a b = false <-> a <> b.
Proof.
  unfold str_eqb. destruct (list_eq_dec N.eq_dec a b); split; congruence.
Qed.

Lemma startsWith_cons a p b s :
  startsWith (a :: p) (b :: s) = (a =? b)%N && startsWith p s.
Proof. reflexivity. Qed.

Lemma startsWith_inv p : forall s, startsWith p s = true -> exists r, s = p ++ r.
Proof.
  induction p as [|a p IH]; intros s H; [now exists s|].
  destruct s as [|b s]; [discriminate|].
  rewrite startsWith_cons in H. apply andb_true_iff in H as [Hab H].
  apply N.eqb_eq in Hab; subst b.
  destruct (IH _ H) as [r ->]. now exists r.
Qed.

Lemma startsWith_app p r : startsWith p (p ++ r) = true.
Proof.
  induction p as [|a p IH]; [reflexivity|].
  simpl app. now rewrite startsWith_cons, N.eqb_refl.
Qed.

(** ** SlideSplitter *)

Lemma splitSections_eq bol cur s :
  splitSections bol cur s =
  match s with
  | [] => [rev cur]
  | c :: s1 =>
      if bol && startsWith marker s
      then rev cur :: splitSections false [] (skipn 3 s)
      else splitSections (isLineTerminator c) (c :: cur) s1
  end.
Proof.
  destruct s as [|c [|c2 [|c3 rest]]]; simpl; try reflexivity.
  - now rewrite !andb_false_r.
  - now rewrite !andb_false_r.
  - rewrite andb_true_r, (N.eqb_sym c), (N.eqb_sym c2), (N.eqb_sym c3).
    now rewrite !andb_assoc.
Qed.

Lemma linesT_cons s : exists l more, linesT s = l :: more.
Proof.
  destruct s as [|c s]; simpl; [now eauto|].
  destruct (isLineTerminator c); [now eauto|].
  destruct (linesT s); eauto.
Qed.

Lemma linesT_step c s l more :
  linesT s = l :: more ->
  linesT (c :: s) =
  if isLineTerminator c then [c] :: l :: more else (c :: l) :: more.
Proof. intros H; simpl; now rewrite H. Qed.

(** A pattern free of LineTerminators matches at the start of a text iff
    it matches at the start of its first line. *)
Lemma startsWith_first_line p :
  forallb isDot p = true ->
  forall s l more, linesT s = l :: more -> startsWith p l = startsWith p s.
Proof.
  induction p as [|a p IH]; intros Hp s l more Hl; [reflexivity|].
  simpl in Hp; apply andb_true_iff in Hp as [Ha Hp].
  destruct s as [|c s].
  - simpl in Hl; injection Hl as <- _; reflexivity.
  - destruct (linesT_cons s) as (l' & more' & Hs).
    rewrite (linesT_step c s _ _ Hs) in Hl.
    destruct (isLineTerminator c) eqn:Hc.
    + injection Hl as <- _; simpl.
      assert (N.eqb a c = false) as ->.
      { apply N.eqb_neq; intros ->. unfold isDot in Ha. now rewrite Hc in Ha. }
      reflexivity.
    + injection Hl as <- _; simpl. now rewrite (IH Hp s l' more' Hs).
Qed.

Lemma marker_dot : forallb isDot marker = true.
Proof. reflexivity. Qed.

Lemma isHeaderLine_skip c1 c2 c3 l :
  isHeaderLine (c1 :: c2 :: c3 :: l) = true ->
  isLineTerminator c1 = false /\ isLineTerminator c2 = false
  /\ isLineTerminator c3 = false.
Proof.
  intros H; apply startsWith_inv in H as [r H].
  injection H as -> -> -> _. now vm_compute.
Qed.

(** The scan of the source and the chunks of the specification agree; at a
    position inside a line the first line of the remaining text continues
    the current chunk. *)
Lemma splitSections_chunksFrom n :
  forall s bol cur, length s <= n ->
  splitSections bol cur s =
  if bol then chunksFrom (rev cur) (linesT s)
  else match linesT s with
       | l :: more => chunksFrom (rev cur ++ l) more
       | [] => [rev cur]
       end.
Proof.
  induction n as [|n IH]; intros s bol cur Hn.
  - destruct s; [|simpl in Hn; lia].
    destruct bol; simpl; now rewrite ?app_nil_r.
  - rewrite splitSections_eq.
    destruct s as [|c s1].
    { destruct bol; simpl; now rewrite ?app_nil_r. }
    simpl in Hn.
    destruct (linesT_cons s1) as (l & more & Hs1).
    assert (Hfirst : forall l0 more0, linesT (c :: s1) = l0 :: more0 ->
                     isHeaderLine l0 = startsWith marker (c :: s1)).
    { intros l0 more0 H0. unfold isHeaderLine.
      apply (startsWith_first_line marker marker_dot _ _ _ H0). }
    destruct (bol && startsWith marker (c :: s1)) eqn:Hm.
    + apply andb_true_iff in Hm as [-> Hm].
      destruct (startsWith_inv _ _ Hm) as [rest Hrest].
      change (marker ++ rest) with (35 :: 35 :: 32 :: rest)%N in Hrest.
      destruct s1 as [|c2 [|c3 rest']]; try discriminate Hrest.
      assert (rest' = rest) as -> by congruence.
      destruct (isHeaderLine_skip c c2 c3 rest Hm) as (H1 & H2 & H3).
      destruct (linesT_cons rest) as (l3 & more3 & Hr).
      assert (Hl : linesT (c :: c2 :: c3 :: rest) = (c :: c2 :: c3 :: l3) :: more3).
      { rewrite (linesT_step c (c2 :: c3 :: rest) (c2 :: c3 :: l3) more3), H1; [reflexivity|].
        rewrite (linesT_step c2 (c3 :: rest) (c3 :: l3) more3), H2; [reflexivity|].
        rewrite (linesT_step c3 rest _ _ Hr), H3; reflexivity. }
      rewrite Hl. simpl chunksFrom. rewrite (Hfirst _ _ Hl), Hm.
      f_equal. simpl skipn.
      rewrite (IH rest false []) by (simpl in Hn; lia).
      now rewrite Hr.
    + rewrite (IH s1 (isLineTerminator c) (c :: cur)) by lia.
      rewrite (linesT_step c s1 _ _ Hs1). rewrite Hs1.
      destruct (isLineTerminator c) eqn:Hc.
      * assert (Hh : isHeaderLine [c] = false).
        { unfold isHeaderLine; simpl. now rewrite andb_false_r. }
        destruct bol; simpl chunksFrom; rewrite ?Hh; simpl rev; reflexivity.
      * destruct bol.
        -- simpl chunksFrom.
           rewrite (Hfirst (c :: l) more) by (rewrite (linesT_step c s1 _ _ Hs1), Hc; reflexivity).
           rewrite andb_true_l in Hm. rewrite Hm. simpl rev. now rewrite <- app_assoc.
        -- simpl rev. now rewrite <- app_assoc.
Qed.

Lemma splitSections_chunks body : splitSections true [] body = chunks body.
Proof. apply (splitSections_chunksFrom (length body)); lia. Qed.

Lemma chunksFrom_length ls :
  forall cur, length (chunksFrom cur ls) = S (length (filter isHeaderLine ls)).
Proof.
  induction ls as [|l ls IH]; intros cur; simpl; [reflexivity|].
  destruct (isHeaderLine l); simpl; now rewrite IH.
Qed.

Lemma chunks_length body : length (chunks body) = S (length (headerLines body)).
Proof. apply chunksFrom_length. Qed.

(** The chunks are a partition of the body at its header markers. *)
Lemma chunksFrom_concat ls :
  forall cur,
    match chunksFrom cur ls with
    | pre :: secs => pre ++ concat (List.map (app marker) secs) = cur ++ concat ls
    | [] => False
    end.
Proof.
  induction ls as [|l ls IH]; intros cur; cbn [chunksFrom].
  - cbn. reflexivity.
  - destruct (isHeaderLine l) eqn:Hl.
    + apply startsWith_inv in Hl as [r ->].
      change (skipn 3 (marker ++ r)) with r.
      specialize (IH r).
      destruct (chunksFrom r ls) as [|p secs]; [contradiction|].
      cbn [map concat]. now rewrite <- !app_assoc, IH.
    + specialize (IH (cur ++ l)).
      destruct (chunksFrom (cur ++ l) ls); [contradiction|].
      cbn [concat]. now rewrite IH, <- app_assoc.
Qed.

Lemma linesT_concat s : concat (linesT s) = s.
Proof.
  induction s as [|c s IH]; [reflexivity|].
  destruct (linesT_cons s) as (l & more & Hs).
  rewrite (linesT_step c s _ _ Hs). rewrite Hs in IH.
  destruct (isLineTerminator c); simpl in *; now rewrite IH.
Qed.

Lemma slidesOf_chunks body :
  slidesOf body = List.map parseSection (filter nonBlank (chunks body)).
Proof. unfold slidesOf, sections. now rewrite splitSections_chunks. Qed.

Lemma filter_all (A : Type) (p : A -> bool) l :
  forallb p l = true -> filter p l = l.
Proof.
  induction l as [|x l IH]; simpl; [reflexivity|].
  intros H; apply andb_true_iff in H as [-> H]. now rewrite IH.
Qed.

(** C1, as the code has it: the headers cut the body into the text before
    the first header and one chunk per header, [1 + N] chunks in all, and
    [parseMarkdown] returns one slide per chunk that is not blank, in
    document order.  It returns the [N] slides of the [N] headers, in
    header order, exactly when the text before the first header is blank
    and no header chunk is blank. *)
Theorem slides_follow_chunks (body : str) :
  length (chunks body) = S (length (headerLines body))
  /\ match chunks body with
     | pre :: secs => pre ++ concat (List.map (app marker) secs) = body
     | [] => False
     end
  /\ slidesOf body = List.map parseSection (filter nonBlank (chunks body))
  /\ (forall pre secs,
        chunks body = pre :: secs ->
        blank pre = true ->
        forallb nonBlank secs = true ->
        slidesOf body = List.map parseSection secs
        /\ length (slidesOf body) = length (headerLines body)).
Proof.
  split; [apply chunks_length|].
  split.
  { pose proof (chunksFrom_concat (linesT body) []) as H.
    unfold chunks. destruct (chunksFrom [] (linesT body)); [exact H|].
    now rewrite H, linesT_concat. }
  split; [apply slidesOf_chunks|].
  intros pre secs Hc Hpre Hsecs.
  assert (Hs : slidesOf body = List.map parseSection secs).
  { rewrite slidesOf_chunks, Hc. cbn [filter].
    unfold blank in Hpre. apply negb_true_iff in Hpre. rewrite Hpre.
    now rewrite filter_all. }
  split; [exact Hs|].
  pose proof (chunks_length body) as Hl. rewrite Hc in Hl. cbn [length] in Hl.
  rewrite Hs, length_map. lia.
Qed.

Lemma slides_follow_chunks_witness :
  chunks twoSlideDoc =
    [] :: [lit "[divider] Intro" ++ [NL];
           lit "[content] Facts" ++ [NL] ++ factsBody]
  /\ blank [] = true
  /\ forallb nonBlank
       [lit "[divider] Intro" ++ [NL];
        lit "[content] Facts" ++ [NL] ++ factsBody] = true
  /\ length (slidesOf twoSlideDoc) = length (headerLines twoSlideDoc).
Proof.
  assert (Hc : chunks twoSlideDoc =
    [] :: [lit "[divider] Intro" ++ [NL];
           lit "[content] Facts" ++ [NL] ++ factsBody]) by (vm_compute; reflexivity).
  assert (Hb : blank [] = true) by reflexivity.
  assert (Hs : forallb nonBlank
       [lit "[divider] Intro" ++ [NL];
        lit "[content] Facts" ++ [NL] ++ factsBody] = true) by (vm_compute; reflexivity).
  split; [exact Hc|]. split; [exact Hb|]. split; [exact Hs|].
  exact (proj2 (proj2 (proj2 (proj2 (slides_follow_chunks twoSlideDoc)))
                  _ _ Hc Hb Hs)).
Defined.

(** C1 as stated fails: one header, two slides, because the text before
    the header is not blank. *)
Lemma preamble_makes_a_slide :
  length (headerLines preambleDoc) = 1
  /\ length (slidesOf preambleDoc) = 2
  /\ length (slidesOf preambleDoc) <> length (headerLines preambleDoc).
Proof. vm_compute. repeat split; discriminate. Qed.

Lemma takeWhile_app (A : Type) (p : A -> bool) a b :
  forallb p a = true -> takeWhile p (a ++ b) = a ++ takeWhile p b.
Proof.
  induction a as [|x a IH]; simpl; [reflexivity|].
  intros H; apply andb_true_iff in H as [-> H]. now rewrite IH.
Qed.

Lemma dropWhile_app (A : Type) (p : A -> bool) a b :
  forallb p a = true -> dropWhile p (a ++ b) = dropWhile p b.
Proof.
  induction a as [|x a IH]; simpl; [reflexivity|].
  intros H; apply andb_true_iff in H as [-> H]. now rewrite IH.
Qed.

Lemma takeWhile_dropWhile (A : Type) (p : A -> bool) l :
  takeWhile p l ++ dropWhile p l = l.
Proof.
  induction l as [|x l IH]; [reflexivity|].
  cbn [takeWhile dropWhile]. destruct (p x); [|reflexivity].
  cbn [app]. now rewrite IH.
Qed.

Lemma takeWhile_all (A : Type) (p : A -> bool) l :
  forallb p (takeWhile p l) = true.
Proof.
  induction l as [|x l IH]; [reflexivity|].
  cbn [takeWhile]. destruct (p x) eqn:Hx; [|reflexivity].
  cbn [forallb]. now rewrite Hx, IH.
Qed.

(** ** Type tags *)

Lemma typeMatch_tag tag rest :
  tag <> [] ->
  forallb isWord tag = true ->
  forallb isDot (trimStart rest) = true ->
  typeMatch (lit "[" ++ tag ++ lit "]" ++ rest) = Some (tag, trimStart rest).
Proof.
  intros Hne Hw Hd.
  change (lit "[" ++ tag ++ lit "]" ++ rest) with (91%N :: tag ++ 93%N :: rest).
  unfold typeMatch. rewrite N.eqb_refl.
  rewrite (takeWhile_app _ isWord tag (93%N :: rest) Hw).
  rewrite (dropWhile_app _ isWord tag (93%N :: rest) Hw).
  change (takeWhile isWord (93%N :: rest)) with (@nil char).
  change (dropWhile isWord (93%N :: rest)) with (93%N :: rest).
  rewrite app_nil_r, N.eqb_refl.
  destruct tag as [|t tag]; [congruence|].
  unfold trimStart in Hd. now rewrite Hd.
Qed.

Lemma typeMatch_no_bracket h :
  startsWith (lit "[") h = false -> typeMatch h = None.
Proof.
  destruct h as [|c h]; [reflexivity|].
  change (lit "[") with [91%N]. rewrite startsWith_cons, andb_true_r.
  unfold typeMatch. rewrite N.eqb_sym. now intros ->.
Qed.

Lemma typeMatch_shape h tag ttl :
  typeMatch h = Some (tag, ttl) ->
  exists rest,
    h = lit "[" ++ tag ++ lit "]" ++ rest
    /\ ttl = trimStart rest
    /\ tag <> [] /\ forallb isWord tag = true
    /\ forallb isDot (trimStart rest) = true.
Proof.
  unfold typeMatch. destruct h as [|c r]; [discriminate|].
  destruct (c =? 91)%N eqn:Ec; [|discriminate].
  apply N.eqb_eq in Ec. subst c.
  pose proof (takeWhile_all _ isWord r) as Hw.
  pose proof (takeWhile_dropWhile _ isWord r) as Hr.
  destruct (takeWhile isWord r) as [|x w] eqn:Ew; [discriminate|].
  destruct (dropWhile isWord r) as [|c' r']; [discriminate|].
  destruct (c' =? 93)%N eqn:Ec'; [|discriminate].
  apply N.eqb_eq in Ec'. subst c'.
  destruct (forallb isDot (dropWhile isSpace r')) eqn:Ed; [|discriminate].
  intros [= <- <-]. exists r'.
  repeat split; try assumption; [|discriminate].
  rewrite <- Hr. reflexivity.
Qed.

(** C9, as the code has it.  The header line of a section is matched
    against one pattern: an opening bracket, a tag of one or more word
    characters, a closing bracket, and a rest that holds no
    LineTerminator once its leading white space is taken off.  A header of
    that form gives a slide whose type is the tag in lower case, whether
    the tag is a known type or not, and whose title is the rest without
    its leading white space.  Every other header gives a slide of type
    content whose title is the whole header line.  [generatePresentation]
    builds a content slide for every slide whose type is neither plan nor
    divider, so an unknown type is rendered the way content is. *)
Theorem unknown_type_kept_and_rendered_as_content :
  (forall section,
      typeMatch (headerLineOf section) = None ->
      type (parseSection section) = lit "content"
      /\ title (parseSection section) = headerLineOf section)
  /\ (forall section,
      startsWith (lit "[") (headerLineOf section) = false ->
      type (parseSection section) = lit "content")
  /\ (forall section tag rest,
      headerLineOf section = lit "[" ++ tag ++ lit "]" ++ rest ->
      tag <> [] ->
      forallb isWord tag = true ->
      forallb isDot (trimStart rest) = true ->
      type (parseSection section) = toLowerCase tag
      /\ title (parseSection section) = trimStart rest)
  /\ (forall slide,
      type slide <> lit "plan" ->
      type slide <> lit "divider" ->
      addSlideFor slide = addContentSlide (title slide) (content slide))
  /\ (forall section,
      (type (parseSection section) = lit "content"
       /\ title (parseSection section) = headerLineOf section)
      \/ (exists tag rest,
            headerLineOf section = lit "[" ++ tag ++ lit "]" ++ rest
            /\ tag <> [] /\ forallb isWord tag = true
            /\ forallb isDot (trimStart rest) = true
            /\ type (parseSection section) = toLowerCase tag
            /\ title (parseSection section) = trimStart rest)).
Proof.
  split; [|split; [|split; [|split]]].
  - intros section H. unfold parseSection. now rewrite H.
  - intros section H. unfold parseSection.
    now rewrite (typeMatch_no_bracket _ H).
  - intros section tag rest Hh Hne Hw Hd. unfold parseSection.
    now rewrite Hh, (typeMatch_tag tag rest Hne Hw Hd).
  - intros slide Hp Hd. unfold addSlideFor.
    apply str_eqb_neq in Hp, Hd. now rewrite Hp, Hd.
  - intros section. unfold parseSection.
    destruct (typeMatch (headerLineOf section)) as [[tag ttl]|] eqn:E.
    + right. apply typeMatch_shape in E as (rest & Hh & -> & Hne & Hw & Hd).
      exists tag, rest. now repeat split.
    + left. now split.
Qed.

Lemma unknown_type_kept_and_rendered_as_content_witness :
  (typeMatch (headerLineOf (lit "Plain title")) = None
   /\ startsWith (lit "[") (headerLineOf (lit "Plain title")) = false
   /\ type (parseSection (lit "Plain title")) = lit "content")
  /\ (headerLineOf (lit "[Foo] X") = lit "[" ++ lit "Foo" ++ lit "]" ++ lit " X"
      /\ lit "Foo" <> []
      /\ forallb isWord (lit "Foo") = true
      /\ forallb isDot (trimStart (lit " X")) = true
      /\ type (parseSection (lit "[Foo] X")) = toLowerCase (lit "Foo"))
  /\ (type (parseSection (lit "[Foo] X")) <> lit "plan"
      /\ type (parseSection (lit "[Foo] X")) <> lit "divider"
      /\ addSlideFor (parseSection (lit "[Foo] X"))
         = addContentSlide (title (parseSection (lit "[Foo] X")))
                           (content (parseSection (lit "[Foo] X"))))
  /\ (typeMatch (headerLineOf (lit "[my-type] X")) = None
      /\ type (parseSection (lit "[my-type] X")) = lit "content"
      /\ title (parseSection (lit "[my-type] X")) = lit "[my-type] X")
  /\ (typeMatch (headerLineOf (lit "[plan] Agenda" ++ [13%N; NL] ++ lit "- a"))
      = None
      /\ type (parseSection (lit "[plan] Agenda" ++ [13%N; NL] ++ lit "- a"))
         = lit "content").
Proof.
  destruct unknown_type_kept_and_rendered_as_content
    as (Hnone & Hplain & Htag & Hrender & _).
  split; [|split; [|split; [|split]]].
  - assert (H1 : typeMatch (headerLineOf (lit "Plain title")) = None)
      by (vm_compute; reflexivity).
    assert (H2 : startsWith (lit "[") (headerLineOf (lit "Plain title")) = false)
      by (vm_compute; reflexivity).
    split; [exact H1|]. split; [exact H2|].
    pose proof (Hplain _ H2) as H3.
    exact (proj1 (Hnone _ H1)).
  - assert (H1 : headerLineOf (lit "[Foo] X")
                 = lit "[" ++ lit "Foo" ++ lit "]" ++ lit " X")
      by (vm_compute; reflexivity).
    assert (H2 : lit "Foo" <> []) by (vm_compute; discriminate).
    assert (H3 : forallb isWord (lit "Foo") = true) by (vm_compute; reflexivity).
    assert (H4 : forallb isDot (trimStart (lit " X")) = true)
      by (vm_compute; reflexivity).
    split; [exact H1|]. split; [exact H2|]. split; [exact H3|]. split; [exact H4|].
    exact (proj1 (Htag _ _ _ H1 H2 H3 H4)).
  - assert (H1 : type (parseSection (lit "[Foo] X")) <> lit "plan")
      by (vm_compute; discriminate).
    assert (H2 : type (parseSection (lit "[Foo] X")) <> lit "divider")
      by (vm_compute; discriminate).
    split; [exact H1|]. split; [exact H2|].
    exact (Hrender _ H1 H2).
  - assert (H1 : typeMatch (headerLineOf (lit "[my-type] X")) = None)
      by (vm_compute; reflexivity).
    split; [exact H1|]. exact (Hnone _ H1).
  - assert (H1 : typeMatch (headerLineOf
                              (lit "[plan] Agenda" ++ [13%N; NL] ++ lit "- a"))
                 = None)
      by (vm_compute; reflexivity).
    split; [exact H1|]. exact (proj1 (Hnone _ H1)).
Defined.

(** C9 as stated fails: the tag [foo] is not a known type, and the slide's
    type is [foo], not content. *)
Lemma unknown_tag_is_not_content :
  slidesOf unknownTagDoc = [mkSlide (lit "foo") (lit "X") []]
  /\ ~ In (lit "foo") knownTypes
  /\ List.map type (slidesOf unknownTagDoc) <> [lit "content"].
Proof.
  split; [vm_compute; reflexivity|]. split.
  - vm_compute. intuition discriminate.
  - vm_compute. discriminate.
Qed.

(** ** The end-to-end document *)

(** C2, as the code has it: the title slide comes first, so the two-slide
    document yields four slides: title, divider, content, closing.  The
    content slide is laid out from one bullets element of two bullets at
    level 0. *)
Theorem two_slide_document (matter : str -> Frontmatter * str)
        (config : Config) (frontmatter : Frontmatter) :
  matter twoSlideDoc = (frontmatter, twoSlideDoc) ->
  generatePresentation matter config twoSlideDoc =
    [addTitleSlide config frontmatter;
     addDividerSlide (lit "Intro");
     addContentSlide (lit "Facts") factsBody;
     addClosingSlide config]
  /\ length (generatePresentation matter config twoSlideDoc) = 4
  /\ parseContentElements factsBody = [BulletsEl factsBody]
  /\ parseBullets factsBody = [mkBullet (lit "one") 0; mkBullet (lit "two") 0]
  /\ objects (addContentSlide (lit "Facts") factsBody) =
       [Shape (Inch 0) (Inch 85); Shape (Inch 0) (Inch 85);
        TextBox (Inch 15) (Inch 70) (lit "Facts");
        BulletBox (Inch 90) (Inch 80)
                  [mkBullet (lit "one") 0; mkBullet (lit "two") 0]].
Proof.
  intros Hm.
  assert (Hg : generatePresentation matter config twoSlideDoc =
    [addTitleSlide config frontmatter;
     addDividerSlide (lit "Intro");
     addContentSlide (lit "Facts") factsBody;
     addClosingSlide config]).
  { unfold generatePresentation, parseMarkdown. rewrite Hm.
    assert (Hs : slidesOf twoSlideDoc =
                 [mkSlide (lit "divider") (lit "Intro") [];
                  mkSlide (lit "content") (lit "Facts") factsBody])
      by (vm_compute; reflexivity).
    rewrite Hs. reflexivity. }
  split; [exact Hg|]. split; [now rewrite Hg|].
  split; [vm_compute; reflexivity|].
  split; vm_compute; reflexivity.
Qed.

Lemma two_slide_document_witness :
  noFrontmatter twoSlideDoc = (mkFrontmatter None None None None, twoSlideDoc)
  /\ length (generatePresentation noFrontmatter sampleConfig twoSlideDoc) = 4.
Proof.
  split; [reflexivity|].
  exact (proj1 (proj2 (two_slide_document noFrontmatter sampleConfig
                         (mkFrontmatter None None None None) eq_refl))).
Defined.

(** C2 as stated fails: the package does not have exactly three slides. *)
Lemma two_slide_document_has_four_slides :
  List.map masterName (generatePresentation noFrontmatter sampleConfig twoSlideDoc)
  = [TITLE_SLIDE; DIVIDER_SLIDE; CONTENT_SLIDE; TITLE_SLIDE]
  /\ length (generatePresentation noFrontmatter sampleConfig twoSlideDoc) <> 3.
Proof. split; vm_compute; [reflexivity|discriminate]. Qed.

(** ** ArchivePostProcessor *)

Lemma collectRenames_named entries :
  forall k m,
    (forall i name, nth_error (mediaNames entries) i = Some name ->
                    name = assignedName (k + i) name) ->
    collectRenames entries k m = m.
Proof.
  induction entries as [|e entries IH]; intros k m H; [reflexivity|].
  cbn [collectRenames]. unfold mediaNames in H. cbn [filter] in H.
  destruct (isMedia e) eqn:He.
  - cbn [List.map] in H.
    pose proof (H 0 _ eq_refl) as H0. rewrite Nat.add_0_r in H0.
    apply str_eqb_eq in H0. rewrite H0.
    apply IH. intros i name Hi.
    replace (S k + i) with (k + S i) by lia. now apply H.
  - apply IH. exact H.
Qed.

(** C8: when every media entry already has the name the sequence assigns
    to it, no rename is recorded and the output file is the input file,
    byte for byte. *)
Theorem fast_path_copies_input (decode : bytes -> str) (encode : str -> bytes)
        (file : bytes) (entries : list Entry) :
  alreadyNamed entries ->
  collectRenames entries 1 [] = []
  /\ fixForGoogleSlides decode encode file entries = Copied file.
Proof.
  intros H.
  assert (Hc : collectRenames entries 1 [] = []).
  { apply collectRenames_named. intros i name Hi. now apply H. }
  split; [exact Hc|]. unfold fixForGoogleSlides. now rewrite Hc.
Qed.

Lemma namedArchive_alreadyNamed : alreadyNamed namedArchive.
Proof.
  intros i name.
  change (mediaNames namedArchive) with [lit "image1.png"; lit "image2.jpeg"].
  destruct i as [|[|i]]; cbn [nth_error].
  - intros [= <-]. vm_compute. reflexivity.
  - intros [= <-]. vm_compute. reflexivity.
  - destruct i; discriminate.
Defined.

Lemma fast_path_copies_input_witness :
  alreadyNamed namedArchive
  /\ fixForGoogleSlides (fun b => b) (fun s => s) (lit "PK-bytes") namedArchive
     = Copied (lit "PK-bytes").
Proof.
  split; [exact namedArchive_alreadyNamed|].
  exact (proj2 (fast_path_copies_input (fun b => b) (fun s => s)
                  (lit "PK-bytes") namedArchive namedArchive_alreadyNamed)).
Defined.

(** C4, the code at the archive with a repeated base name: the later
    rename replaces the earlier one in the map, both entries go to the
    name of the later one, and no entry is named [image1.png]. *)
Theorem duplicate_basenames_collapse (decode : bytes -> str)
        (encode : str -> bytes) (file : bytes) :
  mediaNames duplicateArchive = [lit "photo.png"; lit "logo.png"; lit "photo.png"]
  /\ collectRenames duplicateArchive 1 [] =
       [(lit "photo.png", lit "image3.png"); (lit "logo.png", lit "image2.png")]
  /\ fixForGoogleSlides decode encode file duplicateArchive =
       Zipped [(lit "ppt/media/image3.png", []);
               (lit "ppt/media/image2.png", []);
               (lit "ppt/media/image3.png", []);
               (lit "ppt/slides/slide1.xml",
                encode (rewriteText
                          [(lit "photo.png", lit "image3.png");
                           (lit "logo.png", lit "image2.png")]
                          (decode (lit "photo.png logo.png"))))]
  /\ rewriteText (collectRenames duplicateArchive 1 []) (lit "photo.png logo.png")
     = lit "image3.png image2.png".
Proof.
  split; [vm_compute; reflexivity|].
  assert (Hc : collectRenames duplicateArchive 1 [] =
       [(lit "photo.png", lit "image3.png"); (lit "logo.png", lit "image2.png")])
    by (vm_compute; reflexivity).
  split; [exact Hc|]. split.
  - unfold fixForGoogleSlides. rewrite Hc.
    unfold duplicateArchive. cbn [List.map].
    unfold rebuildEntry. cbn [entryName getData].
    reflexivity.
  - rewrite Hc. vm_compute. reflexivity.
Qed.

(** ** TableExtractor *)

Lemma tableRows_cells tableLines :
  forall hdr,
    List.map cells (tableRows hdr tableLines) =
    filter hasCells
      (List.map cellsOf (filter (fun l => negb (isSeparator l)) tableLines)).
Proof.
  induction tableLines as [|l ls IH]; intros hdr; [reflexivity|].
  cbn [tableRows filter].
  destruct (isSeparator l); cbn [negb]; [apply IH|].
  cbn [List.map filter].
  destruct (cellsOf l) as [|c cs]; cbn [hasCells]; [apply IH|].
  cbn [List.map cells]. now rewrite IH.
Qed.

Lemma tableRows_from_false tableLines :
  Forall (fun r => isHeader r = false) (tableRows false tableLines).
Proof.
  induction tableLines as [|l ls IH]; [constructor|].
  cbn [tableRows].
  destruct (isSeparator l); [exact IH|].
  destruct (cellsOf l); [exact IH|].
  constructor; [reflexivity|exact IH].
Qed.

Lemma tableRows_tail tableLines :
  forall hdr,
    Forall (fun r => isHeader r = false) (tl (tableRows hdr tableLines)).
Proof.
  induction tableLines as [|l ls IH]; intros hdr; [constructor|].
  cbn [tableRows].
  destruct (isSeparator l) eqn:Hs.
  - apply Forall_forall. intros r Hr.
    pose proof (tableRows_from_false ls) as Hf.
    rewrite Forall_forall in Hf. apply Hf.
    destruct (tableRows false ls); [contradiction|now right].
  - destruct (cellsOf l); [apply IH|].
    cbn [tl]. apply tableRows_from_false.
Qed.

Lemma tableRows_first tableLines :
  forall hdr,
    match tableRows hdr tableLines with
    | r :: _ =>
        isHeader r = hdr && negb (existsb isSeparator (beforeFirstRow tableLines))
    | [] => True
    end.
Proof.
  induction tableLines as [|l ls IH]; intros hdr; [exact I|].
  cbn [tableRows]. unfold beforeFirstRow, yieldsRow. cbn [takeWhile].
  destruct (isSeparator l) eqn:Hs; cbn [negb andb].
  - specialize (IH false).
    destruct (tableRows false ls) as [|r rs]; [exact I|].
    rewrite IH. cbn [andb]. cbn [existsb]. rewrite Hs. cbn.
    now rewrite andb_false_r.
  - destruct (cellsOf l) as [|c cs]; cbn [hasCells].
    + cbn [negb existsb]. rewrite Hs. cbn [orb]. apply IH.
    + cbn [negb existsb isHeader]. now rewrite andb_true_r.
Qed.

Lemma existsb_takeWhile_false (A : Type) (p q : A -> bool) l :
  existsb p l = false -> existsb p (takeWhile q l) = false.
Proof.
  induction l as [|x l IH]; [reflexivity|].
  cbn [existsb takeWhile]. intros H. apply orb_false_iff in H as [Hx H].
  destruct (q x); [|reflexivity]. cbn [existsb]. now rewrite Hx, IH.
Qed.

(** *** Where the rows of a table element come from *)

Lemma isPipeLine_startsPipe l : isPipeLine l = true -> startsPipe l = true.
Proof. unfold isPipeLine, startsPipe. intros H. now apply andb_true_iff in H. Qed.

Lemma isBlockOf_shift ls0 ls tableLines :
  isBlockOf ls tableLines -> isBlockOf (ls0 ++ ls) tableLines.
Proof.
  intros ((a & b & ->) & H2 & H3 & H4).
  split; [|now repeat split].
  exists (ls0 ++ a), b. now rewrite <- app_assoc.
Qed.

Lemma extractTables_blocks fuel :
  forall ls tables newLines t,
    In t (fst (extractTables fuel ls tables newLines)) ->
    In t tables
    \/ exists tableLines,
         isBlockOf ls tableLines /\ rows t = tableRows true tableLines.
Proof.
  induction fuel as [|fuel IH]; intros ls tables newLines t Ht.
  { now left. }
  cbn [extractTables] in Ht.
  destruct ls as [|line rest]; [now left|].
  destruct (isPipeLine line) eqn:Hp.
  - set (tableLines := takeWhile startsPipe (line :: rest)) in *.
    set (ls' := dropWhile startsPipe (line :: rest)) in *.
    assert (Hsplit : line :: rest = tableLines ++ ls')
      by (symmetry; apply takeWhile_dropWhile).
    assert (Hshift : forall tl', isBlockOf ls' tl' -> isBlockOf (line :: rest) tl').
    { intros tl' H. rewrite Hsplit. now apply isBlockOf_shift. }
    destruct (2 <=? length tableLines) eqn:H2.
    + destruct (tableRows true tableLines) as [|r rs] eqn:Hr.
      * apply IH in Ht as [Ht|(tl' & Hb & Hrows)]; [now left|].
        right. exists tl'. split; [now apply Hshift|exact Hrows].
      * apply IH in Ht as [Ht|(tl' & Hb & Hrows)].
        -- apply in_app_or in Ht as [Ht|[<-|[]]]; [now left|].
           right. exists tableLines. split; [|cbn [rows]; now rewrite Hr].
           split; [exists [], ls'; exact Hsplit|].
           split; [now apply Nat.leb_le|].
           split; [apply takeWhile_all|].
           subst tableLines. cbn [takeWhile].
           rewrite (isPipeLine_startsPipe _ Hp). eauto.
        -- right. exists tl'. split; [now apply Hshift|exact Hrows].
    + apply IH in Ht as [Ht|(tl' & Hb & Hrows)]; [now left|].
      right. exists tl'. split; [now apply Hshift|exact Hrows].
  - apply IH in Ht as [Ht|(tl' & Hb & Hrows)]; [now left|].
    right. exists tl'. split; [|exact Hrows].
    now apply (isBlockOf_shift [line]).
Qed.

(** ** The walk over the remaining lines *)

Lemma parseContentElements_eq content :
  parseContentElements content =
  walkLines (fst (codeBlocksOf content))
            (fst (tablesOf (snd (codeBlocksOf content))))
            (finalLinesOf content).
Proof.
  unfold parseContentElements, finalLinesOf.
  destruct (codeBlocksOf content) as [cbs w]. cbn [fst snd].
  destruct (tablesOf w) as [tbls nl]. reflexivity.
Qed.

Section Walk.

Variable cbs : list CodeBlock.
Variable tbls : list TableBlock.

Lemma flushText_elements w :
  elements (flushText w) = elements w
  \/ exists c, elements (flushText w) = elements w ++ [TextEl c].
Proof.
  unfold flushText. destruct (currentTextBlock w); [now left|].
  right. eexists. reflexivity.
Qed.

Lemma flushBullets_elements w :
  elements (flushBullets w) = elements w
  \/ exists c, elements (flushBullets w) = elements w ++ [BulletsEl c].
Proof.
  unfold flushBullets. destruct (currentBulletBlock w); [now left|].
  right. eexists. reflexivity.
Qed.

Lemma flushText_fromArrays w :
  Forall (fromArrays cbs tbls) (elements w) ->
  Forall (fromArrays cbs tbls) (elements (flushText w)).
Proof.
  intros H. destruct (flushText_elements w) as [->|[c ->]]; [exact H|].
  apply Forall_app. split; [exact H|]. now repeat constructor.
Qed.

Lemma flushBullets_fromArrays w :
  Forall (fromArrays cbs tbls) (elements w) ->
  Forall (fromArrays cbs tbls) (elements (flushBullets w)).
Proof.
  intros H. destruct (flushBullets_elements w) as [->|[c ->]]; [exact H|].
  apply Forall_app. split; [exact H|]. now repeat constructor.
Qed.

Lemma walkLine_fromArrays w line :
  Forall (fromArrays cbs tbls) (elements w) ->
  Forall (fromArrays cbs tbls) (elements (walkLine cbs tbls w line)).
Proof.
  intros H. unfold walkLine.
  destruct (codeMatch line).
  { destruct (find _ cbs) as [cb|] eqn:Hf; cbn [option_map push elements].
    - apply Forall_app. split.
      + now apply flushBullets_fromArrays, flushText_fromArrays.
      + constructor; [|constructor]. apply find_some in Hf as [Hin _].
        exists cb. now repeat split.
    - now apply flushBullets_fromArrays, flushText_fromArrays. }
  destruct (tableMatch line).
  { destruct (find _ tbls) as [t|] eqn:Hf; cbn [option_map push elements].
    - apply Forall_app. split.
      + now apply flushBullets_fromArrays, flushText_fromArrays.
      + constructor; [|constructor]. apply find_some in Hf as [Hin _].
        exists t. now split.
    - now apply flushBullets_fromArrays, flushText_fromArrays. }
  destruct (isBulletLine line); [now apply flushText_fromArrays|].
  destruct (truthy (trim line)); [now apply flushBullets_fromArrays|].
  now apply flushBullets_fromArrays, flushText_fromArrays.
Qed.

Lemma fold_walkLine_fromArrays ls :
  forall w,
    Forall (fromArrays cbs tbls) (elements w) ->
    Forall (fromArrays cbs tbls)
           (elements (fold_left (walkLine cbs tbls) ls w)).
Proof.
  induction ls as [|l ls IH]; intros w H; [exact H|].
  cbn [fold_left]. now apply IH, walkLine_fromArrays.
Qed.

Lemma walkLines_fromArrays ls :
  Forall (fromArrays cbs tbls) (walkLines cbs tbls ls).
Proof.
  unfold walkLines.
  apply flushBullets_fromArrays, flushText_fromArrays, fold_walkLine_fromArrays.
  constructor.
Qed.





End Walk.

(** ** Tables in the parsed elements *)

Lemma parsed_table_rows content rs :
  In (TableEl rs) (parseContentElements content) ->
  exists tableLines,
    isBlockOf (lines (snd (codeBlocksOf content))) tableLines
    /\ rs = tableRows true tableLines.
Proof.
  intros H. rewrite parseContentElements_eq in H.
  pose proof (walkLines_fromArrays (fst (codeBlocksOf content))
                (fst (tablesOf (snd (codeBlocksOf content))))
                (finalLinesOf content)) as Hf.
  rewrite Forall_forall in Hf. apply Hf in H as (t & Hin & <-).
  unfold tablesOf in Hin.
  apply extractTables_blocks in Hin as [[]|(tableLines & Hb & Hr)].
  now exists tableLines.
Qed.

(** C5, as the code has it: a separator line is consumed and gives no
    row; among the rows of a block only the first can be a header, and it
    is one exactly when no separator line comes before it, so a block
    without any separator still has its first row marked as header, and a
    second row before the separator is not a header.  Every table element
    of a parse has the rows of such a block of two or more lines. *)
Theorem table_rows_and_headers :
  (forall tableLines,
      List.map cells (tableRows true tableLines) =
        filter hasCells
          (List.map cellsOf (filter (fun l => negb (isSeparator l)) tableLines))
      /\ Forall (fun r => isHeader r = false) (tl (tableRows true tableLines))
      /\ match tableRows true tableLines with
         | r :: _ =>
             isHeader r = negb (existsb isSeparator (beforeFirstRow tableLines))
         | [] => True
         end
      /\ (existsb isSeparator tableLines = false ->
          match tableRows true tableLines with
          | r :: _ => isHeader r = true
          | [] => True
          end))
  /\ (forall content rs,
        In (TableEl rs) (parseContentElements content) ->
        exists tableLines,
          isBlockOf (lines (snd (codeBlocksOf content))) tableLines
          /\ rs = tableRows true tableLines).
Proof.
  split; [|exact parsed_table_rows].
  intros tableLines.
  split; [apply tableRows_cells|].
  split; [apply tableRows_tail|].
  pose proof (tableRows_first tableLines true) as Hfirst.
  split.
  - destruct (tableRows true tableLines); [exact I|]. exact Hfirst.
  - intros Hno. destruct (tableRows true tableLines); [exact I|].
    rewrite Hfirst. unfold beforeFirstRow.
    now rewrite (existsb_takeWhile_false _ _ _ _ Hno).
Qed.

Lemma table_rows_and_headers_witness :
  (existsb isSeparator (lines plainTable) = false
   /\ isHeader (hd (mkTableRow [] false) (tableRows true (lines plainTable)))
      = true)
  /\ (In (TableEl [mkTableRow [lit "a"; lit "b"] true;
                   mkTableRow [lit "c"; lit "d"] false])
         (parseContentElements plainTable)
      /\ exists tableLines,
           isBlockOf (lines (snd (codeBlocksOf plainTable))) tableLines
           /\ [mkTableRow [lit "a"; lit "b"] true;
               mkTableRow [lit "c"; lit "d"] false]
              = tableRows true tableLines).
Proof.
  destruct table_rows_and_headers as (Hrows & Hparsed).
  split.
  - assert (H : existsb isSeparator (lines plainTable) = false)
      by (vm_compute; reflexivity).
    split; [exact H|].
    pose proof (proj2 (proj2 (proj2 (Hrows (lines plainTable)))) H) as Hw.
    change (tableRows true (lines plainTable))
      with [mkTableRow [lit "a"; lit "b"] true;
            mkTableRow [lit "c"; lit "d"] false]
      in Hw |- *.
    exact Hw.
  - assert (H : In (TableEl [mkTableRow [lit "a"; lit "b"] true;
                             mkTableRow [lit "c"; lit "d"] false])
                   (parseContentElements plainTable))
      by (vm_compute; tauto).
    split; [exact H|]. exact (Hparsed _ _ H).
Defined.

(** C5 as stated fails: the block has no separator row, and its first row
    is a header. *)
Lemma table_without_separator_has_header :
  existsb isSeparator (lines plainTable) = false
  /\ parseContentElements plainTable =
       [TableEl [mkTableRow [lit "a"; lit "b"] true;
                 mkTableRow [lit "c"; lit "d"] false]]
  /\ existsb (fun e => match e with
                       | TableEl rs => existsb isHeader rs
                       | _ => false
                       end) (parseContentElements plainTable) = true.
Proof. repeat split; vm_compute; reflexivity. Qed.

(** ** A pipe line on its own *)

(** The table loop consumes a pipe line that no pipe line follows, and
    pushes nothing for it. *)
Lemma extractTables_lone_pipe fuel line rest tables newLines :
  isPipeLine line = true ->
  startsPipe (hd [] rest) = false ->
  extractTables (S fuel) (line :: rest) tables newLines
  = extractTables fuel rest tables newLines.
Proof.
  intros Hp Hr. cbn [extractTables]. rewrite Hp.
  cbn [takeWhile dropWhile]. rewrite (isPipeLine_startsPipe _ Hp).
  destruct rest as [|l rest]; cbn [takeWhile dropWhile hd] in *.
  - reflexivity.
  - rewrite Hr. reflexivity.
Qed.

(** C6, the code at a body with one pipe-delimited line: the line is
    gone from the result, and the prose around it is joined into one text
    element. *)
Theorem lone_pipe_line_is_lost :
  parseContentElements (lit "| a |") = []
  /\ finalLinesOf lonePipeBody = [lit "before"; lit "after"]
  /\ parseContentElements lonePipeBody =
       [TextEl (lit "before" ++ [NL] ++ lit "after")].
Proof. repeat split; vm_compute; reflexivity. Qed.

(** ** LayoutFlowEngine *)

Section Layout.

Local Open Scope float_scope.

Lemma flow_stopped yPos els : (maxY <=? yPos) = true -> flow yPos els = [].
Proof.
  intros H. destruct els as [|e els]; [reflexivity|].
  cbn [flow]. now rewrite H.
Qed.

Lemma cursor_stopped yPos els :
  (maxY <=? yPos) = true -> cursor yPos els = yPos.
Proof.
  intros H. destruct els as [|e els]; [reflexivity|].
  cbn [cursor]. now rewrite H.
Qed.

Lemma flow_app pre :
  forall yPos post,
    flow yPos (pre ++ post) = flow yPos pre ++ flow (cursor yPos pre) post.
Proof.
  induction pre as [|e pre IH]; intros yPos post; [reflexivity|].
  cbn [app flow cursor].
  destruct (maxY <=? yPos) eqn:Hy.
  - now rewrite flow_stopped.
  - destruct (drawn e); cbn [app]; now rewrite IH.
Qed.

Lemma cursor_app pre :
  forall yPos post,
    cursor yPos (pre ++ post) = cursor (cursor yPos pre) post.
Proof.
  induction pre as [|e pre IH]; intros yPos post; [reflexivity|].
  cbn [app cursor].
  destruct (maxY <=? yPos) eqn:Hy.
  - now rewrite cursor_stopped.
  - apply IH.
Qed.

(** The elements placed are the drawn ones among the first [n], for the
    [n] at which the loop is left. *)
Lemma flow_prefix els :
  forall yPos,
    exists n, List.map element (flow yPos els) = filter drawn (firstn n els).
Proof.
  induction els as [|e els IH]; intros yPos; [now exists 0%nat|].
  cbn [flow]. destruct (maxY <=? yPos); [now exists 0%nat|].
  destruct (IH (advance yPos e)) as [n Hn].
  exists (S n). cbn [firstn filter].
  destruct (drawn e); cbn [List.map element]; now rewrite Hn.
Qed.

(** Every placement is of a drawn element reached below capacity, with
    the height the loop computes there. *)
Lemma flow_placements els :
  forall yPos,
    Forall (fun p => (maxY <=? y p) = false
                     /\ drawn (element p) = true
                     /\ height p = heightAt (y p) (element p))
           (flow yPos els).
Proof.
  induction els as [|e els IH]; intros yPos; [constructor|].
  cbn [flow]. destruct (maxY <=? yPos) eqn:Hy; [constructor|].
  destruct (drawn e) eqn:Hd; [|apply IH].
  constructor; [|apply IH]. now repeat split.
Qed.

(** The first placement is at the position the loop starts from. *)
Lemma flow_head els :
  forall yPos p rest, flow yPos els = p :: rest -> y p = yPos.
Proof.
  induction els as [|e els IH]; intros yPos p rest H; [discriminate|].
  cbn [flow] in H. destruct (maxY <=? yPos); [discriminate|].
  unfold advance in H. destruct (drawn e).
  - now injection H as <- _.
  - exact (IH yPos p rest H).
Qed.

(** From one placement to the next, [yPos] grows by the height and the
    gap of the element placed. *)
Lemma flow_adjacent els :
  forall yPos l1 p q l2,
    flow yPos els = l1 ++ p :: q :: l2 ->
    y q = y p + (height p + gapOf (element p)).
Proof.
  induction els as [|e els IH]; intros yPos l1 p q l2 H.
  { now destruct l1. }
  cbn [flow] in H. destruct (maxY <=? yPos); [now destruct l1|].
  unfold advance in H. destruct (drawn e).
  - destruct l1 as [|x l1].
    + cbn [app] in H. injection H as <- H.
      cbn [y height element]. exact (flow_head els _ q l2 H).
    + cbn [app] in H. injection H as _ H. exact (IH _ l1 p q l2 H).
  - exact (IH yPos l1 p q l2 H).
Qed.

(** C3, as the code has it.  The loop handles its elements in order from
    [yPos = 0.9]; the test against [maxY = 5.0] is made before an element
    is handled, on the position reached so far, and all sums are those of
    binary64 Numbers.  So an element reached below capacity is placed even
    when it takes [yPos] to or past capacity, and what is omitted is every
    element after the one that does so.  What is placed are the drawn
    elements of a prefix of the sequence, the first at 0.9 and each
    further one at the position of the one placed before it plus the sum
    of that one's computed height and gap.  Text, bullets and code are
    drawn with the computed height; a table is drawn with 0.4 for each
    row, whatever room is left. *)
Theorem layout_flow_places_until_capacity
        (pre : list Element) (e : Element) (post : list Element) :
  (exists n, List.map element (flow TOP (pre ++ e :: post))
             = filter drawn (firstn n (pre ++ e :: post)))
  /\ Forall (fun p => (maxY <=? y p) = false
                      /\ drawn (element p) = true
                      /\ height p = heightAt (y p) (element p))
            (flow TOP (pre ++ e :: post))
  /\ (forall p rest, flow TOP (pre ++ e :: post) = p :: rest -> y p = TOP)
  /\ (forall l1 p q l2,
        flow TOP (pre ++ e :: post) = l1 ++ p :: q :: l2 ->
        y q = y p + (height p + gapOf (element p)))
  /\ ((maxY <=? cursor TOP pre) = false ->
      drawn e = true ->
      flow TOP (pre ++ e :: post) =
        flow TOP pre
        ++ mkPlacement e (cursor TOP pre) (heightAt (cursor TOP pre) e)
        :: flow (cursor TOP pre + (heightAt (cursor TOP pre) e + gapOf e)) post)
  /\ ((maxY <=? cursor TOP (pre ++ [e])) = true ->
      flow TOP (pre ++ e :: post) = flow TOP (pre ++ [e]))
  /\ (forall p,
        In p (flow TOP (pre ++ e :: post)) ->
        draw p
        = match element p with
          | BulletsEl c =>
              [BulletBox (Inches (y p))
                 (Inches (Math_min (ofLength (parseBullets c) * 0.4)
                                   (maxY - y p)))
                 (parseBullets c)]
          | TextEl c =>
              [TextBox (Inches (y p)) (Inches (Math_min 1.2 (maxY - y p))) c]
          | CodeEl _ c =>
              [Shape (Inches (y p - 0.05))
                 (Inches (Math_min (Math_max (lineCount c * 0.28) 1.2)
                                   (maxY - y p - 0.3) + 0.1));
               TextBox (Inches (y p))
                 (Inches (Math_min (Math_max (lineCount c * 0.28) 1.2)
                                   (maxY - y p - 0.3)))
                 c]
          | TableEl rs =>
              [TableBox (Inches (y p)) (List.map (fun _ => Inches 0.4) rs) rs]
          end).
Proof.
  split; [apply flow_prefix|].
  split; [apply flow_placements|].
  split; [apply flow_head|].
  split; [apply flow_adjacent|].
  split.
  { intros Hc Hd. rewrite flow_app. f_equal.
    cbn [flow]. rewrite Hc, Hd.
    unfold advance. now rewrite Hd. }
  split.
  { intros Hc. change (pre ++ e :: post) with (pre ++ [e] ++ post).
    rewrite app_assoc, (flow_app (pre ++ [e])).
    now rewrite (flow_stopped _ post Hc), app_nil_r. }
  intros p Hp.
  pose proof (flow_placements (pre ++ e :: post) TOP) as Hall.
  rewrite Forall_forall in Hall. destruct (Hall p Hp) as (_ & _ & Hh).
  unfold draw. rewrite Hh. now destruct (element p).
Qed.

Lemma layout_flow_places_until_capacity_witness :
  (maxY <=? cursor TOP (firstn 3 fiveTexts)) = false
  /\ drawn (TextEl (lit "four")) = true
  /\ (maxY <=? cursor TOP (firstn 4 fiveTexts)) = true
  /\ List.map (fun p => (y p, height p)) (flow TOP fiveTexts)
     = [(0.9, 1.2); (2.2000000000000002, 1.2); (3.5, 1.2);
        (4.7999999999999998, 0.20000000000000018)]
  /\ List.map y (flow TOP bulletBlocksAndText)
     = [0.9; 2.25; 2.7999999999999998; 3.3499999999999996;
        3.8999999999999995; 4.4499999999999993; 4.9999999999999991].
Proof.
  pose proof (layout_flow_places_until_capacity
                (firstn 3 fiveTexts) (TextEl (lit "four")) [TextEl (lit "five")])
    as (_ & _ & _ & _ & Hplaced & Hcut & _).
  assert (H1 : (maxY <=? cursor TOP (firstn 3 fiveTexts)) = false)
    by (vm_compute; reflexivity).
  assert (H2 : drawn (TextEl (lit "four")) = true) by reflexivity.
  assert (H3 : (maxY <=? cursor TOP (firstn 4 fiveTexts)) = true)
    by (vm_compute; reflexivity).
  split; [exact H1|]. split; [exact H2|]. split; [exact H3|].
  change (firstn 3 fiveTexts ++ TextEl (lit "four") :: [TextEl (lit "five")])
    with fiveTexts in *.
  split.
  - rewrite (Hcut H3). vm_compute. reflexivity.
  - vm_compute. reflexivity.
Defined.

(** C3 as stated fails.  The fourth paragraph is reached at 4.8 and takes
    [yPos] past capacity, and it is placed all the same; the fifth is the
    first to be omitted.  Nor do the positions always grow: a code block
    reached at 4.95 has the height -0.25 and leaves [yPos] where it is, so
    the block after it is placed at 4.95 too. *)
Lemma fourth_element_is_placed :
  (maxY <=? cursor TOP (firstn 3 fiveTexts)) = false
  /\ (maxY <? cursor TOP (firstn 4 fiveTexts)) = true
  /\ List.map element (flow TOP fiveTexts) = firstn 4 fiveTexts
  /\ List.map element (flow TOP fiveTexts) <> firstn 3 fiveTexts
  /\ List.map (fun p => (y p, height p)) (flow TOP threeCodeBlocks)
     = [(0.9, 3.7999999999999998);
        (4.9500000000000002, -0.25000000000000017);
        (4.9500000000000002, -0.25000000000000017)].
Proof.
  split; [vm_compute; reflexivity|]. split; [vm_compute; reflexivity|].
  split; [vm_compute; reflexivity|].
  split; [vm_compute; discriminate|]. vm_compute. reflexivity.
Qed.

End Layout.

(** ** CodeBlockExtractor: the fence pattern *)

Lemma includes_cons p c s :
  includes p (c :: s) = startsWith p (c :: s) || includes p s.
Proof. reflexivity. Qed.

Lemma includes_nil p : includes p [] = startsWith p [].
Proof. cbn [includes]. now rewrite orb_false_r. Qed.

Lemma startsWith_trans q pat s :
  startsWith pat s = true -> startsWith q pat = true -> startsWith q s = true.
Proof.
  intros H1 H2.
  apply startsWith_inv in H1 as [r ->]. apply startsWith_inv in H2 as [r' ->].
  rewrite <- app_assoc. apply startsWith_app.
Qed.

Lemma startsWith_backtick s :
  startsWith [BACKTICK] s = false -> startsWith fence s = false.
Proof.
  destruct s as [|x s]; [reflexivity|].
  unfold fence, BACKTICK. rewrite !startsWith_cons.
  change (startsWith [] s) with true. rewrite andb_true_r.
  now intros ->.
Qed.

(** A fence cannot straddle the end of [y] when what follows does not
    begin with a backtick. *)
Lemma startsWith_fence_app y s :
  startsWith [BACKTICK] s = false ->
  startsWith fence (y ++ s) = startsWith fence y.
Proof.
  intros Hs. unfold BACKTICK in *.
  assert (H1 : forall q, startsWith (96%N :: q) s = false).
  { intros q. destruct s as [|x s]; [reflexivity|].
    rewrite startsWith_cons in Hs |- *.
    change (startsWith [] s) with true in Hs. rewrite andb_true_r in Hs.
    now rewrite Hs. }
  destruct y as [|a [|b [|c y]]]; cbn [app]; unfold fence.
  - rewrite (H1 [96%N; 96%N]). reflexivity.
  - rewrite !startsWith_cons. rewrite (H1 [96%N]).
    change (startsWith [96%N; 96%N] []) with false. reflexivity.
  - rewrite !startsWith_cons. rewrite (H1 []).
    change (startsWith [96%N] []) with false. reflexivity.
  - rewrite !startsWith_cons. reflexivity.
Qed.

Lemma fenceHere_none s : startsWith fence s = false -> fenceHere s = None.
Proof. intros H. unfold fenceHere. now rewrite H. Qed.

Lemma execFence_cons_none c s :
  startsWith fence (c :: s) = false -> execFence (c :: s) = execFence s.
Proof. intros H. cbn [execFence]. now rewrite (fenceHere_none _ H). Qed.

Lemma execFence_skip l :
  forall s,
    includes fence l = false ->
    startsWith [BACKTICK] s = false ->
    execFence (l ++ s) = execFence s.
Proof.
  induction l as [|c l IH]; intros s Hl Hs; [reflexivity|].
  rewrite includes_cons in Hl. apply orb_false_iff in Hl as [Hc Hl].
  cbn [app]. rewrite execFence_cons_none.
  - now apply IH.
  - change (c :: l ++ s) with ((c :: l) ++ s).
    now rewrite startsWith_fence_app.
Qed.

Lemma execFence_nl s : execFence (NL :: s) = execFence s.
Proof. now apply execFence_cons_none. Qed.

Lemma execFence_no_fence s : includes fence s = false -> execFence s = None.
Proof.
  intros H. rewrite <- (app_nil_r s). now rewrite execFence_skip.
Qed.

(** With the closing fence where [closesAtEnd] puts it, the lazy body is
    the text inside. *)
Lemma startsWith_fence_closing y R :
  y <> [] ->
  startsWith fence (y ++ fence ++ R) = startsWith fence (y ++ [BACKTICK; BACKTICK]).
Proof.
  intros Hy.
  destruct y as [|a [|b [|c y]]]; [congruence| | |]; cbn [app]; unfold fence;
    rewrite !startsWith_cons; cbn [startsWith]; reflexivity.
Qed.

Lemma breakAtFence_closes inner R :
  closesAtEnd inner = true ->
  breakAtFence (inner ++ fence ++ R) = Some (inner, R).
Proof.
  unfold closesAtEnd. rewrite negb_true_iff.
  induction inner as [|c inner IH]; intros H.
  - change ([] ++ fence ++ R) with (96%N :: 96%N :: 96%N :: R).
    cbn [breakAtFence].
    change (startsWith fence (96%N :: 96%N :: 96%N :: R)) with true.
    reflexivity.
  - cbn [app] in H |- *. rewrite includes_cons in H.
    apply orb_false_iff in H as [Hc H].
    cbn [breakAtFence].
    change (c :: inner ++ fence ++ R) with ((c :: inner) ++ fence ++ R).
    rewrite startsWith_fence_closing by discriminate.
    change ((c :: inner) ++ [BACKTICK; BACKTICK])
      with (c :: inner ++ [BACKTICK; BACKTICK]).
    rewrite Hc. now rewrite (IH H).
Qed.

Lemma fenceHere_fenced l inner R :
  forallb isWord l = true ->
  closesAtEnd inner = true ->
  fenceHere (fenced l inner ++ R) = Some (mkFenceMatch (fenced l inner) l inner R).
Proof.
  intros Hl Hi. unfold fenceHere, fenced.
  rewrite <- !app_assoc. rewrite startsWith_app.
  change (skipn 3 (fence ++ l ++ [NL] ++ inner ++ fence ++ R))
    with (l ++ [NL] ++ inner ++ fence ++ R).
  rewrite (takeWhile_app _ isWord l _ Hl), (dropWhile_app _ isWord l _ Hl).
  cbn [app takeWhile dropWhile].
  change (isWord NL) with false. cbv iota.
  change (NL =? 13)%N with false. cbv iota.
  change (NL =? 10)%N with true. cbv iota.
  rewrite (breakAtFence_closes inner R Hi).
  now rewrite !app_nil_r.
Qed.

Lemma execFence_fenced l inner R :
  forallb isWord l = true ->
  closesAtEnd inner = true ->
  execFence (fenced l inner ++ R) = Some (mkFenceMatch (fenced l inner) l inner R).
Proof.
  intros Hl Hi.
  pose proof (fenceHere_fenced l inner R Hl Hi) as H.
  destruct (fenced l inner ++ R) eqn:E; cbn [execFence]; now rewrite H.
Qed.

(** The pattern of [replace] is found past a text without fence. *)
Lemma replaceFirst_skip pat rep l :
  forall s,
    startsWith fence pat = true ->
    includes fence l = false ->
    startsWith [BACKTICK] s = false ->
    replaceFirst pat rep (l ++ s) = l ++ replaceFirst pat rep s.
Proof.
  intros s Hp. induction l as [|c l IH]; intros Hl Hs; [reflexivity|].
  rewrite includes_cons in Hl. apply orb_false_iff in Hl as [Hc Hl].
  cbn [app replaceFirst].
  destruct (startsWith pat (c :: l ++ s)) eqn:Hm.
  - pose proof (startsWith_trans fence _ _ Hm Hp) as Hf.
    change (c :: l ++ s) with ((c :: l) ++ s) in Hf.
    rewrite startsWith_fence_app in Hf by exact Hs. congruence.
  - now rewrite IH.
Qed.

Lemma replaceFirst_nl pat rep s :
  startsWith fence pat = true ->
  replaceFirst pat rep (NL :: s) = NL :: replaceFirst pat rep s.
Proof.
  intros Hp. cbn [replaceFirst].
  destruct (startsWith pat (NL :: s)) eqn:Hm; [|reflexivity].
  pose proof (startsWith_trans fence _ _ Hm Hp) as Hf. discriminate Hf.
Qed.

Lemma replaceFirst_here pat rep s :
  replaceFirst pat rep (pat ++ s) = rep ++ s.
Proof.
  destruct (pat ++ s) eqn:E.
  - destruct pat; [|discriminate]. cbn in E. subst. reflexivity.
  - cbn [replaceFirst]. rewrite <- E, startsWith_app.
    f_equal. clear. induction pat; [reflexivity|exact IHpat].
Qed.

(** ** Lines *)

Lemma unlines_cons2 x y rest :
  unlines (x :: y :: rest) = x ++ NL :: unlines (y :: rest).
Proof. reflexivity. Qed.

Lemma unlines_cons x rest : unlines (x :: rest) = x ++ sfx rest.
Proof.
  revert x. induction rest as [|y rest IH]; intros x.
  - cbn. now rewrite app_nil_r.
  - rewrite unlines_cons2, IH. reflexivity.
Qed.

Lemma unlines_app a x b : unlines (a ++ x :: b) = pfx a ++ unlines (x :: b).
Proof.
  induction a as [|y a IH]; [reflexivity|].
  cbn [app]. destruct (a ++ x :: b) as [|z r] eqn:E.
  - apply app_eq_nil in E as [_ E]. discriminate.
  - rewrite unlines_cons2, IH. unfold pfx. cbn [List.map concat].
    rewrite <- !app_assoc. reflexivity.
Qed.

Lemma unlines_two pre x mid y post :
  unlines (pre ++ x :: mid ++ y :: post)
  = pfx pre ++ x ++ NL :: pfx mid ++ y ++ sfx post.
Proof.
  rewrite unlines_app. f_equal.
  destruct (mid ++ y :: post) as [|z r] eqn:E.
  - apply app_eq_nil in E as [_ E]. discriminate.
  - rewrite unlines_cons2, <- E, unlines_app, unlines_cons. reflexivity.
Qed.

Lemma splitOn_cons sep c s :
  splitOn sep (c :: s) =
  if (c =? sep)%N then [] :: splitOn sep s
  else match splitOn sep s with
       | piece :: more => (c :: piece) :: more
       | [] => [[c]]
       end.
Proof. reflexivity. Qed.

Lemma lines_noNL l : noNL l = true -> lines l = [l].
Proof.
  unfold noNL, lines. rewrite negb_true_iff.
  induction l as [|c l IH]; intros H; [reflexivity|].
  cbn [existsb] in H. apply orb_false_iff in H as [Hc H].
  rewrite splitOn_cons, N.eqb_sym, Hc. now rewrite (IH H).
Qed.

Lemma lines_app_nl l s : noNL l = true -> lines (l ++ NL :: s) = l :: lines s.
Proof.
  unfold noNL, lines. rewrite negb_true_iff.
  induction l as [|c l IH]; intros H.
  - cbn [app]. rewrite splitOn_cons, N.eqb_refl. reflexivity.
  - cbn [existsb] in H. apply orb_false_iff in H as [Hc H].
    cbn [app]. rewrite splitOn_cons, N.eqb_sym, Hc. now rewrite (IH H).
Qed.

Lemma lines_unlines ls :
  ls <> [] -> forallb noNL ls = true -> lines (unlines ls) = ls.
Proof.
  induction ls as [|l ls IH]; intros Hne H; [congruence|].
  cbn [forallb] in H. apply andb_true_iff in H as [Hl H].
  destruct ls as [|l' ls].
  - now apply lines_noNL.
  - rewrite unlines_cons2, (lines_app_nl _ _ Hl). f_equal.
    apply IH; [discriminate|exact H].
Qed.

(** The pieces of a split hold no separator. *)
Lemma splitOn_noSep sep s :
  Forall (fun l => existsb (N.eqb sep) l = false) (splitOn sep s).
Proof.
  induction s as [|c s IH]; [repeat constructor|].
  rewrite splitOn_cons. destruct (c =? sep)%N eqn:Hc.
  - constructor; [reflexivity|exact IH].
  - destruct (splitOn sep s) as [|p more]; [repeat constructor|].
    + cbn [existsb]. now rewrite N.eqb_sym, Hc.
    + inversion IH; subst. constructor; [|assumption].
      cbn [existsb]. rewrite N.eqb_sym, Hc. assumption.
Qed.

Lemma lines_all_noNL s : forallb noNL (lines s) = true.
Proof.
  apply forallb_forall. intros l Hl.
  pose proof (splitOn_noSep NL s) as H. rewrite Forall_forall in H.
  unfold noNL. now rewrite (H _ Hl).
Qed.

Lemma lines_nonempty s : lines s <> [].
Proof.
  unfold lines. induction s as [|c s IH]; [discriminate|].
  rewrite splitOn_cons. destruct (c =? NL)%N; [discriminate|].
  destruct (splitOn NL s); discriminate.
Qed.

(** ** Decimal numerals and placeholders *)

Lemma string_of_uint_digits d :
  forallb isDigit (lit (NilEmpty.string_of_uint d)) = true.
Proof.
  induction d; cbn [NilEmpty.string_of_uint]; try reflexivity;
    unfold lit in *; cbn [list_ascii_of_string List.map forallb];
    rewrite IHd; reflexivity.
Qed.

Lemma ofNat_digits n : forallb isDigit (ofNat n) = true.
Proof. apply string_of_uint_digits. Qed.

Lemma hasToken_In p s c : hasToken p s = true -> In c p -> In c s.
Proof.
  intros H Hc. induction s as [|x s IH].
  - cbn [hasToken] in H. rewrite orb_false_r in H.
    unfold tokenHere in H. apply andb_true_iff in H as [H _].
    apply startsWith_inv in H as [r Hr].
    destruct p; [contradiction|discriminate].
  - cbn [hasToken] in H. apply orb_true_iff in H as [H|H].
    + unfold tokenHere in H. apply andb_true_iff in H as [H _].
      apply startsWith_inv in H as [r ->]. apply in_or_app. now left.
    + right. now apply IH.
Qed.

Lemma digits_not (c : char) ds :
  forallb isDigit ds = true -> isDigit c = false -> ~ In c ds.
Proof.
  intros H Hc Hin. rewrite forallb_forall in H. apply H in Hin. congruence.
Qed.

Lemma tablePlaceholder_no_code n : codeMatch (tablePlaceholder n) = false.
Proof.
  destruct (codeMatch (tablePlaceholder n)) eqn:H; [|reflexivity].
  exfalso. unfold codeMatch in H.
  assert (Hc : In 67%N (lit "__CODE_BLOCK_")) by (vm_compute; tauto).
  pose proof (hasToken_In _ _ _ H Hc) as Hin.
  unfold tablePlaceholder in Hin.
  apply in_app_or in Hin as [Hin|Hin].
  - vm_compute in Hin. intuition discriminate.
  - apply in_app_or in Hin as [Hin|Hin].
    + now apply (digits_not 67%N _ (ofNat_digits n)) in Hin.
    + vm_compute in Hin. intuition discriminate.
Qed.

Lemma tablePlaceholder_noNL n : noNL (tablePlaceholder n) = true.
Proof.
  unfold noNL. apply negb_true_iff.
  destruct (existsb (N.eqb NL) (tablePlaceholder n)) eqn:H; [|reflexivity].
  exfalso. apply existsb_exists in H as (c & Hin & Hc).
  apply N.eqb_eq in Hc. subst c.
  unfold tablePlaceholder in Hin.
  apply in_app_or in Hin as [Hin|Hin].
  - vm_compute in Hin. intuition discriminate.
  - apply in_app_or in Hin as [Hin|Hin].
    + now apply (digits_not NL _ (ofNat_digits n)) in Hin.
    + vm_compute in Hin. intuition discriminate.
Qed.

Lemma codeOf_tablePlaceholder cbs n : codeOf cbs (tablePlaceholder n) = [].
Proof. unfold codeOf. now rewrite tablePlaceholder_no_code. Qed.

(** ** The code elements of a parse *)

Section CodeOfWalk.

Variable cbs : list CodeBlock.
Variable tbls : list TableBlock.

Lemma codeElements_app a b :
  codeElements (a ++ b) = codeElements a ++ codeElements b.
Proof. apply filter_app. Qed.

Lemma flushText_code w :
  codeElements (elements (flushText w)) = codeElements (elements w).
Proof.
  destruct (flushText_elements w) as [->|[c ->]]; [reflexivity|].
  rewrite codeElements_app. cbn. now rewrite app_nil_r.
Qed.

Lemma flushBullets_code w :
  codeElements (elements (flushBullets w)) = codeElements (elements w).
Proof.
  destruct (flushBullets_elements w) as [->|[c ->]]; [reflexivity|].
  rewrite codeElements_app. cbn. now rewrite app_nil_r.
Qed.

Lemma walkLine_code w line :
  codeElements (elements (walkLine cbs tbls w line))
  = codeElements (elements w) ++ codeOf cbs line.
Proof.
  unfold walkLine, codeOf.
  destruct (codeMatch line).
  { destruct (find _ cbs) as [cb|]; cbn [option_map push elements].
    - rewrite codeElements_app, flushBullets_code, flushText_code. reflexivity.
    - now rewrite flushBullets_code, flushText_code, app_nil_r. }
  rewrite app_nil_r.
  destruct (tableMatch line).
  { destruct (find _ tbls) as [t|]; cbn [option_map push elements].
    - rewrite codeElements_app, flushBullets_code, flushText_code.
      cbn. now rewrite app_nil_r.
    - now rewrite flushBullets_code, flushText_code. }
  destruct (isBulletLine line); [cbn [elements]; apply flushText_code|].
  destruct (truthy (trim line)); [cbn [elements]; apply flushBullets_code|].
  now rewrite flushBullets_code, flushText_code.
Qed.

Lemma fold_walkLine_code ls :
  forall w,
    codeElements (elements (fold_left (walkLine cbs tbls) ls w))
    = codeElements (elements w) ++ flat_map (codeOf cbs) ls.
Proof.
  induction ls as [|l ls IH]; intros w; cbn [fold_left flat_map].
  - now rewrite app_nil_r.
  - now rewrite IH, walkLine_code, <- app_assoc.
Qed.

(** The code elements of a walk, in order: one for each line that is a
    placeholder of a code block. *)
Lemma walkLines_code ls :
  codeElements (walkLines cbs tbls ls) = flat_map (codeOf cbs) ls.
Proof.
  unfold walkLines.
  now rewrite flushBullets_code, flushText_code, fold_walkLine_code.
Qed.

End CodeOfWalk.

Lemma length_dropWhile (A : Type) (p : A -> bool) l :
  length (dropWhile p l) <= length l.
Proof.
  induction l as [|x l IH]; [reflexivity|].
  cbn [dropWhile]. destruct (p x); cbn [length]; lia.
Qed.

Lemma flat_map_nil (A B : Type) (f : A -> list B) l :
  (forall x, In x l -> f x = []) -> flat_map f l = [].
Proof.
  induction l as [|x l IH]; intros H; [reflexivity|].
  cbn [flat_map]. rewrite (H x (or_introl eq_refl)).
  apply IH. intros y Hy. apply H. now right.
Qed.

(** The table loop keeps the code placeholders: the lines it removes or
    replaces are lines that start with a pipe. *)
Lemma extractTables_code cbs fuel :
  forall ls tables newLines,
    length ls <= fuel ->
    (forall l, In l ls -> startsPipe l = true -> codeOf cbs l = []) ->
    flat_map (codeOf cbs) (snd (extractTables fuel ls tables newLines))
    = flat_map (codeOf cbs) newLines ++ flat_map (codeOf cbs) ls.
Proof.
  induction fuel as [|fuel IH]; intros ls tables newLines Hf Hp.
  { destruct ls; [|cbn in Hf; lia]. cbn. now rewrite app_nil_r. }
  destruct ls as [|line rest].
  { cbn. now rewrite app_nil_r. }
  cbn [extractTables]. cbn [length] in Hf.
  destruct (isPipeLine line) eqn:Hl.
  - pose proof (isPipeLine_startsPipe _ Hl) as Hs.
    set (tableLines := takeWhile startsPipe (line :: rest)).
    set (ls' := dropWhile startsPipe (line :: rest)).
    assert (Hsplit : line :: rest = tableLines ++ ls')
      by (symmetry; apply takeWhile_dropWhile).
    assert (Hlen : length ls' <= fuel).
    { subst ls'. cbn [dropWhile]. rewrite Hs.
      pose proof (length_dropWhile _ startsPipe rest). lia. }
    assert (Hblock : flat_map (codeOf cbs) tableLines = []).
    { apply flat_map_nil. intros l Hin. apply Hp.
      - rewrite Hsplit. apply in_or_app. now left.
      - pose proof (takeWhile_all _ startsPipe (line :: rest)) as Ha.
        rewrite forallb_forall in Ha. now apply Ha. }
    assert (Hp' : forall l, In l ls' -> startsPipe l = true -> codeOf cbs l = []).
    { intros l Hin. apply Hp. rewrite Hsplit. apply in_or_app. now right. }
    assert (Hgoal : flat_map (codeOf cbs) (line :: rest)
                    = flat_map (codeOf cbs) ls').
    { rewrite Hsplit, flat_map_app, Hblock. reflexivity. }
    rewrite Hgoal.
    destruct (2 <=? length tableLines).
    + destruct (tableRows true tableLines).
      * now apply IH.
      * rewrite IH by assumption. rewrite flat_map_app.
        cbn [flat_map]. rewrite codeOf_tablePlaceholder.
        now rewrite !app_nil_r.
    + now apply IH.
  - rewrite IH.
    + rewrite flat_map_app. cbn [flat_map].
      now rewrite app_nil_r, <- app_assoc.
    + lia.
    + intros l Hin. apply Hp. now right.
Qed.

(** Every line the table loop hands on is free of line feeds when the
    lines it is given are. *)
Lemma extractTables_noNL fuel :
  forall ls tables newLines,
    forallb noNL ls = true ->
    forallb noNL newLines = true ->
    forallb noNL (snd (extractTables fuel ls tables newLines)) = true.
Proof.
  induction fuel as [|fuel IH]; intros ls tables newLines Hls Hnl; [exact Hnl|].
  destruct ls as [|line rest]; [exact Hnl|].
  cbn [extractTables].
  assert (Hdrop : forall l, forallb noNL l = true ->
                            forallb noNL (dropWhile startsPipe l) = true).
  { intros l. induction l as [|x l IHl]; intros H; [reflexivity|].
    cbn [dropWhile]. destruct (startsPipe x); [|exact H].
    cbn [forallb] in H. apply andb_true_iff in H as [_ H]. now apply IHl. }
  destruct (isPipeLine line).
  - destruct (2 <=? length (takeWhile startsPipe (line :: rest))).
    + destruct (tableRows true (takeWhile startsPipe (line :: rest))).
      * apply IH; [now apply Hdrop|exact Hnl].
      * apply IH; [now apply Hdrop|].
        rewrite forallb_app, Hnl. cbn [forallb].
        now rewrite tablePlaceholder_noNL.
    + apply IH; [now apply Hdrop|exact Hnl].
  - cbn [forallb] in Hls. apply andb_true_iff in Hls as [Hl Hr].
    apply IH; [exact Hr|].
    rewrite forallb_app, Hnl. cbn [forallb]. now rewrite Hl.
Qed.

(** From the working text to the code elements. *)
Lemma walk_of_working_text cbs w :
  (forall l, In l (lines w) -> startsPipe l = true -> codeOf cbs l = []) ->
  codeElements
    (walkLines cbs (fst (tablesOf w)) (lines (unlines (snd (tablesOf w)))))
  = flat_map (codeOf cbs) (lines w).
Proof.
  intros Hp. rewrite walkLines_code.
  unfold tablesOf.
  pose proof (extractTables_code cbs (length (lines w)) (lines w) [] []
                (le_n _) Hp) as Hc.
  pose proof (extractTables_noNL (length (lines w)) (lines w) [] []
                (lines_all_noNL w) eq_refl) as Hn.
  destruct (snd (extractTables (length (lines w)) (lines w) [] [])) as [|l nl] eqn:E.
  - cbn [flat_map app] in Hc. rewrite <- Hc. reflexivity.
  - rewrite lines_unlines; [exact Hc|discriminate|exact Hn].
Qed.

(** *** Two fenced blocks on lines of their own *)

Lemma proseLine_inv l :
  proseLine l = true ->
  includes fence l = false /\ codeMatch l = false /\ noNL l = true.
Proof.
  unfold proseLine. intros H.
  apply andb_true_iff in H as [H H3]. apply andb_true_iff in H as [H1 H2].
  apply negb_true_iff in H1, H2. now repeat split.
Qed.

Lemma execFence_pfx ls X :
  forallb proseLine ls = true -> execFence (pfx ls ++ X) = execFence X.
Proof.
  induction ls as [|l ls IH]; intros H; [reflexivity|].
  cbn [forallb] in H. apply andb_true_iff in H as [Hl H].
  apply proseLine_inv in Hl as (Hf & _ & _).
  unfold pfx. cbn [List.map concat]. rewrite <- !app_assoc. cbn [app].
  rewrite execFence_skip by (exact Hf || reflexivity).
  rewrite execFence_nl. now apply IH.
Qed.

Lemma sfx_head ls : startsWith [BACKTICK] (sfx ls) = false.
Proof. destruct ls; reflexivity. Qed.

Lemma execFence_sfx ls :
  forallb proseLine ls = true -> execFence (sfx ls) = None.
Proof.
  induction ls as [|l ls IH]; intros H; [reflexivity|].
  cbn [forallb] in H. apply andb_true_iff in H as [Hl H].
  apply proseLine_inv in Hl as (Hf & _ & _).
  unfold sfx. cbn [List.map concat]. cbn [app].
  rewrite execFence_nl.
  rewrite execFence_skip by (exact Hf || apply sfx_head).
  now apply IH.
Qed.

Lemma startsWith_fenced l inner : startsWith fence (fenced l inner) = true.
Proof. apply startsWith_app. Qed.

Lemma replaceFirst_pfx pat rep ls X :
  startsWith fence pat = true ->
  forallb proseLine ls = true ->
  replaceFirst pat rep (pfx ls ++ X) = pfx ls ++ replaceFirst pat rep X.
Proof.
  intros Hp. induction ls as [|l ls IH]; intros H; [reflexivity|].
  cbn [forallb] in H. apply andb_true_iff in H as [Hl H].
  apply proseLine_inv in Hl as (Hf & _ & _).
  unfold pfx. cbn [List.map concat]. rewrite <- !app_assoc. cbn [app].
  rewrite replaceFirst_skip by (exact Hp || exact Hf || reflexivity).
  rewrite replaceFirst_nl by exact Hp.
  f_equal. f_equal. now apply IH.
Qed.

Lemma fenceMatches_two fuel body m1 m2 :
  3 <= fuel ->
  execFence body = Some m1 ->
  execFence (after m1) = Some m2 ->
  execFence (after m2) = None ->
  fenceMatches fuel body = [m1; m2].
Proof.
  intros Hf H1 H2 H3.
  destruct fuel as [|[|[|fuel]]]; try lia.
  cbn [fenceMatches]. now rewrite H1, H2, H3.
Qed.

Lemma codeOf_prose cbs l : proseLine l = true -> codeOf cbs l = [].
Proof.
  intros H. apply proseLine_inv in H as (_ & Hc & _).
  unfold codeOf. now rewrite Hc.
Qed.

Lemma flat_map_codeOf_prose cbs ls :
  forallb proseLine ls = true -> flat_map (codeOf cbs) ls = [].
Proof.
  intros H. apply flat_map_nil. intros l Hl.
  rewrite forallb_forall in H. now apply codeOf_prose, H.
Qed.

Lemma codePlaceholder_prose0 : proseLine (codePlaceholder 0) = false
  /\ includes fence (codePlaceholder 0) = false
  /\ noNL (codePlaceholder 0) = true
  /\ startsPipe (codePlaceholder 0) = false
  /\ codeMatch (codePlaceholder 0) = true
  /\ trim (codePlaceholder 0) = codePlaceholder 0.
Proof. repeat split; vm_compute; reflexivity. Qed.

Lemma codePlaceholder_prose1 : proseLine (codePlaceholder 1) = false
  /\ includes fence (codePlaceholder 1) = false
  /\ noNL (codePlaceholder 1) = true
  /\ startsPipe (codePlaceholder 1) = false
  /\ codeMatch (codePlaceholder 1) = true
  /\ trim (codePlaceholder 1) = codePlaceholder 1.
Proof. repeat split; vm_compute; reflexivity. Qed.

Lemma two_fences_code pre mid post l1 inner1 l2 inner2 :
  forallb proseLine pre = true ->
  forallb proseLine mid = true ->
  forallb proseLine post = true ->
  forallb isWord l1 = true -> closesAtEnd inner1 = true ->
  forallb isWord l2 = true -> closesAtEnd inner2 = true ->
  codeElements
    (parseContentElements
       (unlines (pre ++ fenced l1 inner1 :: mid ++ fenced l2 inner2 :: post)))
  = [CodeEl (orText l1) (trim inner1); CodeEl (orText l2) (trim inner2)].
Proof.
  intros Hpre Hmid Hpost Hl1 Hi1 Hl2 Hi2.
  set (F1 := fenced l1 inner1). set (F2 := fenced l2 inner2).
  set (ph0 := codePlaceholder 0). set (ph1 := codePlaceholder 1).
  set (body := unlines (pre ++ F1 :: mid ++ F2 :: post)).
  set (R1 := NL :: pfx mid ++ F2 ++ sfx post).
  assert (Hbody : body = pfx pre ++ F1 ++ R1) by apply unlines_two.
  set (m1 := mkFenceMatch F1 l1 inner1 R1).
  set (m2 := mkFenceMatch F2 l2 inner2 (sfx post)).
  assert (E1 : execFence body = Some m1).
  { rewrite Hbody, execFence_pfx by exact Hpre.
    now apply execFence_fenced. }
  assert (E2 : execFence (after m1) = Some m2).
  { cbn [after m1]. unfold R1. rewrite execFence_nl.
    rewrite execFence_pfx by exact Hmid. now apply execFence_fenced. }
  assert (E3 : execFence (after m2) = None).
  { cbn [after m2]. now apply execFence_sfx. }
  assert (Hlen : 3 <= S (length body)).
  { rewrite Hbody, !length_app. unfold F1, fenced.
    rewrite !length_app. cbn [length fence]. lia. }
  pose proof (fenceMatches_two _ body m1 m2 Hlen E1 E2 E3) as Hms.
  set (W2 := unlines (pre ++ ph0 :: mid ++ ph1 :: post)).
  set (cbs := [mkCodeBlock ph0 (orText l1) (trim inner1);
               mkCodeBlock ph1 (orText l2) (trim inner2)]).
  assert (Hcb : codeBlocksOf body = (cbs, W2)).
  { unfold codeBlocksOf. rewrite Hms. cbn [extractCode whole lang inner m1 m2].
    fold ph0 ph1. f_equal.
    rewrite Hbody.
    rewrite replaceFirst_pfx by (exact Hpre || apply startsWith_fenced).
    rewrite replaceFirst_here. unfold R1.
    change (pfx pre ++ ph0 ++ NL :: pfx mid ++ F2 ++ sfx post)
      with (pfx pre ++ ph0 ++ NL :: (pfx mid ++ F2 ++ sfx post)).
    assert (Hstep : replaceFirst F2 ph1
                      (pfx pre ++ ph0 ++ NL :: pfx mid ++ F2 ++ sfx post)
                    = pfx pre ++ ph0 ++ NL :: pfx mid ++ ph1 ++ sfx post).
    { rewrite replaceFirst_pfx by (exact Hpre || apply startsWith_fenced).
      f_equal.
      rewrite replaceFirst_skip;
        [|apply startsWith_fenced|apply codePlaceholder_prose0|reflexivity].
      f_equal.
      rewrite replaceFirst_nl by apply startsWith_fenced. f_equal.
      rewrite replaceFirst_pfx by (exact Hmid || apply startsWith_fenced).
      now rewrite replaceFirst_here. }
    rewrite Hstep. unfold W2. now rewrite unlines_two. }
  unfold parseContentElements. rewrite Hcb.
  destruct (tablesOf W2) as [tbls newLines] eqn:Et.
  change tbls with (fst (tbls, newLines)).
  change newLines with (snd (tbls, newLines)) at 2.
  rewrite <- Et.
  assert (HL : lines W2 = pre ++ ph0 :: mid ++ ph1 :: post).
  { unfold W2. apply lines_unlines.
    - intros E. apply app_eq_nil in E as [_ E]. discriminate.
    - rewrite forallb_app. cbn [forallb]. rewrite forallb_app. cbn [forallb].
      assert (Hn : forall ls, forallb proseLine ls = true -> forallb noNL ls = true).
      { intros ls H. apply forallb_forall. intros l Hl.
        rewrite forallb_forall in H. now apply proseLine_inv, H. }
      rewrite (Hn _ Hpre), (Hn _ Hmid), (Hn _ Hpost).
      destruct codePlaceholder_prose0 as (_ & _ & Hn0 & _).
      destruct codePlaceholder_prose1 as (_ & _ & Hn1 & _).
      fold ph0 in Hn0. fold ph1 in Hn1. now rewrite Hn0, Hn1. }
  rewrite walk_of_working_text.
  - rewrite HL. rewrite flat_map_app. cbn [flat_map]. rewrite flat_map_app.
    cbn [flat_map].
    rewrite !flat_map_codeOf_prose by assumption.
    cbn [app]. unfold codeOf.
    destruct codePlaceholder_prose0 as (_ & _ & _ & _ & Hc0 & Ht0).
    destruct codePlaceholder_prose1 as (_ & _ & _ & _ & Hc1 & Ht1).
    fold ph0 ph1 in Hc0, Ht0, Hc1, Ht1.
    rewrite Hc0, Hc1, Ht0, Ht1. unfold cbs. cbn [find placeholder].
    rewrite !str_eqb_refl.
    change (str_eqb ph0 ph1) with false. cbv iota.
    cbn [language code]. reflexivity.
  - rewrite HL. intros l Hin Hs.
    apply in_app_or in Hin as [Hin|[<-|Hin]].
    + rewrite forallb_forall in Hpre. now apply codeOf_prose, Hpre.
    + destruct codePlaceholder_prose0 as (_ & _ & _ & Hp & _).
      fold ph0 in Hp. congruence.
    + apply in_app_or in Hin as [Hin|[<-|Hin]].
      * rewrite forallb_forall in Hmid. now apply codeOf_prose, Hmid.
      * destruct codePlaceholder_prose1 as (_ & _ & _ & Hp & _).
        fold ph1 in Hp. congruence.
      * rewrite forallb_forall in Hpost. now apply codeOf_prose, Hpost.
Qed.

(** ** Text that reaches the result *)

Lemma includes_start p s : startsWith p s = true -> includes p s = true.
Proof. intros H. destruct s; cbn [includes]; now rewrite H. Qed.

Lemma includes_app p a b : includes p (a ++ p ++ b) = true.
Proof.
  induction a as [|c a IH].
  - cbn [app]. apply includes_start, startsWith_app.
  - cbn [app]. rewrite includes_cons, IH. apply orb_true_r.
Qed.

Lemma dropWhile_head (A : Type) (p : A -> bool) s c r :
  dropWhile p s = c :: r -> p c = false.
Proof.
  induction s as [|x s IH]; [discriminate|].
  cbn [dropWhile]. destruct (p x) eqn:Hx; [exact IH|].
  now intros [= <- _].
Qed.

Lemma dropWhile_stop (A : Type) (p : A -> bool) a c r :
  p c = false -> exists a', dropWhile p (a ++ c :: r) = a' ++ c :: r.
Proof.
  intros Hc. induction a as [|x a IH].
  - exists []. cbn [app dropWhile]. now rewrite Hc.
  - cbn [app dropWhile]. destruct (p x); [exact IH|].
    now exists (x :: a).
Qed.

Lemma trimStart_split l : l = takeWhile isSpace l ++ trimStart l.
Proof. symmetry. apply takeWhile_dropWhile. Qed.

Lemma trimEnd_split s : exists b, s = trimEnd s ++ b.
Proof.
  exists (rev (takeWhile isSpace (rev s))). unfold trimEnd.
  rewrite <- rev_app_distr, takeWhile_dropWhile. now rewrite rev_involutive.
Qed.

(** A trimmed text that is not empty begins and ends with a character
    that is no white space. *)
Lemma trim_ends l :
  truthy (trim l) = true ->
  exists c t d u,
    trim l = c :: t /\ isSpace c = false
    /\ trim l = u ++ [d] /\ isSpace d = false.
Proof.
  intros H. unfold trim in *.
  destruct (trimEnd_split (trimStart l)) as [b Hb].
  destruct (trimEnd (trimStart l)) as [|c t] eqn:E; [discriminate|].
  assert (Hc : isSpace c = false).
  { unfold trimStart in Hb. cbn [app] in Hb.
    apply (dropWhile_head _ isSpace l c (t ++ b) Hb). }
  unfold trimEnd in E.
  destruct (dropWhile isSpace (rev (trimStart l))) as [|d u] eqn:Ed.
  { discriminate E. }
  pose proof (dropWhile_head _ _ _ _ _ Ed) as Hd.
  exists c, t, d, (rev u). repeat split; try assumption.
  rewrite <- E. reflexivity.
Qed.

(** Trimming a text keeps every trimmed line of it. *)
Lemma trim_keeps_core x l y :
  truthy (trim l) = true ->
  includes (trim l) (trim (x ++ l ++ y)) = true.
Proof.
  intros H.
  destruct (trim_ends l H) as (c & t & d & u & Hct & Hc & Hud & Hd).
  destruct (trimEnd_split (trimStart l)) as [b Hb]. fold (trim l) in Hb.
  assert (Hl : l = takeWhile isSpace l ++ trim l ++ b).
  { rewrite <- Hb. apply trimStart_split. }
  set (core := trim l) in *.
  rewrite Hl. rewrite <- !app_assoc.
  rewrite (app_assoc x). set (x' := x ++ takeWhile isSpace l).
  set (y' := b ++ y).
  unfold trim at 1.
  assert (Hs : exists x'', trimStart (x' ++ core ++ y') = x'' ++ core ++ y').
  { rewrite Hct. cbn [app]. apply dropWhile_stop. exact Hc. }
  destruct Hs as [x'' ->].
  unfold trimEnd. rewrite !rev_app_distr.
  replace (rev core) with (d :: rev u)
    by (rewrite Hud, rev_app_distr; reflexivity).
  rewrite <- app_assoc. cbn [app].
  destruct (dropWhile_stop _ isSpace (rev y') d (rev u ++ rev x'') Hd) as [y'' ->].
  rewrite rev_app_distr. cbn [rev]. rewrite rev_app_distr, !rev_involutive.
  rewrite <- !app_assoc. cbn [app].
  replace (u ++ d :: rev y'') with ((u ++ [d]) ++ rev y'')
    by (rewrite <- app_assoc; reflexivity).
  rewrite <- Hud.
  apply includes_app.
Qed.

Lemma unlines_In l tb : In l tb -> exists x y, unlines tb = x ++ l ++ y.
Proof.
  intros H. apply in_split in H as (a & b & ->).
  exists (pfx a), (sfx b). now rewrite unlines_app, unlines_cons.
Qed.

Section TextOfWalk.

Variable cbs : list CodeBlock.
Variable tbls : list TableBlock.
Variable l : str.
Hypothesis l_text : truthy (trim l) = true.

Lemma flushText_emitted w : held l w -> emitted l (flushText w).
Proof.
  intros [Hin|(c & Hc & Hi)]; unfold flushText.
  - destruct (currentTextBlock w) as [|t tb] eqn:E; [contradiction|].
    exists (trim (unlines (t :: tb))). cbn [elements]. split.
    + apply in_or_app. right. now left.
    + destruct (unlines_In l (t :: tb) Hin) as (x & y & ->).
      now apply trim_keeps_core.
  - exists c. split; [|exact Hi].
    destruct (currentTextBlock w); [exact Hc|].
    cbn [elements]. apply in_or_app. now left.
Qed.

Lemma flushBullets_held w : held l w -> held l (flushBullets w).
Proof.
  unfold held, emitted, flushBullets.
  destruct (currentBulletBlock w); [tauto|]. cbn [elements currentTextBlock].
  intros [H|(c & Hc & Hi)]; [now left|].
  right. exists c. split; [apply in_or_app; now left|exact Hi].
Qed.

Lemma flushBullets_emitted w : emitted l w -> emitted l (flushBullets w).
Proof.
  unfold emitted, flushBullets.
  destruct (currentBulletBlock w); [tauto|]. cbn [elements].
  intros (c & Hc & Hi). exists c. split; [apply in_or_app; now left|exact Hi].
Qed.

Lemma push_emitted e w : emitted l w -> emitted l (push e w).
Proof.
  unfold emitted, push. destruct e; [|tauto]. cbn [elements].
  intros (c & Hc & Hi). exists c. split; [apply in_or_app; now left|exact Hi].
Qed.

Lemma emitted_held w : emitted l w -> held l w.
Proof. intros H. now right. Qed.

Lemma walkLine_held w line : held l w -> held l (walkLine cbs tbls w line).
Proof.
  intros H. unfold walkLine.
  destruct (codeMatch line).
  { now apply emitted_held, push_emitted, flushBullets_emitted, flushText_emitted. }
  destruct (tableMatch line).
  { now apply emitted_held, push_emitted, flushBullets_emitted, flushText_emitted. }
  destruct (isBulletLine line).
  { apply flushText_emitted in H as (c & Hc & Hi).
    right. exists c. now split. }
  destruct (truthy (trim line)).
  { apply flushBullets_held in H as [H|(c & Hc & Hi)].
    - left. cbn [currentTextBlock]. apply in_or_app. now left.
    - right. exists c. now split. }
  now apply emitted_held, flushBullets_emitted, flushText_emitted.
Qed.

Lemma fold_walkLine_held ls :
  forall w, held l w -> held l (fold_left (walkLine cbs tbls) ls w).
Proof.
  induction ls as [|x ls IH]; intros w H; [exact H|].
  cbn [fold_left]. now apply IH, walkLine_held.
Qed.

(** A line that the walk takes as text is part of a text element of the
    result. *)
Lemma walkLines_text ls :
  In l ls ->
  codeMatch l = false -> tableMatch l = false -> isBulletLine l = false ->
  exists c, In (TextEl c) (walkLines cbs tbls ls) /\ includes (trim l) c = true.
Proof.
  intros Hin Hc Ht Hb.
  apply in_split in Hin as (a & b & ->).
  unfold walkLines. rewrite fold_left_app. cbn [fold_left].
  apply flushBullets_emitted, flushText_emitted, fold_walkLine_held.
  left. unfold walkLine. rewrite Hc, Ht, Hb, l_text.
  cbn [currentTextBlock]. apply in_or_app. right. now left.
Qed.

End TextOfWalk.

(** ** A fence that is not closed *)

(** The table loop hands on every line that does not start with a
    pipe. *)
Lemma extractTables_keeps fuel :
  forall ls tables newLines l,
    length ls <= fuel ->
    In l newLines \/ (In l ls /\ startsPipe l = false) ->
    In l (snd (extractTables fuel ls tables newLines)).
Proof.
  induction fuel as [|fuel IH]; intros ls tables newLines l Hf H.
  { destruct ls; [|cbn in Hf; lia]. destruct H as [H|[[] _]]. exact H. }
  destruct ls as [|line rest].
  { destruct H as [H|[[] _]]. exact H. }
  cbn [extractTables]. cbn [length] in Hf.
  destruct (isPipeLine line) eqn:Hl.
  - pose proof (isPipeLine_startsPipe _ Hl) as Hs.
    set (tableLines := takeWhile startsPipe (line :: rest)).
    set (ls' := dropWhile startsPipe (line :: rest)).
    assert (Hlen : length ls' <= fuel).
    { subst ls'. cbn [dropWhile]. rewrite Hs.
      pose proof (length_dropWhile _ startsPipe rest). lia. }
    assert (Hrest : In l newLines \/ In l ls' /\ startsPipe l = false).
    { destruct H as [H|[Hin Hp]]; [now left|]. right. split; [|exact Hp].
      rewrite <- (takeWhile_dropWhile _ startsPipe (line :: rest)) in Hin.
      apply in_app_or in Hin as [Hin|Hin]; [|exact Hin].
      pose proof (takeWhile_all _ startsPipe (line :: rest)) as Ha.
      rewrite forallb_forall in Ha. apply Ha in Hin. congruence. }
    destruct (2 <=? length tableLines).
    + destruct (tableRows true tableLines).
      * now apply IH.
      * apply IH; [exact Hlen|].
        destruct Hrest as [Hn|Hr]; [left; apply in_or_app; now left|now right].
    + now apply IH.
  - apply IH; [lia|].
    destruct H as [H|[[<-|Hin] Hp]].
    + left. apply in_or_app. now left.
    + left. apply in_or_app. right. now left.
    + right. now split.
Qed.

Lemma trim_head c s : isSpace c = false -> exists r, trim (c :: s) = c :: r.
Proof.
  intros Hc. unfold trim, trimStart. cbn [dropWhile]. rewrite Hc.
  unfold trimEnd. cbn [rev].
  destruct (dropWhile_stop _ isSpace (rev s) c [] Hc) as [a ->].
  exists (rev a). now rewrite rev_app_distr.
Qed.

Lemma nonspace_line c s :
  isSpace c = false -> (c =? PIPE)%N = false -> isBulletMark c = false ->
  startsPipe (c :: s) = false /\ isBulletLine (c :: s) = false
  /\ truthy (trim (c :: s)) = true.
Proof.
  intros Hc Hp Hb.
  destruct (trim_head c s Hc) as [r Hr].
  unfold startsPipe, isBulletLine. rewrite Hr.
  cbn [dropWhile]. rewrite Hc, Hb.
  rewrite startsWith_cons, N.eqb_sym, Hp. repeat split.
Qed.

(** A line that opens with a fence is no table line and no bullet line,
    and it is not blank. *)
Lemma fence_line l :
  startsWith fence l = true ->
  startsPipe l = false /\ isBulletLine l = false /\ truthy (trim l) = true.
Proof.
  intros H. apply startsWith_inv in H as [r ->].
  apply (nonspace_line 96%N (96%N :: 96%N :: r)); reflexivity.
Qed.

Lemma codeOf_nil l : codeOf [] l = [].
Proof. unfold codeOf. now destruct (codeMatch l). Qed.

Lemma fenceMatches_none fuel body :
  execFence body = None -> fenceMatches fuel body = [].
Proof. intros H. destruct fuel; cbn [fenceMatches]; now rewrite ?H. Qed.

Lemma unmatched_fence_is_text body l :
  In l (lines (snd (codeBlocksOf body))) ->
  startsWith fence l = true ->
  codeMatch l = false ->
  tableMatch l = false ->
  exists c, In (TextEl c) (parseContentElements body)
            /\ includes (trim l) c = true.
Proof.
  intros Hin Hf Hc Ht.
  destruct (fence_line l Hf) as (Hp & Hb & Hn).
  rewrite parseContentElements_eq. unfold finalLinesOf.
  set (w := snd (codeBlocksOf body)) in *.
  assert (Hkeep : In l (snd (tablesOf w))).
  { unfold tablesOf. apply extractTables_keeps; [apply le_n|]. right. now split. }
  assert (Hnl : forallb noNL (snd (tablesOf w)) = true).
  { unfold tablesOf. apply extractTables_noNL; [apply lines_all_noNL|reflexivity]. }
  rewrite lines_unlines; [|intros E; rewrite E in Hkeep; contradiction|exact Hnl].
  now apply walkLines_text.
Qed.

(** X26: fenced blocks on lines of their own.  Take two fenced blocks
    that each stand on lines of their own, with language tags made of word
    characters (or empty) and a text that holds no fence and does not end
    in a backtick, among lines that hold no fence, no code token and no
    line feed.  Then the code elements of the parse are exactly the two
    blocks, in source order, fences stripped, the text inside trimmed, the
    language [text] when the tag is empty.  A fence the pattern does not
    match stays in the working text: a line that begins with it and holds
    no token becomes part of a text element, and when the pattern matches
    nowhere no code element is made. *)
Theorem fenced_blocks_become_code :
  (forall pre mid post l1 inner1 l2 inner2,
      forallb proseLine pre = true ->
      forallb proseLine mid = true ->
      forallb proseLine post = true ->
      forallb isWord l1 = true -> closesAtEnd inner1 = true ->
      forallb isWord l2 = true -> closesAtEnd inner2 = true ->
      codeElements
        (parseContentElements
           (unlines (pre ++ fenced l1 inner1 :: mid ++ fenced l2 inner2 :: post)))
      = [CodeEl (orText l1) (trim inner1); CodeEl (orText l2) (trim inner2)])
  /\ (forall body l,
      In l (lines (snd (codeBlocksOf body))) ->
      startsWith fence l = true ->
      codeMatch l = false ->
      tableMatch l = false ->
      exists c, In (TextEl c) (parseContentElements body)
                /\ includes (trim l) c = true)
  /\ (forall body,
      execFence body = None ->
      codeBlocksOf body = ([], body)
      /\ codeElements (parseContentElements body) = []).
Proof.
  split; [exact two_fences_code|]. split; [exact unmatched_fence_is_text|].
  intros body H.
  assert (Hcb : codeBlocksOf body = ([], body)).
  { unfold codeBlocksOf. now rewrite (fenceMatches_none _ _ H). }
  split; [exact Hcb|].
  rewrite parseContentElements_eq, Hcb. cbn [fst snd].
  rewrite walkLines_code. apply flat_map_nil. intros l _. apply codeOf_nil.
Qed.

Lemma fenced_blocks_become_code_witness :
  (forallb proseLine [lit "Intro"] = true
   /\ forallb proseLine [lit "then"] = true
   /\ forallb proseLine [lit "done"] = true
   /\ forallb isWord [] = true
   /\ closesAtEnd (lit "  ls -l " ++ [NL]) = true
   /\ forallb isWord (lit "js") = true
   /\ closesAtEnd (lit "let x = `a`;" ++ [NL]) = true
   /\ codeElements (parseContentElements twoFenceBody)
      = [CodeEl (lit "text") (lit "ls -l"); CodeEl (lit "js") (lit "let x = `a`;")])
  /\ (In (lit "```js") (lines (snd (codeBlocksOf openFenceBody)))
      /\ startsWith fence (lit "```js") = true
      /\ codeMatch (lit "```js") = false
      /\ tableMatch (lit "```js") = false
      /\ exists c, In (TextEl c) (parseContentElements openFenceBody)
                   /\ includes (trim (lit "```js")) c = true)
  /\ (execFence openFenceBody = None
      /\ codeElements (parseContentElements openFenceBody) = []).
Proof.
  destruct fenced_blocks_become_code as (Htwo & Hopen & Hnone).
  split; [|split].
  - assert (H1 : forallb proseLine [lit "Intro"] = true) by (vm_compute; reflexivity).
    assert (H2 : forallb proseLine [lit "then"] = true) by (vm_compute; reflexivity).
    assert (H3 : forallb proseLine [lit "done"] = true) by (vm_compute; reflexivity).
    assert (H4 : forallb isWord [] = true) by reflexivity.
    assert (H5 : closesAtEnd (lit "  ls -l " ++ [NL]) = true) by (vm_compute; reflexivity).
    assert (H6 : forallb isWord (lit "js") = true) by (vm_compute; reflexivity).
    assert (H7 : closesAtEnd (lit "let x = `a`;" ++ [NL]) = true) by (vm_compute; reflexivity).
    repeat (split; [assumption|]).
    exact (Htwo [lit "Intro"] [lit "then"] [lit "done"] [] _ (lit "js") _
                H1 H2 H3 H4 H5 H6 H7).
  - assert (H1 : In (lit "```js") (lines (snd (codeBlocksOf openFenceBody))))
      by (vm_compute; tauto).
    assert (H2 : startsWith fence (lit "```js") = true) by (vm_compute; reflexivity).
    assert (H3 : codeMatch (lit "```js") = false) by (vm_compute; reflexivity).
    assert (H4 : tableMatch (lit "```js") = false) by (vm_compute; reflexivity).
    repeat (split; [assumption|]).
    exact (Hopen openFenceBody (lit "```js") H1 H2 H3 H4).
  - assert (H1 : execFence openFenceBody = None) by (vm_compute; reflexivity).
    split; [exact H1|]. exact (proj2 (Hnone openFenceBody H1)).
Defined.

(** C7: the code loses a block that the claim promises.  The body holds
    two fenced blocks, the first opened at the end of a line of prose.
    [parseCodeBlocks] finds both, and step 1 of [parseContentElements]
    stores both and writes a placeholder for each.  The walk then asks for
    a block whose placeholder is the whole trimmed line: the line
    [Run: __CODE_BLOCK_0__] has the token but is no placeholder, so
    neither the first block nor the words before it reach the result,
    which is the second block alone. *)
Theorem inline_fence_loses_a_block :
  List.map (fun cb => (language cb, code cb)) (parseCodeBlocks inlineFenceBody)
  = [(lit "text", lit "ls"); (lit "js", lit "x")]
  /\ fst (codeBlocksOf inlineFenceBody)
     = [mkCodeBlock (lit "__CODE_BLOCK_0__") (lit "text") (lit "ls");
        mkCodeBlock (lit "__CODE_BLOCK_1__") (lit "js") (lit "x")]
  /\ finalLinesOf inlineFenceBody
     = [lit "Run: __CODE_BLOCK_0__"; lit "__CODE_BLOCK_1__"]
  /\ parseContentElements inlineFenceBody = [CodeEl (lit "js") (lit "x")]
  /\ length (codeElements (parseContentElements inlineFenceBody)) <> 2.
Proof.
  split; [vm_compute; reflexivity|]. split; [vm_compute; reflexivity|].
  split; [vm_compute; reflexivity|]. split; [vm_compute; reflexivity|].
  vm_compute. discriminate.
Qed.

(** ** Lines that quote a placeholder token *)

(** Outside fenced blocks, a line of the body that does not start with a
    pipe is a line of the walk. *)
Lemma body_line_is_walked content line :
  execFence content = None ->
  In line (lines content) ->
  startsPipe line = false ->
  In line (finalLinesOf content).
Proof.
  intros Hf Hin Hp. unfold finalLinesOf, codeBlocksOf.
  rewrite (fenceMatches_none _ _ Hf). cbn [extractCode snd].
  assert (Hkeep : In line (snd (tablesOf content))).
  { unfold tablesOf. apply extractTables_keeps; [apply le_n|]. right. now split. }
  assert (Hnl : forallb noNL (snd (tablesOf content)) = true).
  { unfold tablesOf. apply extractTables_noNL; [apply lines_all_noNL|reflexivity]. }
  rewrite lines_unlines; [exact Hkeep| |exact Hnl].
  intros E. rewrite E in Hkeep. contradiction.
Qed.

(** Without a line that begins and ends with a pipe the table loop finds
    nothing and hands on every line. *)
Lemma extractTables_plain fuel : forall ls tables newLines,
  length ls <= fuel ->
  Forall (fun l => isPipeLine l = false) ls ->
  extractTables fuel ls tables newLines = (tables, newLines ++ ls).
Proof.
  induction fuel as [|fuel IH]; intros ls tables newLines Hf Hp.
  { destruct ls; [|cbn in Hf; lia]. cbn. now rewrite app_nil_r. }
  destruct ls as [|line rest].
  { cbn. now rewrite app_nil_r. }
  inversion Hp as [|? ? Hl Hr]; subst. cbn [extractTables]. rewrite Hl.
  rewrite IH; [|cbn [length] in Hf; lia|exact Hr].
  now rewrite <- app_assoc.
Qed.


Section StrayLine.

Variable cbs : list CodeBlock.
Variable tbls : list TableBlock.












End StrayLine.




(** ** The fuel of the loops *)

Lemma breakAtFence_length s :
  forall b a, breakAtFence s = Some (b, a) -> length a < length s.
Proof.
  induction s as [|c s IH]; intros b a H; [discriminate|].
  cbn [breakAtFence] in H.
  destruct (startsWith fence (c :: s)).
  - injection H as _ <-.
    destruct s as [|c2 [|c3 s]]; cbn [length]; lia.
  - destruct (breakAtFence s) as [[b' a']|] eqn:E; [|discriminate].
    injection H as _ <-. specialize (IH _ _ eq_refl). cbn [length]. lia.
Qed.

Lemma fenceHere_length s m :
  fenceHere s = Some m -> length (after m) < length s.
Proof.
  unfold fenceHere. destruct (startsWith fence s); [|discriminate].
  pose proof (length_skipn 3 s) as H3.
  pose proof (length_dropWhile _ isWord (skipn 3 s)) as Hw.
  set (r1 := dropWhile isWord (skipn 3 s)) in *.
  assert (Hr2 : forall eol r2,
            match r1 with
            | c :: r' => if (c =? 13)%N then ([c], r') else ([], r1)
            | [] => ([], r1)
            end = (eol, r2) -> length r2 <= length r1).
  { intros eol r2. destruct r1 as [|c r'].
    - now intros [= _ <-].
    - destruct (c =? 13)%N; intros [= _ <-]; cbn [length]; lia. }
  destruct (match r1 with
            | c :: r' => if (c =? 13)%N then ([c], r') else ([], r1)
            | [] => ([], r1)
            end) as [eol r2] eqn:E.
  specialize (Hr2 _ _ eq_refl).
  destruct r2 as [|c r3]; [discriminate|].
  destruct (c =? 10)%N; [|discriminate].
  destruct (breakAtFence r3) as [[b a]|] eqn:Eb; [|discriminate].
  intros [= <-]. cbn [after].
  pose proof (breakAtFence_length _ _ _ Eb). cbn [length] in Hr2. lia.
Qed.

Lemma execFence_length s :
  forall m, execFence s = Some m -> length (after m) < length s.
Proof.
  induction s as [|c s IH]; intros m H.
  - cbn [execFence] in H. destruct (fenceHere []) eqn:E; discriminate.
  - cbn [execFence] in H.
    destruct (fenceHere (c :: s)) as [m'|] eqn:E.
    + injection H as <-. now apply fenceHere_length.
    + specialize (IH _ H). cbn [length]. lia.
Qed.

(** [parseCodeBlocks] and [parseContentElements] give the search loop one
    more unit of fuel than the text has characters; any larger amount
    gives the same matches. *)
Lemma fenceMatches_fuel fuel :
  forall fuel' s,
    length s < fuel -> length s < fuel' ->
    fenceMatches fuel s = fenceMatches fuel' s.
Proof.
  induction fuel as [|fuel IH]; intros fuel' s H H'; [lia|].
  destruct fuel' as [|fuel']; [lia|].
  cbn [fenceMatches].
  destruct (execFence s) as [m|] eqn:E; [|reflexivity].
  pose proof (execFence_length _ _ E). f_equal. apply IH; lia.
Qed.

Lemma extractTables_fuel fuel :
  forall fuel' ls tables newLines,
    length ls <= fuel -> length ls <= fuel' ->
    extractTables fuel ls tables newLines
    = extractTables fuel' ls tables newLines.
Proof.
  induction fuel as [|fuel IH]; intros fuel' ls tables newLines H H'.
  { destruct ls; [|cbn in H; lia]. now destruct fuel'. }
  destruct ls as [|line rest]; [now destruct fuel'|].
  cbn [length] in H, H'. destruct fuel' as [|fuel']; [lia|].
  cbn [extractTables].
  destruct (isPipeLine line) eqn:Hl.
  - pose proof (isPipeLine_startsPipe _ Hl) as Hs.
    assert (Hlen : length (dropWhile startsPipe (line :: rest)) <= length rest).
    { cbn [dropWhile]. rewrite Hs. apply length_dropWhile. }
    destruct (2 <=? _); [destruct (tableRows true _)|]; apply IH; lia.
  - apply IH; lia.
Qed.

Lemma parseTablesFrom_fuel fuel :
  forall fuel' i ls,
    length ls <= fuel -> length ls <= fuel' ->
    parseTablesFrom fuel i ls = parseTablesFrom fuel' i ls.
Proof.
  induction fuel as [|fuel IH]; intros fuel' i ls H H'.
  { destruct ls; [|cbn in H; lia]. now destruct fuel'. }
  destruct ls as [|line rest]; [now destruct fuel'|].
  cbn [length] in H, H'. destruct fuel' as [|fuel']; [lia|].
  cbn [parseTablesFrom].
  destruct (isPipeLine line) eqn:Hl.
  - pose proof (isPipeLine_startsPipe _ Hl) as Hs.
    assert (Hlen : length (dropWhile startsPipe (line :: rest)) <= length rest).
    { cbn [dropWhile]. rewrite Hs. apply length_dropWhile. }
    destruct (2 <=? _);
      [destruct (tableRows true _); [|f_equal]|]; apply IH; lia.
  - apply IH; lia.
Qed.

(** ** The model on small inputs *)

(** Bullet levels are the indent divided by two, rounded down. *)
Example bullet_levels :
  parseBullets (lit "- a") = [mkBullet (lit "a") 0]
  /\ parseBullets (lit "  - a") = [mkBullet (lit "a") 1]
  /\ parseBullets (lit "   * a") = [mkBullet (lit "a") 1]
  /\ parseBullets (lit "    - a") = [mkBullet (lit "a") 2]
  /\ parseBullets (lit "-a") = []
  /\ parseBullets (lit "- ") = [].
Proof. repeat split; vm_compute; reflexivity. Qed.

(** A separator row ends the header part of a table and gives no row. *)
Example table_with_separator :
  parseContentElements
    (lit "| h1 | h2 |" ++ [NL] ++ lit "|----|:--:|" ++ [NL] ++ lit "| a | b |")
  = [TableEl [mkTableRow [lit "h1"; lit "h2"] true;
              mkTableRow [lit "a"; lit "b"] false]].
Proof. vm_compute. reflexivity. Qed.

(** Text, bullets and a blank line between them. *)
Example mixed_body :
  parseContentElements
    (lit "intro" ++ [NL] ++ lit "- one" ++ [NL] ++ lit "  - two" ++ [NL]
     ++ [NL] ++ lit "outro  ")
  = [TextEl (lit "intro");
     BulletsEl (lit "- one" ++ [NL] ++ lit "  - two");
     TextEl (lit "outro")].
Proof. vm_compute. reflexivity. Qed.

(** A header line with a carriage return before the line feed: the title
    pattern does not reach the end of the line, and the whole header line
    is the title of a content slide. *)
Example header_with_carriage_return :
  slidesOf (lit "## [plan] Agenda" ++ [13%N; NL] ++ lit "- a")
  = [mkSlide (lit "content") (lit "[plan] Agenda" ++ [13%N]) (lit "- a")].
Proof. vm_compute. reflexivity. Qed.

(** Names as [path.basename] and [path.extname] give them. *)
Example path_functions :
  basename (lit "ppt/media/a/photo.png") = lit "photo.png"
  /\ extname (lit "photo.png") = lit ".png"
  /\ extname (lit "archive.tar.gz") = lit ".gz"
  /\ extname (lit ".hidden") = []
  /\ extname (lit "name.") = lit "."
  /\ extname (lit "name") = []
  /\ assignedName 12 (lit "photo.png") = lit "image12.png".
Proof. repeat split; vm_compute; reflexivity. Qed.

(** Every occurrence of an old name is replaced, left to right. *)
Example replace_all_occurrences :
  replaceAll (lit "a.png") (lit "image1.png") (lit "x a.png y a.pnga.png")
  = lit "x image1.png y image1.pngimage1.png".
Proof. vm_compute. reflexivity. Qed.

(** * Further properties *)

(** ** InlineFormatter *)

Lemma skipn_app_exact (A : Type) (a b : list A) : skipn (length a) (a ++ b) = b.
Proof. induction a as [|x a IH]; [reflexivity|exact IH]. Qed.

Lemma lazyUntil_spec close r :
  forall b a,
    lazyUntil close r = Some (b, a) ->
    r = b ++ close ++ a /\ b <> [] /\ forallb isDot b = true
    /\ length a < length r.
Proof.
  induction r as [|c r IH]; intros b a H; [discriminate|].
  cbn [lazyUntil] in H.
  destruct (isDot c) eqn:Hc; [|discriminate].
  destruct (startsWith close r) eqn:Hs.
  - injection H as <- <-.
    apply startsWith_inv in Hs as [x ->].
    rewrite skipn_app_exact. repeat split.
    + discriminate.
    + cbn [forallb]. now rewrite Hc.
    + cbn [length]. rewrite length_app. lia.
  - destruct (lazyUntil close r) as [[b' a']|] eqn:E; [|discriminate].
    injection H as <- <-.
    destruct (IH _ _ eq_refl) as (-> & _ & Hd & Hl).
    repeat split.
    + discriminate.
    + cbn [forallb]. now rewrite Hc, Hd.
    + cbn [length]. lia.
Qed.

Lemma spanHere_spec withBold s st b a :
  spanHere withBold s = Some (st, b, a) ->
  s = delimOf st ++ b ++ delimOf st ++ a
  /\ b <> [] /\ forallb isDot b = true
  /\ st <> Plain /\ (st = Bold -> withBold = true)
  /\ length a < length s.
Proof.
  unfold spanHere.
  destruct (withBold && startsWith (lit "**") s) eqn:H1.
  - apply andb_true_iff in H1 as [Hb H1].
    apply startsWith_inv in H1 as [r ->].
    change (skipn 2 (lit "**" ++ r)) with r.
    destruct (lazyUntil (lit "**") r) as [[b' a']|] eqn:E; [|discriminate].
    intros [= <- <- <-].
    destruct (lazyUntil_spec _ _ _ _ E) as (-> & Hne & Hd & Hl).
    split; [reflexivity|]. split; [exact Hne|]. split; [exact Hd|].
    split; [discriminate|]. split; [intros _; exact Hb|].
    rewrite !length_app. change (length (lit "**")) with 2. lia.
  - destruct (startsWith [BACKTICK] s) eqn:H2; [|discriminate].
    apply startsWith_inv in H2 as [r ->].
    change (skipn 1 ([BACKTICK] ++ r)) with r.
    destruct (lazyUntil [BACKTICK] r) as [[b' a']|] eqn:E; [|discriminate].
    intros [= <- <- <-].
    destruct (lazyUntil_spec _ _ _ _ E) as (-> & Hne & Hd & Hl).
    split; [reflexivity|]. split; [exact Hne|]. split; [exact Hd|].
    split; [discriminate|]. split; [discriminate|].
    rewrite !length_app. cbn [length]. lia.
Qed.

Lemma renderParts_app a b : renderParts (a ++ b) = renderParts a ++ renderParts b.
Proof. unfold renderParts. now rewrite map_app, concat_app. Qed.

Lemma renderParts_plain acc : renderParts (plainPart acc) = rev acc.
Proof.
  destruct acc as [|c acc]; [reflexivity|].
  unfold plainPart, renderParts, renderPart. cbn [List.map concat pstyle ptext delimOf].
  now rewrite !app_nil_r.
Qed.

Lemma inlineScan_render fuel :
  forall withBold acc s,
    renderParts (inlineScan fuel withBold acc s) = rev acc ++ s.
Proof.
  induction fuel as [|fuel IH]; intros withBold acc s.
  - cbn [inlineScan]. rewrite renderParts_plain, rev_app_distr.
    now rewrite rev_involutive.
  - cbn [inlineScan].
    destruct (spanHere withBold s) as [[[st b] a]|] eqn:E.
    + destruct (spanHere_spec _ _ _ _ _ E) as (-> & _).
      rewrite renderParts_app, renderParts_plain. f_equal.
      change (mkPart b st :: inlineScan fuel withBold [] a)
        with ([mkPart b st] ++ inlineScan fuel withBold [] a).
      rewrite renderParts_app, IH.
      unfold renderParts, renderPart. cbn [List.map concat pstyle ptext rev app].
      now rewrite app_nil_r, <- !app_assoc.
    + destruct s as [|c s].
      * rewrite renderParts_plain. now rewrite app_nil_r.
      * rewrite IH. cbn [rev]. now rewrite <- app_assoc.
Qed.

Lemma plainPart_ok withBold acc : Forall (partOk withBold) (plainPart acc).
Proof.
  destruct acc as [|c acc]; [constructor|].
  constructor; [|constructor]. unfold partOk. cbn [ptext pstyle].
  repeat split; try congruence.
  intros E. apply (f_equal (@length char)) in E.
  cbn [rev] in E. rewrite length_app in E. cbn in E. lia.
Qed.

Lemma inlineScan_ok fuel :
  forall withBold acc s,
    Forall (partOk withBold) (inlineScan fuel withBold acc s).
Proof.
  induction fuel as [|fuel IH]; intros withBold acc s.
  - apply plainPart_ok.
  - cbn [inlineScan].
    destruct (spanHere withBold s) as [[[st b] a]|] eqn:E.
    + destruct (spanHere_spec _ _ _ _ _ E) as (_ & Hne & Hd & Hst & Hb & _).
      apply Forall_app. split; [apply plainPart_ok|].
      constructor; [|apply IH]. unfold partOk. cbn [ptext pstyle]. tauto.
    + destruct s as [|c s]; [apply plainPart_ok|apply IH].
Qed.

Lemma inlineScan_fuel fuel :
  forall fuel' withBold acc s,
    length s < fuel -> length s < fuel' ->
    inlineScan fuel withBold acc s = inlineScan fuel' withBold acc s.
Proof.
  induction fuel as [|fuel IH]; intros fuel' withBold acc s H H'; [lia|].
  destruct fuel' as [|fuel']; [lia|].
  cbn [inlineScan].
  destruct (spanHere withBold s) as [[[st b] a]|] eqn:E.
  - destruct (spanHere_spec _ _ _ _ _ E) as (_ & _ & _ & _ & _ & Hl).
    f_equal. f_equal. apply IH; lia.
  - destruct s as [|c s]; [reflexivity|]. cbn [length] in *. apply IH; lia.
Qed.

(** X1: formatting loses nothing.  Each part written back between its
    markers, the parts of a line give the line; so do the parts of a
    bullet row and of a table cell. *)
Theorem inline_parts_render_back (withBold : bool) (s : str) :
  renderParts (inlineParts withBold s) = s
  /\ (forall b, renderRow (bulletRowOf b) = text b)
  /\ (forall cell, renderRow (cellTextOf cell) = cell).
Proof.
  split; [apply (inlineScan_render _ withBold [] s)|]. split.
  - intros b. unfold bulletRowOf. destruct (hasInline (text b)); [|reflexivity].
    apply (inlineScan_render _ true [] (text b)).
  - intros cell. unfold cellTextOf. destruct (includes [BACKTICK] cell); [|reflexivity].
    apply (inlineScan_render _ false [] cell).
Qed.

(** X2: no part is empty, a bold or code part holds no LineTerminator,
    and the parts of a table cell are never bold. *)
Theorem inline_parts_well_formed (withBold : bool) (s : str) :
  Forall (partOk withBold) (inlineParts withBold s)
  /\ Forall (fun p => pstyle p <> Bold) (inlineParts false s).
Proof.
  split; [apply inlineScan_ok|].
  pose proof (inlineScan_ok (S (length s)) false [] s) as H.
  eapply Forall_impl; [|exact H].
  intros p (_ & _ & Hb) E. specialize (Hb E). discriminate.
Qed.

Lemma hasInline_nonempty t : hasInline t = true -> t <> [].
Proof. intros H ->. discriminate H. Qed.

Lemma inlineParts_nonempty withBold s : s <> [] -> inlineParts withBold s <> [].
Proof.
  intros Hs E.
  pose proof (inlineScan_render (S (length s)) withBold [] s) as H.
  unfold inlineParts in E. rewrite E in H. cbn in H. congruence.
Qed.

Lemma runsOfRow_marks row lvl :
  row <> Parts [] ->
  List.map bulletLevel (filter hasBullet (runsOfRow row lvl)) = [Some lvl].
Proof.
  intros Hrow. destruct row as [t|[|p more]]; [reflexivity|congruence|].
  cbn [runsOfRow filter hasBullet bulletLevel List.map].
  f_equal. clear Hrow. induction more as [|q more IH]; [reflexivity|exact IH].
Qed.

(** X3: formatting keeps the bullets apart.  Whatever the bullets hold,
    each of them gives exactly one run that carries the bullet options,
    with the level of the bullet, and these runs come in the order of the
    bullets. *)
Theorem formatted_bullets_marks (bullets : list Bullet) :
  List.map bulletLevel (filter hasBullet (formattedBullets bullets))
  = List.map (fun b => Some (level b)) bullets.
Proof.
  induction bullets as [|b bs IH]; [reflexivity|].
  unfold formattedBullets in *. cbn [flat_map List.map].
  rewrite filter_app, map_app, IH, runsOfRow_marks; [reflexivity|].
  unfold bulletRowOf. destruct (hasInline (text b)) eqn:E; [|discriminate].
  intros [= H]. revert H. apply inlineParts_nonempty.
  now apply hasInline_nonempty.
Qed.

(** *** The line feeds of a text element *)

Lemma unlines_cons_nonempty c p more :
  unlines ((c :: p) :: more) = c :: unlines (p :: more).
Proof. destruct more; reflexivity. Qed.

Lemma unlines_lines s : unlines (lines s) = s.
Proof.
  unfold lines. induction s as [|c s IH]; [reflexivity|].
  rewrite splitOn_cons. destruct (c =? NL)%N eqn:Hc.
  - apply N.eqb_eq in Hc. subst c.
    destruct (splitOn NL s) as [|p more] eqn:E.
    + now destruct (lines_nonempty s).
    + rewrite unlines_cons2. cbn [app]. f_equal. exact IH.
  - destruct (splitOn NL s) as [|p more] eqn:E.
    + now destruct (lines_nonempty s).
    + rewrite unlines_cons_nonempty. f_equal. exact IH.
Qed.

Lemma indexOf_notin x l : ~ In x l -> indexOf x l = (-1)%Z.
Proof.
  induction l as [|y l IH]; intros H; [reflexivity|].
  cbn [indexOf]. destruct (str_eqb y x) eqn:E.
  - apply str_eqb_eq in E. subst. exfalso. apply H. now left.
  - rewrite IH; [reflexivity|]. intros Hin. apply H. now right.
Qed.

Lemma indexOf_in x l :
  In x l -> (0 <= indexOf x l < Z.of_nat (length l))%Z.
Proof.
  induction l as [|y l IH]; intros H; [contradiction|].
  cbn [indexOf length]. destruct (str_eqb y x) eqn:E; [lia|].
  destruct H as [->|H]; [now rewrite str_eqb_refl in E|].
  specialize (IH H). destruct (indexOf x l <? 0)%Z eqn:Hlt; lia.
Qed.

Lemma indexOf_app_in x pre post :
  In x pre -> indexOf x (pre ++ post) = indexOf x pre.
Proof.
  induction pre as [|y pre IH]; intros H; [contradiction|].
  cbn [app indexOf]. destruct (str_eqb y x) eqn:E; [reflexivity|].
  destruct H as [->|H]; [now rewrite str_eqb_refl in E|]. now rewrite IH.
Qed.

Lemma indexOf_app_notin x pre post :
  ~ In x pre -> indexOf x (pre ++ x :: post) = Z.of_nat (length pre).
Proof.
  induction pre as [|y pre IH]; intros H.
  - cbn [app indexOf]. now rewrite str_eqb_refl.
  - cbn [app indexOf length]. destruct (str_eqb y x) eqn:E.
    + apply str_eqb_eq in E. subst. exfalso. apply H. now left.
    + rewrite IH by (intros Hin; apply H; now right).
      destruct (Z.of_nat (length pre) <? 0)%Z eqn:Hlt; lia.
Qed.

Lemma existsb_str_In x l : existsb (str_eqb x) l = true <-> In x l.
Proof.
  rewrite existsb_exists. split.
  - intros (y & Hy & E). apply str_eqb_eq in E. now subst.
  - intros H. exists x. split; [exact H|apply str_eqb_refl].
Qed.

(** Whether a line feed follows the line at the end of [pre]. *)
Lemma line_feed_rule pre line post :
  (indexOf line (pre ++ line :: post)
   <? Z.of_nat (length (pre ++ line :: post)) - 1)%Z
  = match post with
    | [] => existsb (str_eqb line) pre
    | _ => true
    end.
Proof.
  rewrite length_app. cbn [length].
  destruct (existsb (str_eqb line) pre) eqn:E.
  - apply existsb_str_In in E.
    rewrite indexOf_app_in by exact E.
    pose proof (indexOf_in _ _ E).
    destruct post; apply Z.ltb_lt; lia.
  - assert (Hn : ~ In line pre).
    { intros H. apply existsb_str_In in H. congruence. }
    rewrite indexOf_app_notin by exact Hn.
    destruct post; cbn [length]; [apply Z.ltb_ge|apply Z.ltb_lt]; lia.
Qed.

Lemma textLineParts_render textLines line :
  renderParts (textLineParts textLines line)
  = line ++ (if (indexOf line textLines <? Z.of_nat (length textLines) - 1)%Z
             then [NL] else []).
Proof.
  unfold textLineParts.
  destruct (hasInline line).
  - rewrite renderParts_app. unfold inlineParts.
    rewrite (inlineScan_render _ true [] line).
    cbn [rev app]. f_equal.
    destruct (indexOf line textLines <? _)%Z; reflexivity.
  - unfold renderParts, renderPart. cbn [List.map concat ptext pstyle delimOf].
    rewrite !app_nil_r. reflexivity.
Qed.

Lemma textContent_render post :
  forall pre,
    renderParts (flat_map (textLineParts (pre ++ post)) post)
    = match post with
      | [] => []
      | _ => unlines post
             ++ (if existsb (str_eqb (last post [])) (pre ++ removelast post)
                 then [NL] else [])
      end.
Proof.
  induction post as [|line post IH]; intros pre; [reflexivity|].
  cbn [flat_map]. rewrite renderParts_app, textLineParts_render, line_feed_rule.
  destruct post as [|q rest].
  - cbn [flat_map removelast last]. rewrite app_nil_r.
    change (renderParts []) with (@nil char). rewrite app_nil_r. reflexivity.
  - specialize (IH (pre ++ [line])).
    rewrite <- app_assoc in IH. cbn [app] in IH. rewrite IH.
    rewrite unlines_cons2.
    change (last (line :: q :: rest) []) with (last (q :: rest) []).
    change (removelast (line :: q :: rest)) with (line :: removelast (q :: rest)).
    rewrite <- !app_assoc. cbn [app]. reflexivity.
Qed.

(** X4: the parts of a text element give its content back, line feeds
    included, with one line feed more at the end when the last line is
    also an earlier line: the test for the last line asks [indexOf] for
    the position of the line, and that finds the earlier one. *)
Theorem text_content_render_back (content : str) :
  renderParts (textContentOf content)
  = content ++ (if lastLineRepeats content then [NL] else []).
Proof.
  unfold textContentOf, lastLineRepeats.
  pose proof (textContent_render (lines content) []) as H.
  cbn [app] in H. cbv zeta. rewrite H.
  destruct (lines content) as [|l ls] eqn:E.
  - now destruct (lines_nonempty content).
  - rewrite <- E, unlines_lines. reflexivity.
Qed.

(** ** BulletParser *)

Lemma takeWhile_forallb (A : Type) (p : A -> bool) l :
  forallb p (takeWhile p l) = true.
Proof. apply takeWhile_all. Qed.

Lemma forallb_firstn (A : Type) (p : A -> bool) n :
  forall l, forallb p l = true -> forallb p (firstn n l) = true.
Proof.
  induction n as [|n IH]; intros l H; [reflexivity|].
  destruct l as [|x l]; [reflexivity|].
  cbn [firstn forallb] in *. apply andb_true_iff in H as [-> H]. now apply IH.
Qed.

Lemma bulletText_spec k :
  forall ws rest t,
    bulletText k ws rest = Some t ->
    exists j, 1 <= j <= k /\ t = skipn j ws ++ rest
              /\ t <> [] /\ forallb isDot t = true.
Proof.
  induction k as [|k IH]; intros ws rest t H; [discriminate|].
  cbn [bulletText] in H.
  set (cand := skipn (S k) ws ++ rest) in *.
  destruct (truthy cand && forallb isDot cand) eqn:E.
  - injection H as <-. apply andb_true_iff in E as [E1 E2].
    exists (S k). repeat split; try lia; try assumption.
    intros E. rewrite E in E1. discriminate.
  - destruct (IH _ _ _ H) as (j & Hj & Ht). exists j. split; [lia|exact Ht].
Qed.

Lemma bulletMatch_spec line indent t :
  bulletMatch line = Some (indent, t) ->
  bulletOf line (mkBullet t (length indent / 2)).
Proof.
  unfold bulletMatch.
  pose proof (takeWhile_dropWhile _ isSpace line) as Hline.
  destruct (dropWhile isSpace line) as [|c r] eqn:Hd; [discriminate|].
  destruct (isBulletMark c) eqn:Hc; [|discriminate].
  destruct (bulletText _ _ _) as [t'|] eqn:Ht; [|discriminate].
  intros [= <- <-].
  apply bulletText_spec in Ht as (j & Hj & Ht & Hne & Hdot).
  pose proof (takeWhile_dropWhile _ isSpace r) as Hr.
  exists (takeWhile isSpace line), c, (firstn j (takeWhile isSpace r)).
  cbn [text level]. repeat split; try assumption.
  - rewrite <- Hline at 1. f_equal. f_equal.
    rewrite Ht, app_assoc, firstn_skipn. now rewrite Hr.
  - apply takeWhile_all.
  - intros E. apply (f_equal (@length char)) in E.
    rewrite length_firstn in E. cbn [length] in E. lia.
  - apply forallb_firstn, takeWhile_all.
Qed.

Lemma In_lines_of_flat_map content b :
  In b (parseBullets content) ->
  exists line indent t,
    In line (lines content) /\ bulletMatch line = Some (indent, t)
    /\ b = mkBullet t (length indent / 2).
Proof.
  unfold parseBullets. intros H. apply in_flat_map in H as (line & Hl & Hb).
  destruct (bulletMatch line) as [[indent t]|] eqn:E; [|contradiction].
  destruct Hb as [<-|[]]. now exists line, indent, t.
Qed.

Lemma bulletOf_isBulletLine line b : bulletOf line b -> isBulletLine line = true.
Proof.
  intros (indent & mark & sep & -> & Hi & Hm & Hne & Hs & _).
  unfold isBulletLine. rewrite (dropWhile_app _ isSpace indent _ Hi).
  assert (Hmark : isSpace mark = false).
  { unfold isBulletMark in Hm.
    apply orb_true_iff in Hm as [Hm|Hm];
      [apply orb_true_iff in Hm as [Hm|Hm]|]; apply N.eqb_eq in Hm; subst;
      reflexivity. }
  cbn [dropWhile]. rewrite Hmark, Hm.
  destruct sep as [|s sep]; [congruence|].
  cbn [forallb] in Hs. apply andb_true_iff in Hs as [Hs _].
  cbn [app]. now rewrite Hs.
Qed.

Lemma flat_map_length_le (A B : Type) (f : A -> list B) l :
  (forall x, length (f x) <= 1) -> length (flat_map f l) <= length l.
Proof.
  intros H. induction l as [|x l IH]; [reflexivity|].
  cbn [flat_map length]. rewrite length_app. specialize (H x). lia.
Qed.

(** X5: what [parseBullets] returns.  Every bullet comes from a line of
    the content made of an indent, a bullet mark, white space and the
    bullet's text; the text is not empty and holds no LineTerminator, the
    level is half the length of the indent, and the line passes the
    bullet-line test of [parseContentElements].  There are no more
    bullets than lines. *)
Theorem parseBullets_reads_lines (content : str) :
  (forall b, In b (parseBullets content) ->
             exists line, In line (lines content) /\ bulletOf line b
                          /\ isBulletLine line = true)
  /\ length (parseBullets content) <= length (lines content).
Proof.
  split.
  - intros b Hb.
    apply In_lines_of_flat_map in Hb as (line & indent & t & Hl & Hm & ->).
    exists line. pose proof (bulletMatch_spec _ _ _ Hm) as Hof.
    split; [exact Hl|]. split; [exact Hof|].
    exact (bulletOf_isBulletLine _ _ Hof).
  - unfold parseBullets. apply flat_map_length_le.
    intros line. destruct (bulletMatch line) as [[i t]|]; cbn; lia.
Qed.

Lemma parseBullets_reads_lines_witness :
  In (mkBullet (lit "two") 1) (parseBullets (lit "- one" ++ [NL] ++ lit "   * two"))
  /\ exists line,
       In line (lines (lit "- one" ++ [NL] ++ lit "   * two"))
       /\ bulletOf line (mkBullet (lit "two") 1)
       /\ isBulletLine line = true.
Proof.
  assert (H : In (mkBullet (lit "two") 1)
                 (parseBullets (lit "- one" ++ [NL] ++ lit "   * two")))
    by (vm_compute; tauto).
  split; [exact H|].
  exact (proj1 (parseBullets_reads_lines _) _ H).
Defined.

(** ** The shape of the elements *)

Lemma trimStart_nonspace c t : isSpace c = false -> trimStart (c :: t) = c :: t.
Proof. intros H. unfold trimStart. cbn [dropWhile]. now rewrite H. Qed.

Lemma trimEnd_nonspace u d : isSpace d = false -> trimEnd (u ++ [d]) = u ++ [d].
Proof.
  intros H. unfold trimEnd. rewrite rev_app_distr. cbn [rev app dropWhile].
  rewrite H. cbn [rev]. now rewrite rev_involutive.
Qed.

Lemma trim_idem s : trim (trim s) = trim s.
Proof.
  destruct (truthy (trim s)) eqn:E.
  - destruct (trim_ends s E) as (c & t & d & u & Hct & Hc & Hud & Hd).
    unfold trim at 1. rewrite Hct, (trimStart_nonspace _ _ Hc), <- Hct.
    rewrite Hud. now apply trimEnd_nonspace.
  - destruct (trim s); [reflexivity|discriminate].
Qed.

Lemma includes_nonempty_nil p : p <> [] -> includes p [] = false.
Proof. destruct p; [congruence|reflexivity]. Qed.

Lemma trim_unlines_nonempty t tb :
  nonBlank t = true -> trim (unlines (t :: tb)) <> [].
Proof.
  intros Ht E.
  destruct (unlines_In t (t :: tb) (or_introl eq_refl)) as (x & y & Hxy).
  pose proof (trim_keeps_core x t y Ht) as H.
  rewrite <- Hxy, E in H.
  rewrite includes_nonempty_nil in H; [discriminate|].
  unfold nonBlank in Ht. destruct (trim t); [discriminate|congruence].
Qed.

Section ShapeOfWalk.

Variable cbs : list CodeBlock.
Variable tbls : list TableBlock.

Lemma flushText_ok w : walkOk w -> walkOk (flushText w).
Proof.
  intros Hw. pose proof Hw as (He & Hb & Ht). unfold flushText.
  destruct (currentTextBlock w) as [|t tb] eqn:E; [exact Hw|].
  repeat split; cbn [elements currentBulletBlock currentTextBlock];
    try assumption.
  apply Forall_app. split; [exact He|]. constructor; [|constructor].
  cbn [forallb] in Ht. apply andb_true_iff in Ht as [Ht _].
  split; [now apply trim_unlines_nonempty|apply trim_idem].
Qed.

Lemma flushBullets_ok w : walkOk w -> walkOk (flushBullets w).
Proof.
  intros Hw. pose proof Hw as (He & Hb & Ht). unfold flushBullets.
  destruct (currentBulletBlock w) as [|b bb] eqn:E; [exact Hw|].
  repeat split; cbn [elements currentBulletBlock currentTextBlock];
    try assumption.
  apply Forall_app. split; [exact He|]. constructor; [|constructor].
  exists (b :: bb). repeat split; [discriminate|exact Hb].
Qed.

Lemma push_ok e w :
  match e with Some x => proseShape x | None => True end ->
  walkOk w -> walkOk (push e w).
Proof.
  intros Hx Hw. pose proof Hw as (He & Hb & Ht). destruct e as [x|]; [|exact Hw].
  repeat split; cbn [push elements currentBulletBlock currentTextBlock];
    try assumption.
  apply Forall_app. split; [exact He|]. now repeat constructor.
Qed.

Lemma walkLine_ok w line : walkOk w -> walkOk (walkLine cbs tbls w line).
Proof.
  intros H. unfold walkLine.
  destruct (codeMatch line).
  { apply push_ok; [|now apply flushBullets_ok, flushText_ok].
    destruct (find _ cbs); exact I. }
  destruct (tableMatch line).
  { apply push_ok; [|now apply flushBullets_ok, flushText_ok].
    destruct (find _ tbls); exact I. }
  destruct (isBulletLine line) eqn:Hb.
  { apply flushText_ok in H as (He & Hbb & Ht).
    repeat split; cbn [elements currentBulletBlock currentTextBlock];
      try assumption.
    rewrite forallb_app, Hbb. cbn [forallb]. now rewrite Hb. }
  destruct (truthy (trim line)) eqn:Hn.
  { apply flushBullets_ok in H as (He & Hbb & Ht).
    repeat split; cbn [elements currentBulletBlock currentTextBlock];
      try assumption.
    rewrite forallb_app, Ht. cbn [forallb]. unfold nonBlank. now rewrite Hn. }
  now apply flushBullets_ok, flushText_ok.
Qed.

Lemma walkLines_shape ls : Forall proseShape (walkLines cbs tbls ls).
Proof.
  unfold walkLines.
  assert (H : forall w, walkOk w -> walkOk (fold_left (walkLine cbs tbls) ls w)).
  { induction ls as [|l ls' IH]; intros w Hw; [exact Hw|].
    cbn [fold_left]. now apply IH, walkLine_ok. }
  assert (H0 : walkOk (mkWalk [] [] [])) by (repeat split; constructor).
  exact (proj1 (flushBullets_ok _ (flushText_ok _ (H _ H0)))).
Qed.

End ShapeOfWalk.

(** X6: the text and the bullets of a parse.  A text element is never
    empty and carries no white space at either end; a bullets element is a
    run of one or more lines that pass the bullet-line test, joined by line
    feeds. *)
Theorem parsed_prose_shape (content : str) :
  Forall proseShape (parseContentElements content).
Proof. rewrite parseContentElements_eq. apply walkLines_shape. Qed.

(** ** Code blocks *)

Lemma includes_inv p : forall s,
  includes p s = true -> exists a b, s = a ++ p ++ b.
Proof.
  induction s as [|c s IH]; intros H.
  - cbn [includes] in H. rewrite orb_false_r in H.
    apply startsWith_inv in H as [r Hr]. now exists [], r.
  - rewrite includes_cons in H. apply orb_true_iff in H as [H|H].
    + apply startsWith_inv in H as [r Hr]. now exists [], r.
    + destruct (IH H) as (a & b & Hab). exists (c :: a), b. now rewrite Hab.
Qed.

Lemma includes_infix p a m b :
  includes p m = true -> includes p (a ++ m ++ b) = true.
Proof.
  intros H. apply includes_inv in H as (x & y & ->).
  replace (a ++ (x ++ p ++ y) ++ b) with ((a ++ x) ++ p ++ (y ++ b))
    by (now rewrite <- !app_assoc).
  apply includes_app.
Qed.

Lemma trim_infix s : exists a b, s = a ++ trim s ++ b.
Proof.
  destruct (trimEnd_split (trimStart s)) as [b Hb].
  exists (takeWhile isSpace s), b.
  unfold trim. rewrite <- Hb. apply trimStart_split.
Qed.

Lemma trim_no_fence s : includes fence s = false -> includes fence (trim s) = false.
Proof.
  intros H. destruct (includes fence (trim s)) eqn:E; [|reflexivity].
  destruct (trim_infix s) as (a & b & Hab).
  apply (includes_infix fence a (trim s) b) in E. rewrite <- Hab in E. congruence.
Qed.

Lemma breakAtFence_body : forall s b a,
  breakAtFence s = Some (b, a) ->
  s = b ++ fence ++ a /\ includes fence b = false.
Proof.
  induction s as [|c s IH]; intros b a H; [discriminate|].
  cbn [breakAtFence] in H.
  destruct (startsWith fence (c :: s)) eqn:E.
  - apply startsWith_inv in E as [r Hr]. rewrite Hr in H |- *.
    change (skipn 3 (fence ++ r)) with r in H.
    injection H as <- <-. split; reflexivity.
  - destruct (breakAtFence s) as [[b' a']|] eqn:Eb; [|discriminate].
    injection H as <- <-. destruct (IH _ _ eq_refl) as [Hs Hn].
    split; [now rewrite Hs|].
    rewrite includes_cons, Hn, orb_false_r.
    destruct (startsWith fence (c :: b')) eqn:E'; [|reflexivity].
    apply startsWith_inv in E' as [r Hr].
    rewrite Hs in E. change (c :: b' ++ fence ++ a') with ((c :: b') ++ fence ++ a') in E.
    rewrite Hr, <- app_assoc, startsWith_app in E. discriminate.
Qed.

Lemma fenceHere_shape s m :
  fenceHere s = Some m ->
  forallb isWord (lang m) = true /\ includes fence (inner m) = false.
Proof.
  unfold fenceHere. destruct (startsWith fence s); [|discriminate].
  set (r := skipn 3 s).
  destruct (match dropWhile isWord r with
            | c :: r' => if (c =? 13)%N then ([c], r') else ([], dropWhile isWord r)
            | [] => ([], dropWhile isWord r)
            end) as [eol r2].
  destruct r2 as [|c r3]; [discriminate|].
  destruct (c =? 10)%N; [|discriminate].
  destruct (breakAtFence r3) as [[b a]|] eqn:E; [|discriminate].
  intros H. injection H as <-. cbn [lang inner].
  split; [apply takeWhile_all|exact (proj2 (breakAtFence_body _ _ _ E))].
Qed.

Lemma execFence_shape : forall s m,
  execFence s = Some m ->
  forallb isWord (lang m) = true /\ includes fence (inner m) = false.
Proof.
  induction s as [|c s IH]; intros m H; cbn [execFence] in H.
  - destruct (fenceHere []) eqn:E; [|discriminate].
    injection H as <-. now apply (fenceHere_shape []).
  - destruct (fenceHere (c :: s)) eqn:E.
    + injection H as <-. now apply (fenceHere_shape (c :: s)).
    + now apply IH.
Qed.

Lemma fenceMatches_shape fuel : forall s,
  Forall (fun m => forallb isWord (lang m) = true
                   /\ includes fence (inner m) = false)
         (fenceMatches fuel s).
Proof.
  induction fuel as [|fuel IH]; intros s; cbn [fenceMatches]; [constructor|].
  destruct (execFence s) as [m|] eqn:E; [|constructor].
  constructor; [now apply (execFence_shape s)|apply IH].
Qed.

Lemma block_shape m :
  forallb isWord (lang m) = true /\ includes fence (inner m) = false ->
  codeShape (orText (lang m)) (trim (inner m)).
Proof.
  intros [Hw Hn]. unfold codeShape. repeat split.
  - destruct (lang m); discriminate.
  - destruct (lang m); [reflexivity|exact Hw].
  - apply trim_idem.
  - now apply trim_no_fence.
Qed.

Lemma extractCode_shape ms : forall i w,
  Forall (fun m => forallb isWord (lang m) = true
                   /\ includes fence (inner m) = false) ms ->
  Forall (fun cb => codeShape (language cb) (code cb)) (fst (extractCode ms i w)).
Proof.
  induction ms as [|m ms IH]; intros i w H; cbn [extractCode]; [constructor|].
  inversion H as [|? ? Hm Hms]; subst.
  specialize (IH (S i) (replaceFirst (whole m) (codePlaceholder i) w) Hms).
  destruct (extractCode ms (S i) _) as [cbs w'].
  cbn [fst] in *. constructor; [now apply block_shape|exact IH].
Qed.

(** X7: the shape of a code block.  The language of a block found by
    [parseCodeBlocks], and of every code element of a parse, is a non-empty
    run of word characters; its code carries no white space at either end
    and no fence of three backticks inside. *)
Theorem code_blocks_shape (content : str) :
  Forall (fun cb => codeShape (language cb) (code cb)) (parseCodeBlocks content)
  /\ (forall l c, In (CodeEl l c) (parseContentElements content) -> codeShape l c).
Proof.
  split.
  - unfold parseCodeBlocks. apply Forall_map.
    eapply Forall_impl; [|apply fenceMatches_shape].
    intros m Hm. now apply block_shape.
  - intros l c Hin. rewrite parseContentElements_eq in Hin.
    pose proof (walkLines_fromArrays (fst (codeBlocksOf content))
                  (fst (tablesOf (snd (codeBlocksOf content))))
                  (finalLinesOf content)) as Hall.
    rewrite Forall_forall in Hall. destruct (Hall _ Hin) as (cb & Hcb & <- & <-).
    pose proof (extractCode_shape (fenceMatches (S (length content)) content)
                  0 content (fenceMatches_shape _ _)) as Hs.
    rewrite Forall_forall in Hs. now apply Hs.
Qed.

Lemma code_blocks_shape_witness :
  In (CodeEl (lit "js") (lit "x"))
     (parseContentElements (fenced (lit "js") (lit "x")))
  /\ codeShape (lit "js") (lit "x").
Proof.
  assert (H : In (CodeEl (lit "js") (lit "x"))
                 (parseContentElements (fenced (lit "js") (lit "x"))))
    by (vm_compute; tauto).
  split; [exact H|]. exact (proj2 (code_blocks_shape _) _ _ H).
Defined.

(** ** Placeholders *)

Lemma N_of_ascii_inj a b : N_of_ascii a = N_of_ascii b -> a = b.
Proof.
  intros H. rewrite <- (ascii_N_embedding a), <- (ascii_N_embedding b).
  now rewrite H.
Qed.

Lemma lit_inj a b : lit a = lit b -> a = b.
Proof.
  unfold lit. intros H.
  rewrite <- (string_of_list_ascii_of_string a),
          <- (string_of_list_ascii_of_string b).
  f_equal. revert H. generalize (list_ascii_of_string a) (list_ascii_of_string b).
  induction l as [|x l IH]; intros [|y l'] H; try discriminate; [reflexivity|].
  cbn [List.map] in H. injection H as Hx Hl.
  f_equal; [now apply N_of_ascii_inj|now apply IH].
Qed.

Lemma ofNat_inj n m : ofNat n = ofNat m -> n = m.
Proof.
  unfold ofNat. intros H. apply lit_inj in H.
  assert (H' : Some (Nat.to_uint n) = Some (Nat.to_uint m))
    by (now rewrite <- !NilEmpty.usu, H).
  injection H' as H'.
  rewrite <- (Unsigned.of_to n), <- (Unsigned.of_to m). now rewrite H'.
Qed.

Lemma ofNat_nonempty n : ofNat n <> [].
Proof.
  intros H.
  assert (H0 : lit (NilEmpty.string_of_uint Decimal.Nil) = []) by reflexivity.
  unfold ofNat in H. rewrite <- H0 in H. apply lit_inj in H.
  assert (H' : Some (Nat.to_uint n) = Some Decimal.Nil)
    by (now rewrite <- !NilEmpty.usu, H).
  injection H' as H'.
  pose proof (Unsigned.of_to n) as Hn. rewrite H' in Hn.
  cbn in Hn. subst n. discriminate.
Qed.

Lemma codePlaceholder_inj n m : codePlaceholder n = codePlaceholder m -> n = m.
Proof.
  unfold codePlaceholder. intros H. apply app_inv_head in H.
  apply app_inv_tail in H. now apply ofNat_inj.
Qed.

Lemma tablePlaceholder_inj n m : tablePlaceholder n = tablePlaceholder m -> n = m.
Proof.
  unfold tablePlaceholder. intros H. apply app_inv_head in H.
  apply app_inv_tail in H. now apply ofNat_inj.
Qed.

Lemma hasToken_skip p a s : hasToken p s = true -> hasToken p (a ++ s) = true.
Proof.
  intros H. induction a as [|c a IH]; [exact H|].
  cbn [app hasToken]. rewrite IH. apply orb_true_r.
Qed.

Lemma hasToken_here p s : tokenHere p s = true -> hasToken p s = true.
Proof. intros H. destruct s; cbn [hasToken]; now rewrite H. Qed.

Lemma tokenHere_token p n b :
  tokenHere p (p ++ ofNat n ++ lit "__" ++ b) = true.
Proof.
  unfold tokenHere. rewrite startsWith_app, skipn_app_exact.
  rewrite (takeWhile_app _ isDigit (ofNat n) _ (ofNat_digits n)).
  rewrite (dropWhile_app _ isDigit (ofNat n) _ (ofNat_digits n)).
  cbn [lit list_ascii_of_string List.map app takeWhile dropWhile].
  change (isDigit (N_of_ascii "_")) with false. cbn iota.
  rewrite app_nil_r.
  destruct (ofNat n) eqn:E; [now apply ofNat_nonempty in E|reflexivity].
Qed.

Lemma hasToken_trim p n line :
  trim line = p ++ ofNat n ++ lit "__" -> hasToken p line = true.
Proof.
  intros H. destruct (trim_infix line) as (a & b & Hab).
  rewrite Hab, H, <- !app_assoc. apply hasToken_skip, hasToken_here.
  apply tokenHere_token.
Qed.

Lemma extractCode_placeholders ms : forall i w,
  List.map placeholder (fst (extractCode ms i w))
  = List.map codePlaceholder (seq i (length ms)).
Proof.
  induction ms as [|m ms IH]; intros i w; cbn [extractCode]; [reflexivity|].
  specialize (IH (S i) (replaceFirst (whole m) (codePlaceholder i) w)).
  destruct (extractCode ms (S i) _) as [cbs w'].
  cbn [fst List.map length seq placeholder] in *. now rewrite IH.
Qed.

Lemma extractCode_blocks ms : forall i w,
  List.map (fun cb => (language cb, code cb)) (fst (extractCode ms i w))
  = List.map (fun m => (orText (lang m), trim (inner m))) ms.
Proof.
  induction ms as [|m ms IH]; intros i w; cbn [extractCode]; [reflexivity|].
  specialize (IH (S i) (replaceFirst (whole m) (codePlaceholder i) w)).
  destruct (extractCode ms (S i) _) as [cbs w'].
  cbn [fst List.map language code] in *. now rewrite IH.
Qed.

Lemma find_by_placeholder (A : Type) (ph : A -> str) (name : nat -> str) :
  (forall n m, name n = name m -> n = m) ->
  forall l i k,
    List.map ph l = List.map name (seq i (length l)) ->
    find (fun x => str_eqb (ph x) (name (i + k))) l = nth_error l k.
Proof.
  intros Hinj. induction l as [|x l IH]; intros i k H.
  - now destruct k.
  - cbn [List.map length seq] in H. injection H as Hx Hl.
    cbn [find]. destruct k as [|k].
    + rewrite Nat.add_0_r, Hx, str_eqb_refl. reflexivity.
    + destruct (str_eqb (ph x) (name (i + S k))) eqn:E.
      * apply str_eqb_eq in E. rewrite Hx in E. apply Hinj in E. lia.
      * cbn [nth_error]. rewrite <- (IH (S i) k Hl). f_equal.
        now rewrite Nat.add_succ_r.
Qed.

(** X8: code placeholders resolve to their own block.  The blocks that
    step 1 of [parseContentElements] stores are those [parseCodeBlocks]
    finds, in the same order; and a line of the working text that, apart
    from white space around it, is the placeholder numbered [k] makes the
    walk emit the code element of block [k], never of another. *)
Theorem code_placeholder_resolves (content line : str) (k : nat) (cb : CodeBlock) :
  nth_error (fst (codeBlocksOf content)) k = Some cb ->
  trim line = codePlaceholder k ->
  List.map (fun b => (language b, code b)) (fst (codeBlocksOf content))
  = List.map (fun b => (language b, code b)) (parseCodeBlocks content)
  /\ placeholder cb = codePlaceholder k
  /\ codeOf (fst (codeBlocksOf content)) line = [CodeEl (language cb) (code cb)]
  /\ forall w tbls,
       walkLine (fst (codeBlocksOf content)) tbls w line
       = push (Some (CodeEl (language cb) (code cb))) (flushBullets (flushText w)).
Proof.
  intros Hk Ht. unfold codeBlocksOf in *.
  set (ms := fenceMatches (S (length content)) content) in *.
  pose proof (extractCode_placeholders ms 0 content) as Hph.
  assert (Hfind : find (fun x => str_eqb (placeholder x) (trim line))
                       (fst (extractCode ms 0 content)) = Some cb).
  { rewrite Ht, <- Hk.
    apply (find_by_placeholder _ placeholder codePlaceholder
             codePlaceholder_inj _ 0 k).
    assert (Hlen : length (fst (extractCode ms 0 content)) = length ms).
    { rewrite <- (length_map placeholder), Hph, length_map. apply length_seq. }
    now rewrite Hlen. }
  assert (Hm : codeMatch line = true).
  { unfold codeMatch. now apply (hasToken_trim _ k). }
  repeat split.
  - rewrite extractCode_blocks. unfold parseCodeBlocks.
    rewrite map_map. reflexivity.
  - apply find_some in Hfind as [_ E]. apply str_eqb_eq in E. now rewrite E.
  - unfold codeOf. now rewrite Hm, Hfind.
  - intros w tbls. unfold walkLine. now rewrite Hm, Hfind.
Qed.

Lemma code_placeholder_resolves_witness :
  nth_error (fst (codeBlocksOf (fenced (lit "js") (lit "x")))) 0
  = Some (mkCodeBlock (codePlaceholder 0) (lit "js") (lit "x"))
  /\ trim (lit "  __CODE_BLOCK_0__ ") = codePlaceholder 0
  /\ codeOf (fst (codeBlocksOf (fenced (lit "js") (lit "x"))))
            (lit "  __CODE_BLOCK_0__ ")
     = [CodeEl (lit "js") (lit "x")].
Proof.
  assert (H1 : nth_error (fst (codeBlocksOf (fenced (lit "js") (lit "x")))) 0
               = Some (mkCodeBlock (codePlaceholder 0) (lit "js") (lit "x")))
    by (vm_compute; reflexivity).
  assert (H2 : trim (lit "  __CODE_BLOCK_0__ ") = codePlaceholder 0)
    by (vm_compute; reflexivity).
  split; [exact H1|]. split; [exact H2|].
  exact (proj1 (proj2 (proj2
           (code_placeholder_resolves _ _ 0 _ H1 H2)))).
Defined.

(** ** Tables *)

Lemma existsb_trim (p : char -> bool) c :
  existsb p c = false -> existsb p (trim c) = false.
Proof.
  intros H. destruct (trim_infix c) as (a & b & Hab).
  rewrite Hab, !existsb_app in H.
  apply orb_false_iff in H as [_ H]. now apply orb_false_iff in H as [H _].
Qed.

Lemma Forall_tl (A : Type) (P : A -> Prop) l : Forall P l -> Forall P (tl l).
Proof. intros H. destruct l; [exact H|now inversion H]. Qed.

Lemma Forall_removelast (A : Type) (P : A -> Prop) l :
  Forall P l -> Forall P (removelast l).
Proof.
  induction l as [|x l IH]; intros H; [exact H|].
  inversion H; subst. cbn [removelast]. destruct l; [constructor|].
  constructor; [assumption|now apply IH].
Qed.

Lemma cellsOf_shape l :
  Forall (fun c => trim c = c /\ existsb (N.eqb PIPE) c = false) (cellsOf l).
Proof.
  unfold cellsOf, slice1m1. apply Forall_map.
  apply Forall_removelast, Forall_tl.
  eapply Forall_impl; [|apply splitOn_noSep].
  intros c Hc. split; [apply trim_idem|now apply existsb_trim].
Qed.

Lemma tableRows_shape tableLines : forall hdr,
  Forall rowShape (tableRows hdr tableLines).
Proof.
  induction tableLines as [|l ls IH]; intros hdr; cbn [tableRows]; [constructor|].
  destruct (isSeparator l); [apply IH|].
  destruct (cellsOf l) as [|c cs] eqn:E; [apply IH|].
  constructor; [|apply IH]. split; cbn [cells]; [discriminate|].
  rewrite <- E. apply cellsOf_shape.
Qed.

Lemma tablesOk_line tables newLines line :
  tablesOk tables newLines -> tablesOk tables (newLines ++ [line]).
Proof.
  intros (Hp & Hs & Hin). repeat split; try assumption.
  intros t Ht. apply in_or_app. left. now apply Hin.
Qed.

Lemma tablesOk_push tables newLines rs :
  rs <> [] -> Forall rowShape rs ->
  tablesOk tables newLines ->
  tablesOk (tables ++ [mkTableBlock (tablePlaceholder (length tables)) rs])
           (newLines ++ [tablePlaceholder (length tables)]).
Proof.
  intros Hne Hrs (Hp & Hs & Hin). repeat split.
  - rewrite length_app, map_app, Hp. cbn [length List.map tplaceholder].
    rewrite Nat.add_1_r, seq_S, map_app. reflexivity.
  - apply Forall_app. split; [exact Hs|]. constructor; [|constructor].
    now split.
  - intros t Ht. apply in_app_or in Ht as [Ht|[<-|[]]]; apply in_or_app.
    + left. now apply Hin.
    + right. now left.
Qed.

Lemma extractTables_ok fuel : forall ls tables newLines,
  tablesOk tables newLines ->
  tablesOk (fst (extractTables fuel ls tables newLines))
           (snd (extractTables fuel ls tables newLines)).
Proof.
  induction fuel as [|fuel IH]; intros ls tables newLines H; [exact H|].
  destruct ls as [|line rest]; [exact H|].
  cbn [extractTables].
  destruct (isPipeLine line).
  - destruct (2 <=? length (takeWhile startsPipe (line :: rest))); [|now apply IH].
    pose proof (tableRows_shape (takeWhile startsPipe (line :: rest)) true) as Hs.
    destruct (tableRows true (takeWhile startsPipe (line :: rest))) as [|r rs];
      [now apply IH|].
    apply IH. apply tablesOk_push; [discriminate|exact Hs|exact H].
  - apply IH. now apply tablesOk_line.
Qed.

Lemma tablesOf_ok w : tablesOk (fst (tablesOf w)) (snd (tablesOf w)).
Proof.
  unfold tablesOf. apply extractTables_ok.
  repeat split; [constructor|intros t []].
Qed.

Lemma tablePlaceholder_trim n : trim (tablePlaceholder n) = tablePlaceholder n.
Proof.
  unfold trim, tablePlaceholder.
  change (lit "__TABLE_") with (95%N :: lit "_TABLE_").
  cbn [app]. rewrite trimStart_nonspace by reflexivity.
  change (95%N :: lit "_TABLE_" ++ ofNat n ++ lit "__")
    with ((lit "__TABLE_" ++ ofNat n) ++ lit "__").
  change (lit "__") with ([95%N] ++ [95%N]).
  rewrite !app_assoc. now apply trimEnd_nonspace.
Qed.

Section EmitsOfWalk.

Variable cbs : list CodeBlock.
Variable tbls : list TableBlock.

Lemma flushText_mono e w : In e (elements w) -> In e (elements (flushText w)).
Proof.
  intros H. destruct (flushText_elements w) as [->|[c ->]]; [exact H|].
  apply in_or_app. now left.
Qed.

Lemma flushBullets_mono e w : In e (elements w) -> In e (elements (flushBullets w)).
Proof.
  intros H. destruct (flushBullets_elements w) as [->|[c ->]]; [exact H|].
  apply in_or_app. now left.
Qed.

Lemma push_mono e x w : In e (elements w) -> In e (elements (push x w)).
Proof.
  intros H. destruct x; [|exact H]. cbn [push elements].
  apply in_or_app. now left.
Qed.

Lemma walkLine_mono e w line :
  In e (elements w) -> In e (elements (walkLine cbs tbls w line)).
Proof.
  intros H. unfold walkLine.
  destruct (codeMatch line); [now apply push_mono, flushBullets_mono, flushText_mono|].
  destruct (tableMatch line); [now apply push_mono, flushBullets_mono, flushText_mono|].
  destruct (isBulletLine line); [now apply flushText_mono|].
  destruct (truthy (trim line)); [now apply flushBullets_mono|].
  now apply flushBullets_mono, flushText_mono.
Qed.

Lemma fold_walkLine_mono e ls : forall w,
  In e (elements w) -> In e (elements (fold_left (walkLine cbs tbls) ls w)).
Proof.
  induction ls as [|l ls IH]; intros w H; [exact H|].
  cbn [fold_left]. now apply IH, walkLine_mono.
Qed.

Lemma walkLines_emits e line ls :
  In line ls ->
  (forall w, In e (elements (walkLine cbs tbls w line))) ->
  In e (walkLines cbs tbls ls).
Proof.
  intros Hin He. unfold walkLines.
  apply flushBullets_mono, flushText_mono.
  apply in_split in Hin as (a & b & ->).
  rewrite fold_left_app. cbn [fold_left].
  apply fold_walkLine_mono, He.
Qed.

End EmitsOfWalk.

Lemma nth_error_names (A : Type) (name : nat -> A) n : forall i k x,
  nth_error (List.map name (seq i n)) k = Some x -> x = name (i + k).
Proof.
  induction n as [|n IH]; intros i k x H; [now destruct k|].
  cbn [seq List.map] in H. destruct k as [|k].
  - injection H as <-. now rewrite Nat.add_0_r.
  - cbn [nth_error] in H. apply IH in H. now rewrite Nat.add_succ_r.
Qed.

Lemma walkLine_table cbs tbls k t w :
  List.map tplaceholder tbls = List.map tablePlaceholder (seq 0 (length tbls)) ->
  nth_error tbls k = Some t ->
  walkLine cbs tbls w (tablePlaceholder k)
  = push (Some (TableEl (rows t))) (flushBullets (flushText w)).
Proof.
  intros Hp Hk. unfold walkLine.
  rewrite tablePlaceholder_no_code.
  assert (Hm : tableMatch (tablePlaceholder k) = true).
  { unfold tableMatch. apply (hasToken_trim _ k). apply tablePlaceholder_trim. }
  rewrite Hm, tablePlaceholder_trim.
  pose proof (find_by_placeholder _ tplaceholder tablePlaceholder
                tablePlaceholder_inj tbls 0 k Hp) as Hf.
  cbn [Nat.add] in Hf. rewrite Hf, Hk.
  reflexivity.
Qed.

(** X9: the shape of a table of a parse.  A table element has at least one
    row; every row has at least one cell, and a cell carries no white space
    at either end and no pipe. *)
Theorem parsed_tables_shape (content : str) (rs : list TableRow) :
  In (TableEl rs) (parseContentElements content) ->
  rs <> [] /\ Forall rowShape rs.
Proof.
  intros H. rewrite parseContentElements_eq in H.
  pose proof (walkLines_fromArrays (fst (codeBlocksOf content))
                (fst (tablesOf (snd (codeBlocksOf content))))
                (finalLinesOf content)) as Hf.
  rewrite Forall_forall in Hf. apply Hf in H as (t & Hin & <-).
  destruct (tablesOf_ok (snd (codeBlocksOf content))) as (_ & Hs & _).
  rewrite Forall_forall in Hs. now apply Hs.
Qed.

Lemma parsed_tables_shape_witness :
  In (TableEl [mkTableRow [lit "a"; lit "b"] true;
               mkTableRow [lit "c"; lit "d"] false])
     (parseContentElements plainTable)
  /\ Forall rowShape [mkTableRow [lit "a"; lit "b"] true;
                      mkTableRow [lit "c"; lit "d"] false].
Proof.
  assert (H : In (TableEl [mkTableRow [lit "a"; lit "b"] true;
                           mkTableRow [lit "c"; lit "d"] false])
                 (parseContentElements plainTable))
    by (vm_compute; tauto).
  split; [exact H|]. exact (proj2 (parsed_tables_shape _ _ H)).
Defined.

(** X10: every table found is drawn.  A table that step 2 of
    [parseContentElements] stores is replaced by a placeholder line of its
    own, and the walk turns that line into the table element with the rows
    of that table, never of another. *)
Theorem found_tables_are_elements (content : str) (t : TableBlock) :
  In t (fst (tablesOf (snd (codeBlocksOf content)))) ->
  In (TableEl (rows t)) (parseContentElements content).
Proof.
  intros Hin. rewrite parseContentElements_eq.
  set (cbs := fst (codeBlocksOf content)).
  set (w := snd (codeBlocksOf content)) in *.
  destruct (tablesOf_ok w) as (Hp & _ & Hl).
  destruct (In_nth_error _ _ Hin) as [k Hk].
  assert (Hph : tplaceholder t = tablePlaceholder k).
  { pose proof (map_nth_error tplaceholder _ _ Hk) as H1. rewrite Hp in H1.
    now apply (nth_error_names _ tablePlaceholder) in H1. }
  apply (walkLines_emits cbs (fst (tablesOf w)) _ (tablePlaceholder k)).
  - unfold finalLinesOf. fold w.
    assert (Hnl : forallb noNL (snd (tablesOf w)) = true).
    { unfold tablesOf. apply extractTables_noNL; [apply lines_all_noNL|reflexivity]. }
    specialize (Hl t Hin). rewrite Hph in Hl.
    rewrite lines_unlines; [exact Hl| |exact Hnl].
    intros E. rewrite E in Hl. contradiction.
  - intros w0. rewrite (walkLine_table cbs _ k t w0 Hp Hk).
    cbn [push elements]. apply in_or_app. right. now left.
Qed.

Lemma found_tables_are_elements_witness :
  In (mkTableBlock (tablePlaceholder 0)
        [mkTableRow [lit "a"; lit "b"] true;
         mkTableRow [lit "c"; lit "d"] false])
     (fst (tablesOf (snd (codeBlocksOf plainTable))))
  /\ In (TableEl [mkTableRow [lit "a"; lit "b"] true;
                  mkTableRow [lit "c"; lit "d"] false])
        (parseContentElements plainTable).
Proof.
  assert (H : In (mkTableBlock (tablePlaceholder 0)
                    [mkTableRow [lit "a"; lit "b"] true;
                     mkTableRow [lit "c"; lit "d"] false])
                 (fst (tablesOf (snd (codeBlocksOf plainTable)))))
    by (vm_compute; tauto).
  split; [exact H|]. exact (found_tables_are_elements _ _ H).
Defined.

(** ** [parseTables] *)

Lemma parseTablesFrom_start fuel : forall i ls rs j,
  In (rs, j) (parseTablesFrom fuel i ls) ->
  i <= j
  /\ (exists l, nth_error ls (j - i) = Some l /\ isPipeLine l = true)
  /\ rs = tableRows true (takeWhile startsPipe (skipn (j - i) ls))
  /\ rs <> []
  /\ 2 <= length (takeWhile startsPipe (skipn (j - i) ls)).
Proof.
  induction fuel as [|fuel IH]; intros i ls rs j H; [contradiction|].
  destruct ls as [|line rest]; [contradiction|].
  cbn [parseTablesFrom] in H.
  destruct (isPipeLine line) eqn:Hl.
  - set (tl := takeWhile startsPipe (line :: rest)) in *.
    assert (Hrec : In (rs, j) (parseTablesFrom fuel (i + length tl)
                                 (dropWhile startsPipe (line :: rest))) ->
                   i <= j
                   /\ (exists l, nth_error (line :: rest) (j - i) = Some l
                                 /\ isPipeLine l = true)
                   /\ rs = tableRows true
                             (takeWhile startsPipe (skipn (j - i) (line :: rest)))
                   /\ rs <> []
                   /\ 2 <= length (takeWhile startsPipe
                                     (skipn (j - i) (line :: rest)))).
    { intros H'. apply IH in H' as (Hle & (l & Hn & Hp) & Hrs & Hne & Hlen).
      assert (Hji : j - i = length tl + (j - (i + length tl))) by lia.
      rewrite Hji.
      set (dw := dropWhile startsPipe (line :: rest)) in *.
      assert (Hs : line :: rest = tl ++ dw)
        by (symmetry; apply takeWhile_dropWhile).
      rewrite Hs.
      rewrite nth_error_app2 by lia.
      replace (length tl + (j - (i + length tl)) - length tl)
        with (j - (i + length tl)) by lia.
      rewrite skipn_app, skipn_all2 by lia.
      replace (length tl + (j - (i + length tl)) - length tl)
        with (j - (i + length tl)) by lia.
      cbn [app]. repeat split; try assumption; [lia|now exists l]. }
    destruct (2 <=? length tl) eqn:E2; [|exact (Hrec H)].
    destruct (tableRows true tl) as [|r rs'] eqn:Er; [exact (Hrec H)|].
    destruct H as [H|H]; [|exact (Hrec H)].
    injection H as <- <-. rewrite Nat.sub_diag. cbn [skipn nth_error].
    fold tl. rewrite Er. apply Nat.leb_le in E2.
    repeat split; [lia|now exists line|discriminate|exact E2].
  - apply IH in H as (Hle & (l & Hn & Hp) & Hrs & Hne & Hlen).
    replace (j - i) with (S (j - S i)) by lia. cbn [nth_error skipn].
    repeat split; try assumption; [lia|now exists l].
Qed.

Lemma extractTables_rows fuel : forall i ls tables newLines,
  List.map rows (fst (extractTables fuel ls tables newLines))
  = List.map rows tables
    ++ List.map fst (parseTablesFrom fuel i ls).
Proof.
  induction fuel as [|fuel IH]; intros i ls tables newLines.
  { cbn. now rewrite app_nil_r. }
  destruct ls as [|line rest].
  { cbn. now rewrite app_nil_r. }
  cbn [extractTables parseTablesFrom].
  destruct (isPipeLine line).
  - destruct (2 <=? length (takeWhile startsPipe (line :: rest))); [|apply IH].
    destruct (tableRows true (takeWhile startsPipe (line :: rest))) as [|r rs];
      [apply IH|].
    rewrite (IH (i + length (takeWhile startsPipe (line :: rest)))).
    rewrite map_app. cbn [List.map rows fst]. now rewrite <- app_assoc.
  - apply IH.
Qed.

(** X11: what [parseTables] reports.  Each table it returns starts at a
    line of the text that begins and ends with a pipe; its rows are those
    of the run of at least two pipe-led lines from there on, and there is
    at least one.  The tables are, in order, those that step 2 of
    [parseContentElements] stores for the same text. *)
Theorem parseTables_start_lines (content : str) :
  (forall rs startLine,
     In (rs, startLine) (parseTables content) ->
     (exists l, nth_error (lines content) startLine = Some l
                /\ isPipeLine l = true)
     /\ rs = tableRows true
               (takeWhile startsPipe (skipn startLine (lines content)))
     /\ rs <> []
     /\ 2 <= length (takeWhile startsPipe (skipn startLine (lines content))))
  /\ List.map fst (parseTables content)
     = List.map rows (fst (tablesOf content)).
Proof.
  split.
  - intros rs j H. unfold parseTables in H.
    apply parseTablesFrom_start in H. rewrite Nat.sub_0_r in H. tauto.
  - unfold parseTables, tablesOf.
    now rewrite (extractTables_rows _ 0).
Qed.

Lemma parseTables_start_lines_witness :
  In ([mkTableRow [lit "a"; lit "b"] true;
       mkTableRow [lit "c"; lit "d"] false], 0)
     (parseTables plainTable)
  /\ exists l, nth_error (lines plainTable) 0 = Some l /\ isPipeLine l = true.
Proof.
  assert (H : In ([mkTableRow [lit "a"; lit "b"] true;
                   mkTableRow [lit "c"; lit "d"] false], 0)
                 (parseTables plainTable))
    by (vm_compute; tauto).
  split; [exact H|].
  exact (proj1 (proj1 (parseTables_start_lines plainTable) _ _ H)).
Defined.

(** ** Blank input *)

Lemma includes_In p s c : includes p s = true -> In c p -> In c s.
Proof.
  intros H Hc. apply includes_inv in H as (a & b & ->).
  apply in_or_app. right. apply in_or_app. now left.
Qed.

Lemma blank_notin (c : char) s :
  forallb isSpace s = true -> isSpace c = false -> ~ In c s.
Proof.
  intros Hs Hc Hin. rewrite forallb_forall in Hs. apply Hs in Hin. congruence.
Qed.

Lemma splitOn_forallb (p : char -> bool) sep s :
  forallb p s = true -> Forall (fun l => forallb p l = true) (splitOn sep s).
Proof.
  induction s as [|c s IH]; intros H; [repeat constructor|].
  cbn [forallb] in H. apply andb_true_iff in H as [Hc Hs].
  specialize (IH Hs). cbn [splitOn].
  destruct (c =? sep)%N; [now constructor|].
  destruct (splitOn sep s) as [|piece more]; [repeat constructor; cbn; now rewrite Hc|].
  inversion IH; subst. constructor; [|assumption].
  cbn [forallb]. now rewrite Hc.
Qed.

Lemma blank_trim l : forallb isSpace l = true -> trim l = [].
Proof.
  intros H. unfold trim, trimStart.
  assert (E : dropWhile isSpace l = []).
  { induction l as [|c l IH]; [reflexivity|].
    cbn [forallb] in H. apply andb_true_iff in H as [Hc Hl].
    cbn [dropWhile]. rewrite Hc. now apply IH. }
  now rewrite E.
Qed.

Lemma blank_no_token p l c :
  forallb isSpace l = true -> In c p -> isSpace c = false ->
  hasToken p l = false.
Proof.
  intros Hl Hin Hc. destruct (hasToken p l) eqn:E; [|reflexivity].
  exfalso. apply (blank_notin c l Hl Hc). now apply (hasToken_In p l c).
Qed.

Lemma blank_not_bullet l : forallb isSpace l = true -> isBulletLine l = false.
Proof.
  intros H. unfold isBulletLine.
  assert (E : dropWhile isSpace l = []).
  { induction l as [|c l IH]; [reflexivity|].
    cbn [forallb] in H. apply andb_true_iff in H as [Hc Hl].
    cbn [dropWhile]. rewrite Hc. now apply IH. }
  now rewrite E.
Qed.

Lemma blank_no_match l : forallb isSpace l = true -> bulletMatch l = None.
Proof.
  intros H. unfold bulletMatch.
  assert (E : dropWhile isSpace l = []).
  { induction l as [|c l IH]; [reflexivity|].
    cbn [forallb] in H. apply andb_true_iff in H as [Hc Hl].
    cbn [dropWhile]. rewrite Hc. now apply IH. }
  now rewrite E.
Qed.

Lemma blank_not_pipe l : forallb isSpace l = true -> isPipeLine l = false.
Proof. intros H. unfold isPipeLine. now rewrite (blank_trim l H). Qed.

Lemma parseTablesFrom_plain fuel : forall i ls,
  Forall (fun l => isPipeLine l = false) ls ->
  parseTablesFrom fuel i ls = [].
Proof.
  induction fuel as [|fuel IH]; intros i ls Hp; [reflexivity|].
  destruct ls as [|line rest]; [reflexivity|].
  inversion Hp as [|? ? Hl Hr]; subst. cbn [parseTablesFrom]. rewrite Hl.
  now apply IH.
Qed.

Lemma walk_blank_lines cbs tbls ls :
  Forall (fun l => forallb isSpace l = true) ls ->
  fold_left (walkLine cbs tbls) ls (mkWalk [] [] []) = mkWalk [] [] [].
Proof.
  induction 1 as [|l ls Hl Hls IH]; [reflexivity|].
  cbn [fold_left]. unfold walkLine at 2.
  unfold codeMatch, tableMatch.
  rewrite (blank_no_token _ l 95%N Hl) by (cbn; tauto || reflexivity).
  rewrite (blank_no_token _ l 95%N Hl) by (cbn; tauto || reflexivity).
  rewrite (blank_not_bullet l Hl), (blank_trim l Hl). exact IH.
Qed.

Lemma blank_no_fence s : forallb isSpace s = true -> execFence s = None.
Proof.
  intros H. apply execFence_no_fence.
  destruct (includes fence s) eqn:E; [|reflexivity].
  exfalso. apply (blank_notin 96%N s H eq_refl).
  apply (includes_In fence s); [exact E|now left].
Qed.

Lemma blank_sections body :
  forallb isSpace body = true -> forall bol cur,
  splitSections bol cur body = [rev cur ++ body].
Proof.
  induction body as [|c s IH]; intros H bol cur.
  { cbn. now rewrite app_nil_r. }
  cbn [forallb] in H. apply andb_true_iff in H as [Hc Hs].
  assert (Hn : (c =? 35)%N = false).
  { destruct (c =? 35)%N eqn:E; [|reflexivity].
    apply N.eqb_eq in E. subst c. discriminate. }
  assert (Hgo : splitSections (isLineTerminator c) (c :: cur) s
                = [rev cur ++ c :: s]).
  { rewrite IH by exact Hs. cbn [rev]. now rewrite <- app_assoc. }
  cbn [splitSections].
  destruct s as [|c2 [|c3 rest]]; try exact Hgo.
  rewrite Hn, andb_false_r. exact Hgo.
Qed.

(** X12: blank input.  A content that is empty or holds white space only
    gives no element, no bullet, no code block and no table; a body of that
    kind gives no slide, so that the presentation is the title slide
    followed by the closing slide. *)
Theorem blank_input_gives_nothing (s : str) :
  forallb isSpace s = true ->
  parseContentElements s = []
  /\ parseBullets s = []
  /\ parseCodeBlocks s = []
  /\ parseTables s = []
  /\ slidesOf s = []
  /\ forall matter config markdown fm,
       matter markdown = (fm, s) ->
       generatePresentation matter config markdown
       = [addTitleSlide config fm; addClosingSlide config].
Proof.
  intros H.
  pose proof (splitOn_forallb isSpace NL s H) as Hls. fold (lines s) in Hls.
  assert (Hpipe : Forall (fun l => isPipeLine l = false) (lines s)).
  { eapply Forall_impl; [|exact Hls]. intros l Hl. now apply blank_not_pipe. }
  assert (Hslides : slidesOf s = []).
  { unfold slidesOf, sections. rewrite (blank_sections s H true []).
    cbn [rev app filter]. unfold nonBlank. now rewrite (blank_trim s H). }
  repeat split.
  - rewrite parseContentElements_eq. unfold finalLinesOf, codeBlocksOf.
    rewrite (fenceMatches_none _ _ (blank_no_fence s H)).
    cbn [extractCode fst snd]. unfold tablesOf.
    rewrite (extractTables_plain _ _ [] [] (le_n _) Hpipe).
    cbn [fst snd app].
    rewrite lines_unlines; [|apply lines_nonempty|apply lines_all_noNL].
    unfold walkLines. now rewrite (walk_blank_lines _ _ _ Hls).
  - unfold parseBullets. apply flat_map_nil.
    intros l Hl. rewrite Forall_forall in Hls.
    now rewrite (blank_no_match l (Hls l Hl)).
  - unfold parseCodeBlocks.
    now rewrite (fenceMatches_none _ _ (blank_no_fence s H)).
  - unfold parseTables. now apply parseTablesFrom_plain.
  - exact Hslides.
  - intros matter config markdown fm Hm.
    unfold generatePresentation, parseMarkdown. rewrite Hm, Hslides.
    reflexivity.
Qed.

Lemma blank_input_gives_nothing_witness :
  forallb isSpace (lit "  " ++ [NL] ++ lit " ") = true
  /\ parseContentElements (lit "  " ++ [NL] ++ lit " ") = [].
Proof.
  assert (H : forallb isSpace (lit "  " ++ [NL] ++ lit " ") = true)
    by (vm_compute; reflexivity).
  split; [exact H|]. exact (proj1 (blank_input_gives_nothing _ H)).
Defined.

(** ** Paragraphs on a slide *)

Section Paragraphs.

Local Open Scope float_scope.

(** X27: a slide of paragraphs shows four of them.  When every element of
    a content slide is a text element, whatever the texts are, the loop
    places the first four, at 0.9, 2.2, 3.5 and 4.8 (as the sums of
    binary64 Numbers give them), the first three with the height 1.2 and
    the fourth with the 0.2 that is left, and omits every further one. *)
Theorem paragraphs_fill_four_places (cs : list str) :
  List.map element (flow TOP (List.map TextEl cs))
  = List.map TextEl (firstn 4 cs)
  /\ List.map (fun p => (y p, height p)) (flow TOP (List.map TextEl cs))
     = firstn (length cs)
         [(0.9, 1.2); (2.2000000000000002, 1.2); (3.5, 1.2);
          (4.7999999999999998, 0.20000000000000018)].
Proof.
  destruct cs as [|c1 [|c2 [|c3 [|c4 [|c5 cs]]]]];
    split; vm_compute; reflexivity.
Qed.

End Paragraphs.

(** ** The archive *)

Lemma mapGet_set k v m : mapGet k (mapSet k v m) = Some v.
Proof.
  induction m as [|[k' v'] m IH]; cbn [mapSet mapGet].
  - now rewrite str_eqb_refl.
  - destruct (str_eqb k' k) eqn:E; cbn [mapGet]; now rewrite E.
Qed.

Lemma mapGet_set_other k k' v m :
  k <> k' -> mapGet k' (mapSet k v m) = mapGet k' m.
Proof.
  intros Hne. induction m as [|[k0 v0] m IH]; cbn [mapSet mapGet].
  - assert (E : str_eqb k k' = false) by now apply str_eqb_neq.
    now rewrite E.
  - destruct (str_eqb k0 k) eqn:E; cbn [mapGet].
    + apply str_eqb_eq in E. subst k0.
      assert (E' : str_eqb k k' = false) by now apply str_eqb_neq.
      now rewrite E'.
    + destruct (str_eqb k0 k'); [reflexivity|exact IH].
Qed.

Lemma mediaNames_app a b : mediaNames (a ++ b) = mediaNames a ++ mediaNames b.
Proof. unfold mediaNames. now rewrite filter_app, map_app. Qed.

Lemma mediaNames_cons e l :
  mediaNames (e :: l)
  = if isMedia e then basename (entryName e) :: mediaNames l else mediaNames l.
Proof. unfold mediaNames. cbn [filter]. now destruct (isMedia e). Qed.

Lemma collectRenames_other k entries : forall c m,
  ~ In k (mediaNames entries) ->
  mapGet k (collectRenames entries c m) = mapGet k m.
Proof.
  induction entries as [|e entries IH]; intros c m Hk; [reflexivity|].
  cbn [collectRenames]. rewrite mediaNames_cons in Hk.
  destruct (isMedia e).
  - rewrite IH by (intros H; apply Hk; now right).
    destruct (str_eqb _ _); [reflexivity|].
    apply mapGet_set_other. intros E. apply Hk. now left.
  - now apply IH.
Qed.

Lemma collectRenames_app pre : forall rest c m,
  collectRenames (pre ++ rest) c m
  = collectRenames rest (c + length (mediaNames pre)) (collectRenames pre c m).
Proof.
  induction pre as [|e pre IH]; intros rest c m.
  { cbn. now rewrite Nat.add_0_r. }
  cbn [app collectRenames]. rewrite mediaNames_cons.
  destruct (isMedia e); [|apply IH].
  rewrite IH. cbn [length]. now rewrite Nat.add_succ_r.
Qed.

Lemma assignedName_truthy k old : truthy (assignedName k old) = true.
Proof. reflexivity. Qed.

Lemma splitStrGo_skip sep : forall s cur,
  splitStrGo sep (length s) cur s = [rev cur].
Proof. induction s as [|c s IH]; intros cur; [reflexivity|apply IH]. Qed.

Lemma splitStrGo_none sep : forall s cur,
  includes sep s = false -> splitStrGo sep 0 cur s = [rev cur ++ s].
Proof.
  induction s as [|c s IH]; intros cur H.
  { cbn. now rewrite app_nil_r. }
  rewrite includes_cons in H. apply orb_false_iff in H as [Hs Hi].
  cbn [splitStrGo]. rewrite Hs, (IH _ Hi). cbn [rev].
  now rewrite <- app_assoc.
Qed.

Lemma replaceAll_none old new text :
  includes old text = false -> replaceAll old new text = text.
Proof.
  intros H. unfold replaceAll, splitStr.
  destruct old as [|c old]; [now destruct text|].
  now rewrite (splitStrGo_none _ _ [] H).
Qed.

Lemma startsWith_refl p : startsWith p p = true.
Proof. rewrite <- (app_nil_r p) at 2. apply startsWith_app. Qed.

Lemma replaceAll_self old new : old <> [] -> replaceAll old new old = new.
Proof.
  intros H. unfold replaceAll, splitStr.
  destruct old as [|c old]; [congruence|].
  cbn [splitStrGo]. rewrite startsWith_refl.
  cbn [length Nat.sub]. rewrite Nat.sub_0_r, splitStrGo_skip.
  cbn [rev join app]. apply app_nil_r.
Qed.

Lemma rewriteText_none m : forall text,
  Forall (fun kv => includes (fst kv) text = false) m ->
  rewriteText m text = text.
Proof.
  unfold rewriteText. induction m as [|[k v] m IH]; intros text H; [reflexivity|].
  inversion H as [|? ? Hk Hm]; subst. cbn [fold_left fst snd] in *.
  rewrite (replaceAll_none _ _ _ Hk). now apply IH.
Qed.

(** X15: media entries with distinct base names are numbered.  When no
    two media entries share a base name, the entry that is the [k]-th media
    entry of the archive is looked up under its own rename: it is written
    as [ppt/media/image<k><ext>], whatever folder below the media folder
    it was in, and keeps its name only when its base name is that name
    already. *)
Theorem distinct_media_are_numbered
        (decode : bytes -> str) (encode : str -> bytes)
        (pre : list Entry) (e : Entry) (post : list Entry) :
  NoDup (mediaNames (pre ++ e :: post)) ->
  isMedia e = true ->
  let k := S (length (mediaNames pre)) in
  let old := basename (entryName e) in
  let renames := collectRenames (pre ++ e :: post) 1 [] in
  mapGet old renames
  = (if str_eqb old (assignedName k old) then None
     else Some (assignedName k old))
  /\ rebuildEntry decode encode renames e
     = (if str_eqb old (assignedName k old) then entryName e
        else mediaDir ++ assignedName k old,
        if endsWith (lit ".xml")
             (if str_eqb old (assignedName k old) then entryName e
              else mediaDir ++ assignedName k old)
           || endsWith (lit ".rels")
                (if str_eqb old (assignedName k old) then entryName e
                 else mediaDir ++ assignedName k old)
        then encode (rewriteText renames (decode (getData e)))
        else getData e).
Proof.
  intros Hnd He k old renames.
  rewrite mediaNames_app, mediaNames_cons, He in Hnd.
  apply NoDup_remove_2 in Hnd.
  assert (Hget : mapGet old renames
                 = if str_eqb old (assignedName k old) then None
                   else Some (assignedName k old)).
  { unfold renames. rewrite collectRenames_app. cbn [collectRenames].
    rewrite He. fold old. change (1 + length (mediaNames pre)) with k.
    rewrite collectRenames_other
      by (intros H; apply Hnd; apply in_or_app; now right).
    assert (Hpre : mapGet old (collectRenames pre 1 []) = None).
    { rewrite collectRenames_other; [reflexivity|].
      intros H. apply Hnd. apply in_or_app. now left. }
    destruct (str_eqb old (assignedName k old)); [exact Hpre|].
    apply mapGet_set. }
  split; [exact Hget|].
  unfold rebuildEntry. unfold isMedia in He.
  apply andb_true_iff in He as [Hs _]. rewrite Hs. fold old. rewrite Hget.
  destruct (str_eqb old (assignedName k old)); reflexivity.
Qed.

Lemma distinct_media_are_numbered_witness :
  NoDup (mediaNames mixedArchive)
  /\ fst (rebuildEntry (fun b => b) (fun s => s)
            (collectRenames mixedArchive 1 [])
            (mkEntry (lit "ppt/media/sub/b.jpeg") false []))
     = lit "ppt/media/image2.jpeg".
Proof.
  assert (Hnd : NoDup (mediaNames mixedArchive)).
  { change (mediaNames mixedArchive) with [lit "a.png"; lit "b.jpeg"].
    repeat constructor; cbn [In]; intros H;
      repeat (destruct H as [H|H]; try discriminate H); exact H. }
  split; [exact Hnd|].
  exact (f_equal fst
           (proj2 (distinct_media_are_numbered (fun b => b) (fun s => s)
                     [mkEntry (lit "ppt/media/a.png") false []]
                     (mkEntry (lit "ppt/media/sub/b.jpeg") false [])
                     [mkEntry (lit "ppt/slides/slide1.xml") false (lit "a.png")]
                     Hnd eq_refl))).
Defined.

(** X16: a text that names no renamed file is left as it is.  A text in
    which no old name of the rename map occurs comes out of the
    replacements unchanged, so that an XML or relationship part of that
    kind is written as the encoding of its decoded content; a part that is
    neither is written with the bytes it had. *)
Theorem text_without_old_names_is_kept
        (decode : bytes -> str) (encode : str -> bytes)
        (renames : RenameMap) (e : Entry) :
  Forall (fun kv => includes (fst kv) (decode (getData e)) = false) renames ->
  startsWith mediaDir (entryName e) = false ->
  rewriteText renames (decode (getData e)) = decode (getData e)
  /\ rebuildEntry decode encode renames e
     = (entryName e,
        if endsWith (lit ".xml") (entryName e)
           || endsWith (lit ".rels") (entryName e)
        then encode (decode (getData e)) else getData e).
Proof.
  intros H Hs. pose proof (rewriteText_none _ _ H) as Hr.
  split; [exact Hr|]. unfold rebuildEntry. now rewrite Hs, Hr.
Qed.

Lemma text_without_old_names_is_kept_witness :
  includes (lit "a.png") (lit "<p>b.png</p>") = false
  /\ rewriteText [(lit "a.png", lit "image1.png")] (lit "<p>b.png</p>")
     = lit "<p>b.png</p>".
Proof.
  assert (H : includes (lit "a.png") (lit "<p>b.png</p>") = false)
    by (vm_compute; reflexivity).
  split; [exact H|].
  apply (text_without_old_names_is_kept (fun b => b) (fun s => s)
           [(lit "a.png", lit "image1.png")]
           (mkEntry (lit "ppt/slides/slide1.xml") false (lit "<p>b.png</p>"))).
  - constructor; [exact H|constructor].
  - reflexivity.
Defined.

(** X17: renames are applied one after the other.  The replacements run
    over the text in the order of the map, each on the result of the one
    before, so a name that one rename writes is renamed again by a later
    one.  In an archive whose two media files carry each other's
    sequential name the files are exchanged, and a reference to the first
    reads as before: it now points at the other file. *)
Theorem renames_are_chained (a b c : str) :
  a <> [] -> b <> [] ->
  rewriteText [(a, b); (b, c)] a = c.
Proof.
  intros Ha Hb. unfold rewriteText. cbn [fold_left fst snd].
  now rewrite (replaceAll_self a b Ha), (replaceAll_self b c Hb).
Qed.

Lemma renames_are_chained_witness :
  collectRenames swappedArchive 1 []
  = [(lit "image2.png", lit "image1.png"); (lit "image1.png", lit "image2.png")]
  /\ List.map (rebuildEntry (fun b => b) (fun s => s)
                 (collectRenames swappedArchive 1 [])) swappedArchive
     = [(lit "ppt/media/image1.png", [2%N]);
        (lit "ppt/media/image2.png", [1%N]);
        (lit "ppt/slides/_rels/slide1.xml.rels", lit "image2.png")]
  /\ rewriteText [(lit "image2.png", lit "image1.png");
                  (lit "image1.png", lit "image2.png")] (lit "image2.png")
     = lit "image2.png".
Proof.
  split; [vm_compute; reflexivity|].
  split; [vm_compute; reflexivity|].
  apply (renames_are_chained (lit "image2.png") (lit "image1.png")
           (lit "image2.png")); discriminate.
Defined.

(** ** The names of the files *)

Lemma endsWithPptx_app stem ext :
  length ext = 5 -> endsWithPptx (stem ++ ext) = endsWithPptx ext.
Proof.
  intros H. destruct ext as [|d [|p1 [|p2 [|t [|x [|? ?]]]]]]; try discriminate H.
  unfold endsWithPptx. rewrite rev_app_distr. cbn [rev app].
  now destruct (rev stem).
Qed.

Lemma stripPptx_ext stem ext :
  length ext = 5 -> endsWithPptx ext = true -> stripPptx (stem ++ ext) = stem.
Proof.
  intros Hl He. unfold stripPptx. rewrite (endsWithPptx_app _ _ Hl), He.
  rewrite length_app, Hl, Nat.add_sub.
  rewrite firstn_app, Nat.sub_diag, firstn_all. cbn [firstn]. apply app_nil_r.
Qed.

Lemma replaceFirst_none pat rep : forall s,
  includes pat s = false -> replaceFirst pat rep s = s.
Proof.
  induction s as [|c s IH]; intros H.
  - cbn [includes] in H. rewrite orb_false_r in H. cbn [replaceFirst]. now rewrite H.
  - rewrite includes_cons in H. apply orb_false_iff in H as [Hs Hi].
    cbn [replaceFirst]. rewrite Hs. f_equal. now apply IH.
Qed.

Lemma replaceFirst_length pat rep : forall s,
  includes pat s = true ->
  length (replaceFirst pat rep s) + length pat = length s + length rep.
Proof.
  induction s as [|c s IH]; intros H.
  - cbn [includes] in H. rewrite orb_false_r in H. cbn [replaceFirst]. rewrite H.
    apply startsWith_inv in H as [r Hr].
    destruct pat; [|discriminate]. cbn. rewrite length_app. cbn. lia.
  - cbn [replaceFirst]. rewrite includes_cons in H.
    destruct (startsWith pat (c :: s)) eqn:Hs.
    + apply startsWith_inv in Hs as [r Hr]. rewrite Hr, skipn_app_exact.
      rewrite !length_app. lia.
    + cbn [orb] in H. specialize (IH H). cbn [length]. lia.
Qed.

Lemma pptx_no_straddle a b :
  a <> [] -> length a < 5 ->
  startsWith (lit ".pptx") (a ++ lit ".pptx" ++ b) = false.
Proof.
  intros Hne Hl.
  destruct (startsWith (lit ".pptx") (a ++ lit ".pptx" ++ b)) eqn:E; [|reflexivity].
  exfalso.
  change (lit ".pptx") with [46; 112; 112; 116; 120]%N in E.
  destruct a as [|c1 [|c2 [|c3 [|c4 [|c5 a]]]]];
    [congruence| | | | |cbn [length] in Hl; lia];
    cbn [app] in E; rewrite !startsWith_cons in E;
    repeat (apply andb_true_iff in E as [? E]);
    repeat match goal with
           | H : (_ =? _)%N = true |- _ => apply N.eqb_eq in H
           end; discriminate.
Qed.

Lemma startsWith_prefix_false p : forall a r,
  length p <= length a ->
  startsWith p a = false -> startsWith p (a ++ r) = false.
Proof.
  induction p as [|x p IH]; intros a r Hl H; [discriminate|].
  destruct a as [|c a]; [cbn in Hl; lia|].
  cbn [app]. rewrite startsWith_cons in *.
  destruct (x =? c)%N; [|reflexivity]. cbn [andb] in *.
  apply IH; [cbn [length] in Hl; lia|exact H].
Qed.

Lemma replaceFirst_first_pptx rep : forall a b,
  includes (lit ".pptx") a = false ->
  replaceFirst (lit ".pptx") rep (a ++ lit ".pptx" ++ b) = a ++ rep ++ b.
Proof.
  induction a as [|c a IH]; intros b H.
  - cbn [app]. destruct (lit ".pptx" ++ b) eqn:E; [discriminate|].
    cbn [replaceFirst]. rewrite <- E, startsWith_app, skipn_app_exact. reflexivity.
  - rewrite includes_cons in H. apply orb_false_iff in H as [Hs Hi].
    cbn [app replaceFirst].
    assert (Hn : startsWith (lit ".pptx") (c :: a ++ lit ".pptx" ++ b) = false).
    { destruct (Nat.lt_ge_cases (length (c :: a)) 5) as [Hlt|Hge].
      - apply (pptx_no_straddle (c :: a) b); [discriminate|exact Hlt].
      - apply (startsWith_prefix_false _ (c :: a)); [exact Hge|exact Hs]. }
    rewrite Hn. f_equal. now apply IH.
Qed.

(** X18: one extension on the file name.  The handler of the tool writes
    to the file name it was given with the extension [.pptx] added; an
    extension [.pptx] that the name ends with already, in letters of
    either case, is taken off first, so that the name is never given a
    second one and the result is the same with and without it. *)
Theorem output_name_has_one_extension :
  (forall stem ext,
     length ext = 5 -> endsWithPptx ext = true ->
     outputFileName (stem ++ ext) = stem ++ lit ".pptx")
  /\ (forall f, endsWithPptx f = false -> outputFileName f = f ++ lit ".pptx")
  /\ (forall f, outputFileName (outputFileName f) = outputFileName f).
Proof.
  assert (H1 : forall stem ext,
             length ext = 5 -> endsWithPptx ext = true ->
             outputFileName (stem ++ ext) = stem ++ lit ".pptx").
  { intros stem ext Hl He. unfold outputFileName.
    now rewrite (stripPptx_ext _ _ Hl He). }
  split; [exact H1|]. split.
  - intros f Hf. unfold outputFileName, stripPptx. now rewrite Hf.
  - intros f. unfold outputFileName at 2. now apply H1.
Qed.

Lemma output_name_has_one_extension_witness :
  outputFileName (lit "lesson-5.PPTX") = lit "lesson-5.pptx"
  /\ outputFileName (lit "lesson-5") = lit "lesson-5.pptx".
Proof.
  split.
  - exact (proj1 output_name_has_one_extension (lit "lesson-5") (lit ".PPTX")
             eq_refl eq_refl).
  - exact (proj1 (proj2 output_name_has_one_extension) (lit "lesson-5") eq_refl).
Defined.

(** X19: the temporary file.  [generatePresentation] writes to the path
    it gets from the output path by putting [-temp] before the first
    [.pptx] in it, wherever that is; an output path without [.pptx] is
    its own temporary path.  For a path whose only [.pptx] is its
    extension, as the handler builds it from a name without one, the
    temporary file is the output file with [-temp] before the
    extension. *)
Theorem temp_path_of_output_path :
  (forall p, includes (lit ".pptx") p = false -> tempPathOf p = p)
  /\ (forall p, includes (lit ".pptx") p = true ->
                length (tempPathOf p) = length p + 5 /\ tempPathOf p <> p)
  /\ (forall a b, includes (lit ".pptx") a = false ->
                  tempPathOf (a ++ lit ".pptx" ++ b) = a ++ lit "-temp.pptx" ++ b).
Proof.
  split; [intros p H; now apply replaceFirst_none|]. split.
  - intros p H.
    pose proof (replaceFirst_length (lit ".pptx") (lit "-temp.pptx") p H) as Hl.
    change (length (lit ".pptx")) with 5 in Hl.
    change (length (lit "-temp.pptx")) with 10 in Hl.
    unfold tempPathOf. split; [lia|]. intros E. rewrite E in Hl. lia.
  - intros a b H. now apply replaceFirst_first_pptx.
Qed.

Lemma temp_path_of_output_path_witness :
  tempPathOf (lit "out/a.b/lesson-5.pptx") = lit "out/a.b/lesson-5-temp.pptx"
  /\ tempPathOf (lit "out/lesson-5.ppt") = lit "out/lesson-5.ppt".
Proof.
  split.
  - exact (proj2 (proj2 temp_path_of_output_path) (lit "out/a.b/lesson-5") []
             eq_refl).
  - exact (proj1 temp_path_of_output_path (lit "out/lesson-5.ppt") eq_refl).
Defined.

(** ** [cleanPDFText] *)

Lemma dropWhile_nonspace s :
  match dropWhile isSpace s with
  | d :: _ => isSpace d = false
  | [] => True
  end.
Proof.
  induction s as [|c s IH]; [exact I|].
  cbn [dropWhile]. destruct (isSpace c) eqn:E; [exact IH|exact E].
Qed.

Lemma gsub_spaces fuel : forall s,
  length s < fuel ->
  singleSpaced (gsub fuel afterSpaces (lit " ") s) = true
  /\ match s with
     | c :: _ =>
         if isSpace c then exists r, gsub fuel afterSpaces (lit " ") s = 32%N :: r
         else exists r, gsub fuel afterSpaces (lit " ") s = c :: r
     | [] => gsub fuel afterSpaces (lit " ") s = []
     end.
Proof.
  induction fuel as [|fuel IH]; intros s Hf; [lia|].
  destruct s as [|c s]; [now split|].
  cbn [gsub]. cbn [length] in Hf.
  assert (Ha : afterSpaces (c :: s)
               = if isSpace c then Some (dropWhile isSpace s) else None).
  { unfold afterSpaces. cbn [takeWhile dropWhile]. now destruct (isSpace c). }
  rewrite Ha. destruct (isSpace c) eqn:Ec.
  - pose proof (length_dropWhile _ isSpace s) as Hl.
    destruct (IH (dropWhile isSpace s) ltac:(lia)) as [Hs Hh].
    pose proof (dropWhile_nonspace s) as Hd.
    split; [|now eexists].
    change (lit " " ++ gsub fuel afterSpaces (lit " ") (dropWhile isSpace s))
      with (32%N :: gsub fuel afterSpaces (lit " ") (dropWhile isSpace s)).
    cbn [singleSpaced]. rewrite Hs.
    change (isSpace 32%N) with true. cbn iota.
    change (32 =? 32)%N with true.
    destruct (dropWhile isSpace s) as [|d r].
    + now rewrite Hh.
    + rewrite Hd in Hh. destruct Hh as [r' ->]. now rewrite Hd.
  - destruct (IH s ltac:(lia)) as [Hs Hh].
    split; [|now eexists]. cbn [singleSpaced]. now rewrite Ec, Hs.
Qed.

Lemma singleSpaced_noNL s :
  singleSpaced s = true -> existsb (N.eqb NL) s = false.
Proof.
  induction s as [|c s IH]; intros H; [reflexivity|].
  cbn [singleSpaced] in H. apply andb_true_iff in H as [Hc Hs].
  cbn [existsb]. rewrite (IH Hs), orb_false_r.
  destruct (NL =? c)%N eqn:E; [|reflexivity].
  apply N.eqb_eq in E. subst c.
  change (isSpace NL) with true in Hc. cbn iota in Hc.
  change (NL =? 32)%N with false in Hc. discriminate.
Qed.

Lemma gsub_blankRun rep fuel : forall s,
  existsb (N.eqb NL) s = false -> gsub fuel blankRun rep s = s.
Proof.
  induction fuel as [|fuel IH]; intros s H; [reflexivity|].
  destruct s as [|c s]; [reflexivity|].
  cbn [existsb] in H. apply orb_false_iff in H as [Hc Hs].
  cbn [gsub blankRun]. rewrite N.eqb_sym, Hc. f_equal. now apply IH.
Qed.

Lemma singleSpaced_suffix a s : singleSpaced (a ++ s) = true -> singleSpaced s = true.
Proof.
  induction a as [|c a IH]; intros H; [exact H|].
  cbn [app singleSpaced] in H. apply andb_true_iff in H as [_ H]. now apply IH.
Qed.

Lemma singleSpaced_prefix s b : singleSpaced (s ++ b) = true -> singleSpaced s = true.
Proof.
  induction s as [|c s IH]; intros H; [reflexivity|].
  cbn [app singleSpaced] in *. apply andb_true_iff in H as [Hc H].
  rewrite (IH H), andb_true_r.
  destruct (isSpace c); [|reflexivity].
  apply andb_true_iff in Hc as [Hc Hn]. rewrite Hc.
  destruct s; [reflexivity|exact Hn].
Qed.

Lemma singleSpaced_trim s : singleSpaced s = true -> singleSpaced (trim s) = true.
Proof.
  intros H. destruct (trim_infix s) as (a & b & Hab). rewrite Hab in H.
  apply singleSpaced_suffix in H. now apply singleSpaced_prefix in H.
Qed.

(** X20: the text [cleanPDFText] returns.  Whatever the input, the result
    has no white space at either end, and the only white space in it is a
    single space between two other characters: every line feed and tab of
    the input is gone, so that the last replacement, of blank lines by one
    empty line, never finds anything to replace. *)
Theorem cleanPDFText_is_single_spaced (text : str) :
  singleSpaced (cleanPDFText text) = true
  /\ trim (cleanPDFText text) = cleanPDFText text
  /\ existsb (N.eqb NL) (cleanPDFText text) = false
  /\ forall s, replaceGlobal blankRun [NL; NL]
                 (replaceGlobal afterSpaces (lit " ") s)
               = replaceGlobal afterSpaces (lit " ") s.
Proof.
  assert (H4 : forall s, singleSpaced (replaceGlobal afterSpaces (lit " ") s) = true).
  { intros s. unfold replaceGlobal. apply gsub_spaces. lia. }
  assert (H5 : forall s, replaceGlobal blankRun [NL; NL]
                           (replaceGlobal afterSpaces (lit " ") s)
                         = replaceGlobal afterSpaces (lit " ") s).
  { intros s. unfold replaceGlobal at 1. apply gsub_blankRun.
    apply singleSpaced_noNL, H4. }
  assert (Hs : singleSpaced (cleanPDFText text) = true).
  { unfold cleanPDFText. cbv zeta. rewrite H5. apply singleSpaced_trim, H4. }
  split; [exact Hs|]. split; [apply trim_idem|].
  split; [now apply singleSpaced_noNL|exact H5].
Qed.

(** ** The slides of [parseMarkdown] *)

Ltac by_cases_N :=
  repeat match goal with
         | |- context [(?a <=? ?b)%N] => destruct (N.leb_spec a b)
         | |- context [(?a =? ?b)%N] => destruct (N.eqb_spec a b)
         | H : context [(?a <=? ?b)%N] |- _ => destruct (N.leb_spec a b)
         | H : context [(?a =? ?b)%N] |- _ => destruct (N.eqb_spec a b)
         end;
  cbn in *; try reflexivity; try discriminate; try lia.

Lemma lower_word c :
  isWord c = true ->
  isWord (if ((65 <=? c) && (c <=? 90))%N then (c + 32)%N else c) = true.
Proof. unfold isWord, isDigit. intros H. by_cases_N. Qed.

Lemma lower_lower c :
  let l := (if ((65 <=? c) && (c <=? 90))%N then (c + 32)%N else c) in
  (if ((65 <=? l) && (l <=? 90))%N then (l + 32)%N else l) = l.
Proof. cbv zeta. by_cases_N. Qed.

Lemma toLowerCase_word w :
  forallb isWord w = true -> forallb isWord (toLowerCase w) = true.
Proof.
  induction w as [|c w IH]; intros H; [reflexivity|].
  cbn [forallb] in H. apply andb_true_iff in H as [Hc Hw].
  unfold toLowerCase in *. cbn [List.map forallb].
  apply andb_true_iff. split; [exact (lower_word c Hc)|now apply IH].
Qed.

Lemma toLowerCase_idem w : toLowerCase (toLowerCase w) = toLowerCase w.
Proof.
  induction w as [|c w IH]; [reflexivity|].
  unfold toLowerCase in *. cbn [List.map]. rewrite IH. f_equal.
  apply lower_lower.
Qed.

Lemma isDot_noNL t : forallb isDot t = true -> noNL t = true.
Proof.
  unfold noNL. induction t as [|c t IH]; intros H; [reflexivity|].
  cbn [forallb] in H. apply andb_true_iff in H as [Hc Ht].
  cbn [existsb]. rewrite negb_orb, (IH Ht), andb_true_r.
  destruct (NL =? c)%N eqn:E; [|reflexivity].
  apply N.eqb_eq in E. subst c. discriminate.
Qed.

Lemma trimStart_dropWhile s : trimStart (dropWhile isSpace s) = dropWhile isSpace s.
Proof.
  pose proof (dropWhile_nonspace s) as H. unfold trimStart.
  destruct (dropWhile isSpace s) as [|d r]; [reflexivity|].
  cbn [dropWhile]. now rewrite H.
Qed.

Lemma typeMatch_inv h w t :
  typeMatch h = Some (w, t) ->
  w <> [] /\ forallb isWord w = true
  /\ forallb isDot t = true /\ trimStart t = t.
Proof.
  unfold typeMatch. destruct h as [|c r]; [discriminate|].
  destruct (c =? 91)%N; [|discriminate].
  pose proof (takeWhile_all _ isWord r) as Hw.
  destruct (takeWhile isWord r) as [|x w'] eqn:Ew; [discriminate|].
  destruct (dropWhile isWord r) as [|c' r']; [discriminate|].
  destruct (c' =? 93)%N; [|discriminate].
  destruct (forallb isDot (dropWhile isSpace r')) eqn:Ed; [|discriminate].
  intros [= <- <-]. repeat split; try assumption; [discriminate|].
  apply trimStart_dropWhile.
Qed.

Lemma hd_lines_noNL s : noNL (hd [] (lines s)) = true.
Proof.
  pose proof (lines_all_noNL s) as H.
  destruct (lines s) as [|l ls]; [reflexivity|].
  cbn [forallb] in H. now apply andb_true_iff in H as [H _].
Qed.

Lemma hd_lines_head c s :
  isSpace c = false -> exists r, hd [] (lines (c :: s)) = c :: r.
Proof.
  intros Hc. unfold lines. cbn [splitOn].
  destruct (c =? NL)%N eqn:E.
  - apply N.eqb_eq in E. subst c. discriminate.
  - destruct (splitOn NL s) as [|piece more]; now eexists.
Qed.

Lemma headerLine_trimmed section :
  trimStart (headerLineOf section) = headerLineOf section.
Proof.
  unfold headerLineOf.
  destruct (truthy (trim section)) eqn:E.
  - destruct (trim_ends section E) as (c & t & _ & _ & Hct & Hc & _).
    rewrite Hct. destruct (hd_lines_head c t Hc) as [r ->].
    now apply trimStart_nonspace.
  - destruct (trim section); [reflexivity|discriminate].
Qed.

Lemma parseSection_shape section : slideShape (parseSection section).
Proof.
  unfold parseSection.
  destruct (typeMatch (headerLineOf section)) as [[w t]|] eqn:E.
  - apply typeMatch_inv in E as (Hne & Hw & Hd & Ht).
    repeat split; cbn [type title content].
    + destruct w; [congruence|discriminate].
    + now apply toLowerCase_word.
    + apply toLowerCase_idem.
    + now apply isDot_noNL.
    + exact Ht.
    + apply trim_idem.
  - repeat split; cbn [type title content]; try reflexivity.
    + discriminate.
    + apply hd_lines_noNL.
    + apply headerLine_trimmed.
    + apply trim_idem.
Qed.

(** X21: the shape of a slide.  The type of every slide of
    [parseMarkdown] is a non-empty run of word characters without capital
    letters; the title holds no line feed and does not begin with white
    space, and the content has no white space at either end.  When the
    header matched the tag pattern the title holds no LineTerminator at
    all; otherwise the title is the whole header line, and a carriage
    return in it stays. *)
Theorem slides_shape (matter : str -> Frontmatter * str) (content : str) :
  Forall slideShape (snd (parseMarkdown matter content))
  /\ (forall section,
        typeMatch (headerLineOf section) <> None ->
        forallb isDot (title (parseSection section)) = true)
  /\ parseSection (lit "A" ++ [13%N] ++ lit "second line")
     = mkSlide (lit "content") (lit "A" ++ [13%N] ++ lit "second line") [].
Proof.
  split; [|split].
  - unfold parseMarkdown. destruct (matter content) as [fm body].
    cbn [snd]. unfold slidesOf. apply Forall_map, Forall_forall.
    intros s _. apply parseSection_shape.
  - intros section H. unfold parseSection.
    destruct (typeMatch (headerLineOf section)) as [[w t]|] eqn:E;
      [|congruence].
    cbn [title]. now apply typeMatch_inv in E as (_ & _ & Hd & _).
  - vm_compute. reflexivity.
Qed.

Lemma slides_shape_witness :
  typeMatch (headerLineOf (lit "[plan] Agenda")) <> None
  /\ forallb isDot (title (parseSection (lit "[plan] Agenda"))) = true.
Proof.
  assert (H : typeMatch (headerLineOf (lit "[plan] Agenda")) <> None)
    by (vm_compute; discriminate).
  split; [exact H|].
  exact (proj1 (proj2 (slides_shape noFrontmatter [])) _ H).
Defined.

(** ** Bullets written and read back *)

Lemma forallb_repeat (p : char -> bool) c n : p c = true -> forallb p (repeat c n) = true.
Proof. intros H. induction n as [|n IH]; [reflexivity|]. cbn. now rewrite H, IH. Qed.

Lemma trimStart_head t :
  t <> [] -> trimStart t = t -> exists c r, t = c :: r /\ isSpace c = false.
Proof.
  intros Hne Ht. destruct t as [|c r]; [congruence|].
  exists c, r. split; [reflexivity|].
  unfold trimStart in Ht. cbn [dropWhile] in Ht.
  destruct (isSpace c) eqn:E; [|reflexivity].
  pose proof (length_dropWhile _ isSpace r) as Hl.
  rewrite Ht in Hl. cbn [length] in Hl. lia.
Qed.

Lemma bulletMatch_bulletLine b :
  plainBullet b ->
  bulletMatch (bulletLine b) = Some (repeat 32%N (2 * level b), text b).
Proof.
  intros (Hne & Hd & Ht).
  destruct (trimStart_head _ Hne Ht) as (c & r & Hcr & Hc).
  assert (Hsp : forallb isSpace (repeat 32%N (2 * level b)) = true)
    by (now apply forallb_repeat).
  assert (Ht1 : takeWhile isSpace (lit "- " ++ text b) = []) by reflexivity.
  assert (Hd1 : dropWhile isSpace (lit "- " ++ text b) = 45%N :: 32%N :: text b)
    by reflexivity.
  assert (Ht2 : takeWhile isSpace (32%N :: text b) = [32%N]).
  { rewrite Hcr. change (takeWhile isSpace (32%N :: c :: r))
      with (32%N :: takeWhile isSpace (c :: r)).
    cbn [takeWhile]. now rewrite Hc. }
  assert (Hd2 : dropWhile isSpace (32%N :: text b) = text b).
  { rewrite Hcr. change (dropWhile isSpace (32%N :: c :: r))
      with (dropWhile isSpace (c :: r)).
    cbn [dropWhile]. now rewrite Hc. }
  unfold bulletMatch, bulletLine.
  rewrite (takeWhile_app _ isSpace _ _ Hsp), (dropWhile_app _ isSpace _ _ Hsp).
  rewrite Ht1, Hd1, app_nil_r.
  change (isBulletMark 45%N) with true. cbn iota.
  rewrite Ht2, Hd2.
  cbn [length bulletText skipn app].
  assert (Htr : truthy (text b) = true) by (now rewrite Hcr).
  now rewrite Htr, Hd.
Qed.

Lemma bulletLine_noNL b : plainBullet b -> noNL (bulletLine b) = true.
Proof.
  intros (_ & Hd & _). unfold noNL, bulletLine.
  apply negb_true_iff. rewrite !existsb_app.
  apply orb_false_iff. split; [|apply orb_false_iff; split; [reflexivity|]].
  - induction (2 * level b) as [|n IH]; [reflexivity|]. cbn [repeat existsb].
    now rewrite IH.
  - apply isDot_noNL in Hd. unfold noNL in Hd. now apply negb_true_iff in Hd.
Qed.

(** X22: bullets written and read back.  A list of bullets, each with a
    text of one line that is not empty and has no white space in front,
    written one to a line with two spaces for each level, a hyphen and a
    space, is read back by [parseBullets] as it was: the same texts and
    levels, in the same order. *)
Theorem parseBullets_reads_back (bullets : list Bullet) :
  Forall plainBullet bullets ->
  parseBullets (unlines (List.map bulletLine bullets)) = bullets.
Proof.
  intros H. unfold parseBullets.
  destruct bullets as [|b0 bs0] eqn:Eb; [reflexivity|]. rewrite <- Eb in *.
  assert (Hne : List.map bulletLine bullets <> [])
    by (rewrite Eb; discriminate).
  assert (Hnl : forallb noNL (List.map bulletLine bullets) = true).
  { apply forallb_forall. intros l Hl. apply in_map_iff in Hl as (b & <- & Hb).
    rewrite Forall_forall in H. now apply bulletLine_noNL, H. }
  rewrite (lines_unlines _ Hne Hnl). clear Eb Hne Hnl.
  induction H as [|b bs Hb Hbs IH]; [reflexivity|].
  cbn [List.map flat_map]. rewrite (bulletMatch_bulletLine b Hb), IH.
  cbn [app]. rewrite repeat_length, Nat.mul_comm, Nat.div_mul by discriminate.
  now destruct b.
Qed.

Lemma parseBullets_reads_back_witness :
  parseBullets (unlines (List.map bulletLine
                           [mkBullet (lit "one") 0; mkBullet (lit "two **b**") 2]))
  = [mkBullet (lit "one") 0; mkBullet (lit "two **b**") 2].
Proof.
  apply parseBullets_reads_back.
  repeat constructor; discriminate.
Defined.

(** ** Extensions *)

Lemma splitOn_nonempty sep s : splitOn sep s <> [].
Proof.
  destruct s as [|c s]; [discriminate|]. rewrite splitOn_cons.
  destruct (c =? sep)%N; [discriminate|].
  destruct (splitOn sep s); discriminate.
Qed.

Lemma splitOn_none (sep : char) (l : str) :
  existsb (N.eqb sep) l = false -> splitOn sep l = [l].
Proof.
  induction l as [|c l IH]; intros H; [reflexivity|].
  cbn [existsb] in H. apply orb_false_iff in H as [Hc H].
  rewrite splitOn_cons, N.eqb_sym, Hc. now rewrite (IH H).
Qed.

Lemma splitOn_app_sep (sep : char) (l s : str) :
  existsb (N.eqb sep) l = false ->
  splitOn sep (l ++ sep :: s) = l :: splitOn sep s.
Proof.
  induction l as [|c l IH]; intros H.
  - cbn [app]. rewrite splitOn_cons, N.eqb_refl. reflexivity.
  - cbn [existsb] in H. apply orb_false_iff in H as [Hc H].
    cbn [app]. rewrite splitOn_cons, N.eqb_sym, Hc. now rewrite (IH H).
Qed.

Lemma join_cons2 sep x y rest :
  join sep (x :: y :: rest) = x ++ sep ++ join sep (y :: rest).
Proof. reflexivity. Qed.

Lemma join_splitOn sep s : join [sep] (splitOn sep s) = s.
Proof.
  induction s as [|c s IH]; [reflexivity|].
  rewrite splitOn_cons. destruct (c =? sep)%N eqn:Hc.
  - apply N.eqb_eq in Hc. subst c.
    destruct (splitOn sep s) as [|p more] eqn:E.
    + now destruct (splitOn_nonempty sep s).
    + rewrite join_cons2. cbn [app]. f_equal. exact IH.
  - destruct (splitOn sep s) as [|p more] eqn:E.
    + now destruct (splitOn_nonempty sep s).
    + destruct more; cbn [join app] in *; f_equal; exact IH.
Qed.

Lemma join_snoc sep a x :
  a <> [] -> join sep (a ++ [x]) = join sep a ++ sep ++ x.
Proof.
  induction a as [|y a IH]; intros H; [congruence|].
  destruct a as [|z a]; [reflexivity|].
  change ((y :: z :: a) ++ [x]) with (y :: (z :: a) ++ [x]).
  change ((z :: a) ++ [x]) with (z :: a ++ [x]) at 1.
  rewrite join_cons2.
  change (z :: a ++ [x]) with ((z :: a) ++ [x]).
  rewrite IH by discriminate. rewrite join_cons2.
  now rewrite <- !app_assoc.
Qed.

Lemma extname_cases name :
  (extname name = [] \/
   exists ext, extname name = DOT :: ext /\ existsb (N.eqb DOT) ext = false)
  /\ exists stem, name = stem ++ extname name.
Proof.
  unfold extname.
  pose proof (join_splitOn DOT name) as Hj.
  pose proof (splitOn_noSep DOT name) as Hn.
  destruct (rev (splitOn DOT name)) as [|ext [|b before]] eqn:E;
    try (split; [now left|exists name; now rewrite app_nil_r]).
  assert (Hs : splitOn DOT name = rev (b :: before) ++ [ext]).
  { rewrite <- (rev_involutive (splitOn DOT name)), E. reflexivity. }
  rewrite Hs in Hj, Hn.
  rewrite join_snoc in Hj
    by (cbn [rev]; intros H; now apply app_eq_nil in H as [_ H]).
  apply Forall_app in Hn as [_ Hn]. apply Forall_inv in Hn. rename Hn into Hext.
  set (stem := join [DOT] (rev (b :: before))) in *.
  assert (Hfull : (DOT :: ext = [] \/
                   exists ext', DOT :: ext = DOT :: ext'
                                /\ existsb (N.eqb DOT) ext' = false)
                  /\ exists stem', name = stem' ++ DOT :: ext).
  { split; [right; now exists ext|exists stem; now rewrite <- Hj]. }
  assert (Hnone : (@nil char = [] \/
                   exists ext', @nil char = DOT :: ext'
                                /\ existsb (N.eqb DOT) ext' = false)
                  /\ exists stem', name = stem' ++ []).
  { split; [now left|exists name; now rewrite app_nil_r]. }
  destruct stem as [|c [|c' stem]]; [exact Hnone| |exact Hfull].
  destruct ext as [|e ext]; [|exact Hfull].
  destruct (c =? DOT)%N; [exact Hnone|exact Hfull].
Qed.

Lemma assignedName_prefix k :
  existsb (N.eqb DOT) (lit "image" ++ ofNat k) = false
  /\ exists c c' r, lit "image" ++ ofNat k = c :: c' :: r.
Proof.
  split; [|now eexists _, _, _].
  rewrite existsb_app. apply orb_false_iff. split; [reflexivity|].
  pose proof (ofNat_digits k) as H.
  induction (ofNat k) as [|d ds IH]; [reflexivity|].
  cbn [forallb] in H. apply andb_true_iff in H as [Hd Hds].
  cbn [existsb]. rewrite (IH Hds), orb_false_r.
  destruct (DOT =? d)%N eqn:E; [|reflexivity].
  apply N.eqb_eq in E. subst d. discriminate.
Qed.

Lemma extname_plain (pre : str) :
  existsb (N.eqb DOT) pre = false -> extname (pre ++ []) = [].
Proof.
  intros Hp. rewrite app_nil_r. unfold extname.
  now rewrite (splitOn_none _ _ Hp).
Qed.

Lemma extname_prefixed (pre ext : str) :
  existsb (N.eqb DOT) pre = false ->
  existsb (N.eqb DOT) ext = false ->
  (exists c c' r, pre = c :: c' :: r) ->
  extname (pre ++ DOT :: ext) = DOT :: ext.
Proof.
  intros Hp Hext (c & c' & r & Hcr). unfold extname.
  rewrite (splitOn_app_sep _ _ ext Hp), (splitOn_none _ _ Hext).
  cbn [rev app join]. rewrite Hcr. reflexivity.
Qed.

(** X23: a renamed media file keeps its extension.  The extension of a
    name is empty or a dot followed by text without dots, and it ends the
    name; the name [image<k><ext>] a media file is given has the extension
    of the name the file had. *)
Theorem renamed_media_keep_extension (k : nat) (name : str) :
  extname (assignedName k name) = extname name
  /\ (exists stem, name = stem ++ extname name)
  /\ (extname name = [] \/
      exists ext, extname name = DOT :: ext /\ existsb (N.eqb DOT) ext = false).
Proof.
  destruct (extname_cases name) as [Hc Hs].
  split; [|split; assumption].
  unfold assignedName. rewrite app_assoc.
  destruct (assignedName_prefix k) as (Hp & c & c' & r & Hcr).
  destruct Hc as [->|(ext & -> & Hext)].
  - now apply extname_plain.
  - apply extname_prefixed; [exact Hp|exact Hext|now exists c, c', r].
Qed.

(** ** Bullet lines *)

Lemma splitOn_app (sep : char) (a b : str) :
  splitOn sep (a ++ sep :: b) = splitOn sep a ++ splitOn sep b.
Proof.
  induction a as [|c a IH].
  - cbn [app]. rewrite splitOn_cons, N.eqb_refl. reflexivity.
  - cbn [app]. rewrite !splitOn_cons, IH.
    destruct (c =? sep)%N; [reflexivity|].
    pose proof (splitOn_nonempty sep a) as Hne.
    destruct (splitOn sep a) as [|p m]; [congruence|reflexivity].
Qed.

Lemma lines_unlines_In l ls :
  In l ls -> noNL l = true -> In l (lines (unlines ls)).
Proof.
  intros Hin Hl. induction ls as [|x ls IH]; [contradiction|].
  destruct ls as [|y ls].
  - destruct Hin as [->|[]]. cbn [unlines join]. rewrite (lines_noNL _ Hl).
    now left.
  - change (unlines (x :: y :: ls)) with (x ++ NL :: unlines (y :: ls)).
    unfold lines. rewrite splitOn_app. apply in_or_app.
    destruct Hin as [->|Hin].
    + left. fold (lines l). rewrite (lines_noNL _ Hl). now left.
    + right. now apply IH.
Qed.

Lemma mark_not_space c : isBulletMark c = true -> isSpace c = false.
Proof.
  unfold isBulletMark. intros H.
  destruct (c =? 45)%N eqn:E1; [apply N.eqb_eq in E1; now subst|].
  destruct (c =? 42)%N eqn:E2; [apply N.eqb_eq in E2; now subst|].
  destruct (c =? 8226)%N eqn:E3; [apply N.eqb_eq in E3; now subst|].
  discriminate.
Qed.

Lemma mark_not_pipe c : isBulletMark c = true -> (PIPE =? c)%N = false.
Proof.
  intros H. destruct (PIPE =? c)%N eqn:E; [|reflexivity].
  apply N.eqb_eq in E. subst c. discriminate.
Qed.

Lemma bullet_line_no_pipe line :
  isBulletLine line = true -> startsPipe line = false.
Proof.
  unfold isBulletLine, startsPipe, trim, trimStart.
  destruct (dropWhile isSpace line) as [|c r]; [discriminate|].
  intros H. apply andb_true_iff in H as [Hm _].
  destruct (trim_head c r (mark_not_space c Hm)) as [r' Hr].
  unfold trim, trimStart in Hr. cbn [dropWhile] in Hr.
  rewrite (mark_not_space c Hm) in Hr. rewrite Hr.
  rewrite startsWith_cons, (mark_not_pipe c Hm). reflexivity.
Qed.

Section BulletsOfWalk.

Variable cbs : list CodeBlock.
Variable tbls : list TableBlock.
Variable l : str.

Lemma emittedBullet_mono w w' :
  (forall e, In e (elements w) -> In e (elements w')) ->
  emittedBullet l w -> emittedBullet l w'.
Proof. intros H (ls & Hin & Hl). exists ls. split; [now apply H|exact Hl]. Qed.

Lemma flushBullets_emittedBullet w :
  heldBullet l w -> emittedBullet l (flushBullets w).
Proof.
  intros [H|H].
  - unfold flushBullets. destruct (currentBulletBlock w) as [|b bb] eqn:E;
      [contradiction|].
    exists (b :: bb). split; [|exact H].
    cbn [elements]. apply in_or_app. right. now left.
  - eapply emittedBullet_mono; [|exact H].
    intros e. apply flushBullets_mono.
Qed.

Lemma flushText_heldBullet w : heldBullet l w -> heldBullet l (flushText w).
Proof.
  intros [H|H].
  - left. unfold flushText. now destruct (currentTextBlock w).
  - right. eapply emittedBullet_mono; [|exact H].
    intros e. apply flushText_mono.
Qed.

Lemma push_emittedBullet x w : emittedBullet l w -> emittedBullet l (push x w).
Proof. apply emittedBullet_mono. intros e. apply push_mono. Qed.

Lemma walkLine_heldBullet w line :
  heldBullet l w -> heldBullet l (walkLine cbs tbls w line).
Proof.
  intros H. unfold walkLine.
  destruct (codeMatch line).
  { right. now apply push_emittedBullet, flushBullets_emittedBullet,
             flushText_heldBullet. }
  destruct (tableMatch line).
  { right. now apply push_emittedBullet, flushBullets_emittedBullet,
             flushText_heldBullet. }
  destruct (isBulletLine line).
  { apply flushText_heldBullet in H as [H|H].
    - left. cbn [currentBulletBlock]. apply in_or_app. now left.
    - right. destruct H as (ls & Hin & Hl). now exists ls. }
  destruct (truthy (trim line)).
  { right. apply flushBullets_emittedBullet in H as (ls & Hin & Hl).
    now exists ls. }
  right. now apply flushBullets_emittedBullet, flushText_heldBullet.
Qed.

Lemma fold_walkLine_heldBullet ls : forall w,
  heldBullet l w -> heldBullet l (fold_left (walkLine cbs tbls) ls w).
Proof.
  induction ls as [|x ls IH]; intros w H; [exact H|].
  cbn [fold_left]. now apply IH, walkLine_heldBullet.
Qed.

Lemma walkLine_takes_bullet w :
  codeMatch l = false -> tableMatch l = false -> isBulletLine l = true ->
  heldBullet l (walkLine cbs tbls w l).
Proof.
  intros Hc Ht Hb. unfold walkLine. rewrite Hc, Ht, Hb.
  left. cbn [currentBulletBlock]. apply in_or_app. right. now left.
Qed.

Lemma walkLines_bullet ls :
  In l ls ->
  codeMatch l = false -> tableMatch l = false -> isBulletLine l = true ->
  exists bl, In (BulletsEl (unlines bl)) (walkLines cbs tbls ls) /\ In l bl.
Proof.
  intros Hin Hc Ht Hb. unfold walkLines.
  apply in_split in Hin as (a & b & ->).
  rewrite fold_left_app. cbn [fold_left].
  apply flushBullets_emittedBullet, flushText_heldBullet.
  apply fold_walkLine_heldBullet. now apply walkLine_takes_bullet.
Qed.

End BulletsOfWalk.

(** X24: no bullet line is lost.  In a content without fenced blocks, a
    line that [parseBullets] reads as a bullet and that holds no code or
    table token ends up in a bullets element of the parse, and
    [parseBullets] reads the same bullet, text and level, off that
    element when the slide is drawn. *)
Theorem bullet_lines_become_bullets (content line indent t : str) :
  execFence content = None ->
  In line (lines content) ->
  codeMatch line = false -> tableMatch line = false ->
  bulletMatch line = Some (indent, t) ->
  exists c,
    In (BulletsEl c) (parseContentElements content)
    /\ In (mkBullet t (length indent / 2)) (parseBullets c).
Proof.
  intros Hf Hin Hc Ht Hm.
  assert (Hb : isBulletLine line = true).
  { apply (bulletOf_isBulletLine line (mkBullet t (length indent / 2))).
    now apply bulletMatch_spec. }
  assert (Hnl : noNL line = true).
  { pose proof (lines_all_noNL content) as H.
    rewrite forallb_forall in H. now apply H. }
  pose proof (body_line_is_walked content line Hf Hin
                (bullet_line_no_pipe line Hb)) as Hw.
  rewrite parseContentElements_eq.
  destruct (walkLines_bullet (fst (codeBlocksOf content))
              (fst (tablesOf (snd (codeBlocksOf content))))
              line (finalLinesOf content) Hw Hc Ht Hb) as (bl & Hel & Hl).
  exists (unlines bl). split; [exact Hel|].
  unfold parseBullets. apply in_flat_map. exists line.
  split; [now apply lines_unlines_In|].
  rewrite Hm. now left.
Qed.

Lemma bullet_lines_become_bullets_witness :
  exists c,
    In (BulletsEl c)
       (parseContentElements (lit "Intro" ++ [NL] ++ lit "  - **two** words"))
    /\ In (mkBullet (lit "**two** words") 1) (parseBullets c).
Proof.
  apply (bullet_lines_become_bullets
           (lit "Intro" ++ [NL] ++ lit "  - **two** words")
           (lit "  - **two** words") (lit "  ") (lit "**two** words")).
  - vm_compute. reflexivity.
  - vm_compute. tauto.
  - vm_compute. reflexivity.
  - vm_compute. reflexivity.
  - vm_compute. reflexivity.
Defined.

(** X25: no line of prose is lost.  In a content without fenced blocks, a
    line that is not blank, does not begin with a pipe, is no bullet line
    and holds no code or table token ends up, trimmed, inside a text
    element of the parse. *)
Theorem text_lines_become_text (content line : str) :
  execFence content = None ->
  In line (lines content) ->
  truthy (trim line) = true ->
  startsPipe line = false ->
  isBulletLine line = false ->
  codeMatch line = false -> tableMatch line = false ->
  exists c,
    In (TextEl c) (parseContentElements content)
    /\ includes (trim line) c = true.
Proof.
  intros Hf Hin Hn Hp Hb Hc Ht.
  pose proof (body_line_is_walked content line Hf Hin Hp) as Hw.
  rewrite parseContentElements_eq.
  now apply walkLines_text.
Qed.

Lemma text_lines_become_text_witness :
  exists c,
    In (TextEl c)
       (parseContentElements (lit "- one" ++ [NL] ++ lit "  Some prose. "))
    /\ includes (trim (lit "  Some prose. ")) c = true.
Proof.
  apply (text_lines_become_text
           (lit "- one" ++ [NL] ++ lit "  Some prose. ")
           (lit "  Some prose. ")).
  - vm_compute. reflexivity.
  - vm_compute. tauto.
  - vm_compute. reflexivity.
  - vm_compute. reflexivity.
  - vm_compute. reflexivity.
  - vm_compute. reflexivity.
  - vm_compute. reflexivity.
Defined.
